(** * ecommerce-ai: the free-text query interpreter and the ranking engine

    A shallow embedding of [parseQuery], [scoreProduct] and [applyAIQuery]
    of [src/App.tsx], and the properties of them that the specification
    states; then the rest of the file - the catalog [products], and
    [categories], [baseFiltered], [finalList] and [renderStars] of the
    component - with the properties the code itself shows.

    Modelling conventions.
    - A JavaScript string is a [list ascii]; an [ascii] stands for a code
      unit below 256 (the Latin-1 range).  U+00A0, the only white-space
      character of that range outside ASCII, is kept.
    - A JavaScript number is a rational ([Q]) and arithmetic is exact: the
      rounding of IEEE-754 doubles, NaN and the infinities are not modelled.
      Numbers are compared with [Qcompare], [Qle_bool] and [Qeq_bool], so
      [25 # 10] and [5 # 2] are the same number.
    - A regular expression is a value of [regex], run by a backtracking
      matcher written in continuation-passing style: alternatives are tried
      left to right and quantifiers are greedy, as in ECMAScript.
    - [Array.prototype.sort] is a stable insertion sort driven by the sign
      of the comparator.
    - The functions are pure functions of their arguments.  Module [Store]
      has them once more on an explicit store - the arrays, by address,
      and the two tables of the module - to show that this is sound: they
      change no object that was there before the call. *)

From Stdlib Require Import Ascii String List Bool NArith ZArith Lia.
From Stdlib Require Import QArith Qminmax Qround Lqa Permutation Sorted.
Import ListNotations.

Local Open Scope list_scope.

(* ================================================================== *)
(** ** Characters and strings *)

Module Js.

Definition jsstring : Type := list ascii.

(** A string literal of the source. *)
Definition lit (s : string) : jsstring := list_ascii_of_string s.

Definition code (c : ascii) : N := N_of_ascii c.

Definition in_range (lo hi : N) (c : ascii) : bool :=
  ((lo <=? code c) && (code c <=? hi))%N.

(** [\d] *)
Definition is_digit (c : ascii) : bool := in_range 48 57 c.

Definition is_lower (c : ascii) : bool := in_range 97 122 c.

Definition is_upper (c : ascii) : bool := in_range 65 90 c.

(** [\s], and the characters [trim] removes: TAB, LF, VT, FF, CR, SP and
    NBSP. *)
Definition is_space (c : ascii) : bool :=
  in_range 9 13 c || (code c =? 32)%N || (code c =? 160)%N.

(** [\w], which decides [\b]. *)
Definition is_word (c : ascii) : bool :=
  is_digit c || is_lower c || is_upper c || (code c =? 95)%N.

Definition ascii_eqb (a b : ascii) : bool := (code a =? code b)%N.

(** [String.prototype.toLowerCase] on one code unit: A-Z, and the capital
    letters of Latin-1 (U+00C0 - U+00DE but U+00D7). *)
Definition lower_char (c : ascii) : ascii :=
  if is_upper c || (in_range 192 222 c && negb (code c =? 215)%N)
  then ascii_of_N (code c + 32) else c.

Definition toLowerCase (s : jsstring) : jsstring := map lower_char s.

(** Canonicalize of the [/i] flag.  The patterns of the program hold ASCII
    characters only, and no character outside ASCII canonicalizes into
    ASCII, so upper-casing a-z decides every comparison the program makes. *)
Definition canonicalize (c : ascii) : ascii :=
  if is_lower c then ascii_of_N (code c - 32) else c.

Definition char_matches (ignoreCase : bool) (pat c : ascii) : bool :=
  if ignoreCase then ascii_eqb (canonicalize pat) (canonicalize c)
  else ascii_eqb pat c.

Fixpoint string_eqb (a b : jsstring) : bool :=
  match a, b with
  | [], [] => true
  | x :: a', y :: b' => ascii_eqb x y && string_eqb a' b'
  | _, _ => false
  end.

Fixpoint starts_with (k s : jsstring) : bool :=
  match k, s with
  | [], _ => true
  | x :: k', y :: s' => ascii_eqb x y && starts_with k' s'
  | _ :: _, [] => false
  end.

(** [hay.includes(k)] *)
Fixpoint includes (hay k : jsstring) : bool :=
  starts_with k hay ||
  match hay with
  | [] => false
  | _ :: hay' => includes hay' k
  end.

Fixpoint trimStart (s : jsstring) : jsstring :=
  match s with
  | c :: t => if is_space c then trimStart t else s
  | [] => []
  end.

Definition trimEnd (s : jsstring) : jsstring := rev (trimStart (rev s)).

(** [q.trim()] *)
Definition trim (s : jsstring) : jsstring := trimEnd (trimStart s).

(** [s.split(/\s+/)]: the fields between the maximal runs of white space;
    a run at either end leaves an empty field there, and the empty string
    has the one field [""].  [cur] is the field being read, reversed. *)
Fixpoint split_go (in_sep : bool) (cur : jsstring) (s : jsstring)
  : list jsstring :=
  match s with
  | [] => [rev cur]
  | c :: t =>
      if is_space c
      then if in_sep then split_go true [] t
           else rev cur :: split_go true [] t
      else split_go false (c :: cur) t
  end.

Definition split_spaces (s : jsstring) : list jsstring := split_go false [] s.

(** [s.replace(/[^a-z0-9\s-]/g, " ")] *)
Definition keep_char (c : ascii) : bool :=
  is_lower c || is_digit c || is_space c || ascii_eqb c "-"%char.

Definition replace_punctuation (s : jsstring) : jsstring :=
  map (fun c => if keep_char c then c else " "%char) s.

(** [w.replace(/-/g, "")] *)
Definition remove_hyphens (w : jsstring) : jsstring :=
  filter (fun c => negb (ascii_eqb c "-"%char)) w.

(** [Number(t)] for a [t] that reads [\d+] or [\d+\.\d+], the only strings
    the program converts: the decimal value, exactly.  (Elsewhere
    JavaScript answers NaN; the program never asks.) *)
Definition digit_val (c : ascii) : Z := Z.of_N (code c) - 48.

Definition digits_val (s : jsstring) : Z :=
  fold_left (fun acc c => 10 * acc + digit_val c)%Z s 0%Z.

Fixpoint pow10 (n : nat) : positive :=
  match n with
  | O => 1%positive
  | S m => (10 * pow10 m)%positive
  end.

Fixpoint int_part (s : jsstring) : jsstring :=
  match s with
  | [] => []
  | c :: t => if ascii_eqb c "."%char then [] else c :: int_part t
  end.

Fixpoint frac_part (s : jsstring) : jsstring :=
  match s with
  | [] => []
  | c :: t => if ascii_eqb c "."%char then t else frac_part t
  end.

Definition Number (t : jsstring) : Q :=
  digits_val (int_part t ++ frac_part t) # pow10 (length (frac_part t)).

End Js.

(* ================================================================== *)
(** ** Regular expressions *)

Module Regex.
Import Js.

(** The fragment of ECMAScript patterns the program uses.  [*] and [+] are
    only ever applied to a character class there, so [Star] and [Plus] take
    one. *)
Inductive regex : Type :=
| Eps
| Chr (c : ascii)
| Cls (p : ascii -> bool)
| Seq (r1 r2 : regex)
| Alt (r1 r2 : regex)
| Opt (r : regex)
| Star (p : ascii -> bool)
| Plus (p : ascii -> bool)
| Grp (n : nat) (r : regex)
| WordB
| Bol
| Eol.

(** Where the matcher stands: the character before it (none at the start
    of the string), the rest of the input and the groups captured so far. *)
Record cursor : Type := Cursor {
  before : option ascii;
  input : jsstring;
  groups : list (nat * jsstring)
}.

Definition is_word_at (o : option ascii) : bool :=
  match o with
  | Some c => is_word c
  | None => false
  end.

Definition step (x : cursor) (c : ascii) (t : jsstring) : cursor :=
  Cursor (Some c) t (groups x).

Definition capture (n : nat) (from : jsstring) (y : cursor) : cursor :=
  Cursor (before y) (input y)
         ((n, firstn (length from - length (input y)) from) :: groups y).

Section Matcher.
Context {A : Type}.
Variable ignoreCase : bool.

(** Greedy [p*]: take a character when [p] allows and the rest then
    matches; give it back otherwise. *)
Fixpoint star (p : ascii -> bool) (k : cursor -> option A)
    (b : option ascii) (s : jsstring) (g : list (nat * jsstring))
  : option A :=
  match s with
  | c :: t =>
      if p c
      then match star p k (Some c) t g with
           | Some v => Some v
           | None => k (Cursor b s g)
           end
      else k (Cursor b s g)
  | [] => k (Cursor b [] g)
  end.

Fixpoint rmatch (r : regex) (k : cursor -> option A) (x : cursor)
  : option A :=
  match r with
  | Eps => k x
  | Chr c =>
      match input x with
      | a :: t => if char_matches ignoreCase c a then k (step x a t) else None
      | [] => None
      end
  | Cls p =>
      match input x with
      | a :: t => if p a then k (step x a t) else None
      | [] => None
      end
  | Seq r1 r2 => rmatch r1 (rmatch r2 k) x
  | Alt r1 r2 =>
      match rmatch r1 k x with
      | Some v => Some v
      | None => rmatch r2 k x
      end
  | Opt r1 =>
      match rmatch r1 k x with
      | Some v => Some v
      | None => k x
      end
  | Star p => star p k (before x) (input x) (groups x)
  | Plus p =>
      match input x with
      | a :: t => if p a then star p k (Some a) t (groups x) else None
      | [] => None
      end
  | Grp n r1 => rmatch r1 (fun y => k (capture n (input x) y)) x
  | WordB =>
      if xorb (is_word_at (before x)) (is_word_at (hd_error (input x)))
      then k x else None
  | Bol =>
      match before x with
      | None => k x
      | Some _ => None
      end
  | Eol =>
      match input x with
      | [] => k x
      | _ :: _ => None
      end
  end.

End Matcher.

(** [re.exec(s)] for a pattern without the [g] flag: the first position,
    from the left, where the pattern matches, and the groups of that match. *)
Fixpoint exec_from (ignoreCase : bool) (r : regex) (b : option ascii)
    (s : jsstring) : option (list (nat * jsstring)) :=
  match rmatch ignoreCase r (fun y => Some (groups y)) (Cursor b s []) with
  | Some g => Some g
  | None =>
      match s with
      | [] => None
      | c :: t => exec_from ignoreCase r (Some c) t
      end
  end.

Definition exec (ignoreCase : bool) (r : regex) (s : jsstring)
  : option (list (nat * jsstring)) :=
  exec_from ignoreCase r None s.

(** [re.test(s)] *)
Definition test (ignoreCase : bool) (r : regex) (s : jsstring) : bool :=
  match exec ignoreCase r s with
  | Some _ => true
  | None => false
  end.

(** [m[n]] of a match [m]; every group the program reads takes part in
    every match of its pattern. *)
Fixpoint group (n : nat) (g : list (nat * jsstring)) : jsstring :=
  match g with
  | [] => []
  | (m, v) :: g' => if Nat.eqb m n then v else group n g'
  end.

(** A run of literal characters. *)
Fixpoint chars (s : jsstring) : regex :=
  match s with
  | [] => Eps
  | [c] => Chr c
  | c :: t => Seq (Chr c) (chars t)
  end.

Definition word (s : string) : regex := chars (lit s).

End Regex.

(* ================================================================== *)
(** ** The program *)

Module App.
Import Js Regex.

Local Open Scope string_scope.
Local Open Scope list_scope.

(** [export type Product], which follows the component in [src/App.tsx]
    (lines 245 to 252).  The source restricts [category] to six labels and
    notes of [rating] that it lies between 1 and 5; here a category is any
    string and a rating any number, as at run time. *)
Record Product : Type := mkProduct {
  id : jsstring;
  name : jsstring;
  description : jsstring;
  category : jsstring;
  price : Q;
  rating : Q
}.

Inductive PriceIntent : Type := high | low.

(** [type Query]; an optional field that is [undefined] is [None]. *)
Record Query : Type := mkQuery {
  maxPrice : option Q;
  minPrice : option Q;
  minRating : option Q;
  keywords : list jsstring;
  priceIntent : option PriceIntent
}.

Definition STOPWORDS : list jsstring := map lit
  [ "the"; "a"; "an"; "with"; "and"; "for"; "under"; "below"; "less"; "than";
    "between"; "over"; "above"; "at"; "least"; "most"; "good"; "great";
    "high"; "reviews"; "review"; "stars"; "star"; "me"; "show"; "find"; "in";
    "on"; "of"; "to";
    "expensive"; "premium"; "highend"; "high-end"; "pricey"; "pricy";
    "top-tier"; "toptier";
    "cheap"; "budget"; "affordable"; "inexpensive"; "low-cost"; "lowcost";
    "low-end"; "lowend" ].

Definition CATEGORY_HINTS : list jsstring := map lit
  [ "shoes"; "electronics"; "apparel"; "accessories"; "watches"; "bags" ].

(** [STOPWORDS.has(w)], [query.keywords.includes(h)] *)
Definition has (l : list jsstring) (w : jsstring) : bool :=
  existsb (string_eqb w) l.

Declare Scope regex_scope.
Delimit Scope regex_scope with re.
Notation "r1 ;; r2" := (Seq r1 r2)
  (at level 61, right associativity) : regex_scope.
Notation "r1 || r2" := (Alt r1 r2) : regex_scope.
Local Open Scope regex_scope.

(** [\d+(?:\.\d+)?] *)
Definition re_number : regex := Plus is_digit ;; Opt (Chr "." ;; Plus is_digit).

(** [/between\s*\$?(\d+(?:\.\d+)?)\s*(?:and|-|to)\s*\$?(\d+(?:\.\d+)?)/i] *)
Definition re_between : regex :=
  word "between" ;; Star is_space ;; Opt (Chr "$") ;; Grp 1 re_number ;;
  Star is_space ;; (word "and" || Chr "-" || word "to") ;;
  Star is_space ;; Opt (Chr "$") ;; Grp 2 re_number.

(** [/(under|below|less\s+than|cheaper\s+than)\s*\$?(\d+(?:\.\d+)?)/i] *)
Definition re_under : regex :=
  Grp 1 (word "under" || word "below"
         || (word "less" ;; Plus is_space ;; word "than")
         || (word "cheaper" ;; Plus is_space ;; word "than")) ;;
  Star is_space ;; Opt (Chr "$") ;; Grp 2 re_number.

(** [/(over|above|more\s+than|at\s+least)\s*\$?(\d+(?:\.\d+)?)/i] *)
Definition re_over : regex :=
  Grp 1 (word "over" || word "above"
         || (word "more" ;; Plus is_space ;; word "than")
         || (word "at" ;; Plus is_space ;; word "least")) ;;
  Star is_space ;; Opt (Chr "$") ;; Grp 2 re_number.

(** [/(\d(?:\.\d)?)\s*stars?/i] *)
Definition re_starsNum : regex :=
  Grp 1 (Cls is_digit ;; Opt (Chr "." ;; Cls is_digit)) ;;
  Star is_space ;; word "star" ;; Opt (Chr "s").

(** [/\b(good|great|high)\s+reviews?\b/i] *)
Definition re_impliesGood : regex :=
  WordB ;; Grp 1 (word "good" || word "great" || word "high") ;;
  Plus is_space ;; word "review" ;; Opt (Chr "s") ;; WordB.

(** [[-\s]] *)
Definition hyphen_or_space (c : ascii) : bool :=
  ascii_eqb c "-"%char || is_space c.

(** [/\b(expensive|premium|high[-\s]?end|pricey|pricy|top[-\s]?tier)\b/i] *)
Definition re_wantsHigh : regex :=
  WordB ;;
  Grp 1 (word "expensive" || word "premium"
         || (word "high" ;; Opt (Cls hyphen_or_space) ;; word "end")
         || word "pricey" || word "pricy"
         || (word "top" ;; Opt (Cls hyphen_or_space) ;; word "tier")) ;;
  WordB.

(** [/\b(cheap|budget|affordable|inexpensive|low[-\s]?cost|low[-\s]?end)\b/i] *)
Definition re_wantsLow : regex :=
  WordB ;;
  Grp 1 (word "cheap" || word "budget" || word "affordable"
         || word "inexpensive"
         || (word "low" ;; Opt (Cls hyphen_or_space) ;; word "cost")
         || (word "low" ;; Opt (Cls hyphen_or_space) ;; word "end")) ;;
  WordB.

(** [/^\d+(\.\d+)?$/] *)
Definition re_pureNumber : regex :=
  Bol ;; Plus is_digit ;; Opt (Grp 1 (Chr "." ;; Plus is_digit)) ;; Eol.

Local Close Scope regex_scope.

(** The keyword pipeline of [parseQuery]. *)
Definition keywords_of (s : jsstring) : list jsstring :=
  filter (fun w => negb (string_eqb w []) && negb (has STOPWORDS w)
                   && negb (test false re_pureNumber w))
    (map remove_hyphens
       (split_spaces (replace_punctuation (toLowerCase s)))).

Definition parseQuery (q : jsstring) : Query :=
  let s := trim q in
  (* price ranges *)
  let between := exec true re_between s in
  let under := exec true re_under s in
  let over := exec true re_over s in
  (* rating *)
  let starsNum := exec true re_starsNum s in
  let impliesGood := test true re_impliesGood s in
  let minRating :=
    match starsNum with
    | Some m => Some (Number (group 1 m))
    | None => if impliesGood then Some 4%Q else None
    end in
  let '(minPrice, maxPrice) :=
    match between with
    | Some m =>
        let a := Number (group 1 m) in
        let b := Number (group 2 m) in
        (Some (Qmin a b), Some (Qmax a b))
    | None =>
        match under with
        | Some m => (None, Some (Number (group 2 m)))
        | None =>
            match over with
            | Some m => (Some (Number (group 2 m)), None)
            | None => (None, None)
            end
        end
    end in
  (* price intent *)
  let wantsHigh := test true re_wantsHigh s in
  let wantsLow := test true re_wantsLow s in
  let priceIntent :=
    if wantsHigh then Some high else if wantsLow then Some low else None in
  let keywords := keywords_of s in
  mkQuery maxPrice minPrice minRating keywords priceIntent.

(** [x > y] on numbers. *)
Definition Qgt_bool (x y : Q) : bool := negb (Qle_bool x y).

Definition scoreProduct (p : Product) (query : Query) (nprice : Q) : Q :=
  let s := 0%Q in
  let hay :=
    toLowerCase (name p ++ lit " " ++ description p ++ lit " " ++ category p) in
  (* keyword matches *)
  let s :=
    fold_left (fun s k => if includes hay k then s + 2.5 else s)%Q
              (keywords query) s in
  (* category hint boost *)
  let catLower := toLowerCase (category p) in
  let s :=
    if existsb (fun h => has (keywords query) h && string_eqb h catLower)
               CATEGORY_HINTS
    then (s + 2.5)%Q else s in
  (* constraints *)
  let s :=
    match maxPrice query with
    | Some m => if Qle_bool (price p) m then (s + 2)%Q else s
    | None => s
    end in
  let s :=
    match minPrice query with
    | Some m => if Qle_bool m (price p) then (s + 1.5)%Q else s
    | None => s
    end in
  let s :=
    match minRating query with
    | Some m => if Qle_bool m (rating p) then (s + 2)%Q else s
    | None => s
    end in
  (* price intent boosts *)
  let s :=
    match priceIntent query with
    | Some high => (s + nprice * 3)%Q
    | _ => s
    end in
  let s :=
    match priceIntent query with
    | Some low => (s + (1 - nprice) * 3)%Q
    | _ => s
    end in
  (* gentle biases *)
  let s := (s + rating p * 0.2)%Q in
  let s := (s - price p * 0.01)%Q in
  s.

(** The objects [{ p, s, nprice }] that [applyAIQuery] sorts. *)
Record Scored : Type := mkScored {
  sc_p : Product;
  sc_s : Q;
  sc_nprice : Q
}.

Definition intent_is (i : PriceIntent) (parsed : Query) : bool :=
  match priceIntent parsed, i with
  | Some high, high | Some low, low => true
  | _, _ => false
  end.

(** The comparator handed to [sort]: negative when [a] goes first. *)
Definition compareScored (parsed : Query) (a b : Scored) : Q :=
  if negb (Qeq_bool (sc_s b) (sc_s a)) then sc_s b - sc_s a
  else if intent_is high parsed
          && negb (Qeq_bool (sc_nprice b) (sc_nprice a))
       then sc_nprice b - sc_nprice a
  else if intent_is low parsed
          && negb (Qeq_bool (sc_nprice b) (sc_nprice a))
       then sc_nprice a - sc_nprice b
  else if negb (Qeq_bool (rating (sc_p b)) (rating (sc_p a)))
       then rating (sc_p b) - rating (sc_p a)
  else price (sc_p a) - price (sc_p b).

Section Sort.
Context {A : Type}.
Variable cmp : A -> A -> Q.

(** [x] stood before every element of [l]: it stays before [y] unless the
    comparator puts [y] strictly first. *)
Fixpoint insert (x : A) (l : list A) : list A :=
  match l with
  | [] => [x]
  | y :: l' => if Qgt_bool (cmp x y) 0 then y :: insert x l' else x :: l
  end.

(** [arr.sort(cmp)] *)
Definition sort (l : list A) : list A := fold_right insert [] l.

End Sort.

(** [Math.min(...prices)] and [Math.max(...prices)] of the prices [x :: xs]. *)
Definition Math_min (x : Q) (xs : list Q) : Q := fold_left Qmin xs x.
Definition Math_max (x : Q) (xs : list Q) : Q := fold_left Qmax xs x.

(** What [applyAIQuery] computes for each item before it filters. *)
Definition scoreAll (all : list Product) (parsed : Query) (min span : Q)
  : list Scored :=
  map (fun p =>
         let nprice := ((price p - min) / span)%Q in
         let s := scoreProduct p parsed nprice in
         mkScored p s nprice) all.

(** The ranking engine: [applyAIQuery] once the query is parsed. *)
Definition rank (all : list Product) (parsed : Query) : list Product :=
  match all with
  | [] => all
  | p0 :: rest =>
      (* normalize price per current candidate set *)
      let min := Math_min (price p0) (map price rest) in
      let max := Math_max (price p0) (map price rest) in
      let span := Qmax 1 (max - min) in
      let scored :=
        map sc_p
          (sort (compareScored parsed)
             (filter (fun x => Qgt_bool (sc_s x) 0.5)
                (scoreAll all parsed min span))) in
      match scored with
      | [] => all (* fallback if nothing passes threshold *)
      | _ :: _ => scored
      end
  end.

Definition applyAIQuery (all : list Product) (q : jsstring) : list Product :=
  match all with
  | [] => all
  | _ :: _ => let parsed := parseQuery q in rank all parsed
  end.

End App.

(* ================================================================== *)
(** ** The vocabulary of the specification *)

Module Spec.
Import Js Regex App.

(** The quantities [applyAIQuery] binds for the non-empty list
    [p0 :: rest], by the names the specification gives them. *)
Definition minOf (p0 : Product) (rest : list Product) : Q :=
  Math_min (price p0) (map price rest).

Definition maxOf (p0 : Product) (rest : list Product) : Q :=
  Math_max (price p0) (map price rest).

Definition spanOf (p0 : Product) (rest : list Product) : Q :=
  Qmax 1 (maxOf p0 rest - minOf p0 rest).

Definition npriceOf (p0 : Product) (rest : list Product) (p : Product) : Q :=
  (price p - minOf p0 rest) / spanOf p0 rest.

(** The score of [p] as a member of the list [p0 :: rest]. *)
Definition scoreOf (p0 : Product) (rest : list Product) (parsed : Query)
    (p : Product) : Q :=
  scoreProduct p parsed (npriceOf p0 rest p).

(** The scored candidates of [p0 :: rest] that pass the threshold, before
    they are sorted. *)
Definition survivors (p0 : Product) (rest : list Product) (parsed : Query)
  : list Scored :=
  filter (fun x => Qgt_bool (sc_s x) 0.5)
    (scoreAll (p0 :: rest) parsed (minOf p0 rest) (spanOf p0 rest)).


Definition withoutMaxPrice (c : Query) : Query :=
  mkQuery None (minPrice c) (minRating c) (keywords c) (priceIntent c).

(** A decimal numeral, [\d+] or [\d+\.\d+]. *)
Definition all_digits (w : jsstring) : bool :=
  match w with
  | [] => false
  | _ :: _ => forallb is_digit w
  end.

Inductive Decimal : jsstring -> Prop :=
| Decimal_int (i : jsstring) :
    all_digits i = true -> Decimal i
| Decimal_frac (i f : jsstring) :
    all_digits i = true -> all_digits f = true ->
    Decimal (i ++ "."%char :: f).

(** A rating as [re_starsNum] reads it: one digit, or one digit, a point
    and one digit. *)
Inductive StarNumber : jsstring -> Prop :=
| StarNumber_int (d : ascii) :
    is_digit d = true -> StarNumber [d]
| StarNumber_frac (d e : ascii) :
    is_digit d = true -> is_digit e = true ->
    StarNumber [d; "."%char; e].

(** The character before the matcher once it has read [w]. *)
Definition prev_after (b : option ascii) (w : jsstring) : option ascii :=
  fold_left (fun _ c => Some c) w b.

(** [s] does not go on with a character of the class [p]. *)
Definition stops (p : ascii -> bool) (s : jsstring) : Prop :=
  match s with
  | [] => True
  | c :: _ => p c = false
  end.

(** [s] goes on with neither a digit nor a point, so a numeral read before
    it ends where [s] starts. *)
Definition number_stops (s : jsstring) : Prop :=
  match s with
  | [] => True
  | c :: _ => is_digit c = false /\ ascii_eqb "."%char c = false
  end.

(** Sample items. *)
Definition item (i n d c : string) (pr ra : Q) : Product :=
  mkProduct (lit i) (lit n) (lit d) (lit c) pr ra.

Definition runner : Product :=
  item "p1" "Trail Runner" "Light running shoes" "Shoes" 69 4.1.
Definition headphones : Product :=
  item "p2" "Noise Headphones" "Wireless over-ear" "Electronics" 129.99 4.6.
Definition tote : Product :=
  item "p3" "City Tote" "Leather bag" "Bags" 50 4.4.
Definition speaker : Product :=
  item "p4" "Desk Speaker" "Compact" "Electronics" 100 4.5.

Definition plain_mug : Product :=
  item "p6" "Plain Mug" "Stoneware" "Accessories" 50 2.5.
Definition fine_mug : Product :=
  item "p7" "Fine Mug" "Porcelain" "Accessories" 100 5.

Definition no_constraints : Query := mkQuery None None None [] None.

Definition shoes_query : Query := mkQuery None None None [lit "shoes"] None.

End Spec.

(* ================================================================== *)
(** ** The catalog *)

Module Data.
Import Js App.
Local Open Scope string_scope.

(** [export const products]: the catalog, as it follows the component
    in [src/App.tsx]. *)
Definition products : list Product :=
  [ mkProduct (lit "p1") (lit "Trail Runner 2")
      (lit "Lightweight trail running shoes with breathable mesh and strong traction.")
      (lit "Shoes") 89.99 4.5;
    mkProduct (lit "p2") (lit "Urban Jogger")
      (lit "Comfort-focused everyday running shoes for pavement and treadmill.")
      (lit "Shoes") 69.0 4.1;
    mkProduct (lit "p3") (lit "Aero Wireless Headphones")
      (lit "Over-ear Bluetooth headphones with ANC and 30-hour battery life.")
      (lit "Electronics") 129.99 4.3;
    mkProduct (lit "p4") (lit "Nimbus Earbuds Pro")
      (lit "True wireless earbuds with IPX5 water resistance and clear calls.")
      (lit "Electronics") 99.99 4.0;
    mkProduct (lit "p5") (lit "All-Weather Jacket")
      (lit "Water-resistant shell with breathable lining for daily commuting.")
      (lit "Apparel") 119.0 4.6;
    mkProduct (lit "p6") (lit "Merino Tee")
      (lit "Soft merino wool T-shirt, odor-resistant and temperature-regulating.")
      (lit "Apparel") 39.0 4.2;
    mkProduct (lit "p7") (lit "Daypack 20L")
      (lit "Minimal everyday backpack with padded laptop sleeve and side pockets.")
      (lit "Bags") 59.0 4.4;
    mkProduct (lit "p8") (lit "Summit Hiker Pack 30L")
      (lit "Trail-ready backpack with ventilated back panel and hydration port.")
      (lit "Bags") 89.0 4.1;
    mkProduct (lit "p9") (lit "Steel Chrono Watch")
      (lit "Stainless steel chronograph with sapphire glass and 5ATM rating.")
      (lit "Watches") 149.0 4.3;
    mkProduct (lit "p10") (lit "Canvas Belt")
      (lit "Durable canvas belt with low-profile buckle for daily wear.")
      (lit "Accessories") 19.0 4.0 ].

End Data.

(* ================================================================== *)
(** ** The component [App] *)

Module Ui.
Import Js App.

(** [new Set(l)] read back with [Array.from]: the elements of [l] in the
    order they first occur. *)
Definition Set_add (acc : list jsstring) (c : jsstring) : list jsstring :=
  if has acc c then acc else acc ++ [c].

Definition Array_from_Set (l : list jsstring) : list jsstring :=
  fold_left Set_add l [].

Section Component.

(** The binding [products] the component imports. *)
Variable products : list Product.

(** The state of the component: the category chosen ([""] for all), the
    two numeric fields ([""], here [None], when empty) and the query. *)
Variable category : jsstring.
Variable maxPrice : option Q.
Variable minRating : option Q.
Variable nlpQuery : jsstring.

Definition categories : list jsstring :=
  Array_from_Set (map App.category products).

(** The callback of [products.filter] in [baseFiltered]. *)
Definition keeps (p : Product) : bool :=
  if negb (string_eqb category [])
     && negb (string_eqb (App.category p) category) then false
  else if match maxPrice with
          | Some m => Qgt_bool (price p) m
          | None => false
          end then false
  else if match minRating with
          | Some m => Qgt_bool m (rating p)
          | None => false
          end then false
  else true.

Definition baseFiltered : list Product := filter keeps products.

Definition finalList : list Product :=
  if Nat.eqb (length (trim nlpQuery)) 0 then baseFiltered
  else applyAIQuery baseFiltered nlpQuery.

End Component.

(** The string of [renderStars] is a list of UTF-16 code units, since the
    star is not a Latin-1 character. *)
Definition ustring : Type := list N.

(** U+2605, the black star, and U+00BD, one half. *)
Definition STAR : N := 9733.
Definition HALF : N := 189.

(** [s.slice(start, end)]: a negative index counts from the end, and both
    are clamped to the string. *)
Definition slice_index (len i : Z) : Z :=
  if (i <? 0)%Z then Z.max (len + i) 0 else Z.min i len.

Definition slice (s : ustring) (start : Z) (end_ : Z) : ustring :=
  let len := Z.of_nat (length s) in
  let from := slice_index len start in
  let to := slice_index len end_ in
  let span := Z.max (to - from) 0 in
  firstn (Z.to_nat span) (skipn (Z.to_nat from) s).

(** The text of the [span] that [renderStars] returns. *)
Definition renderStars (rating : Q) : ustring :=
  let full := Qfloor rating in
  let half := Qle_bool 0.5 (rating - inject_Z full) in
  let stars := slice (repeat STAR 5) 0 full ++ (if half then [HALF] else []) in
  stars.

(** What a string of stars shows: one for a star, one half for the half
    sign. *)
Definition shown (s : ustring) : Q :=
  fold_right (fun c acc => (if (c =? STAR)%N then 1
                            else if (c =? HALF)%N then 0.5 else 0) + acc)
             0 s.

End Ui.

(* ================================================================== *)
(** ** What a match is *)

Module Semantics.
Import Js Regex Spec.

(** [Matches ic r x y]: the pattern [r] can take the matcher from the
    cursor [x] to the cursor [y].  The relation says which matches exist;
    [rmatch] says which of them backtracking finds first. *)
Inductive Matches (ic : bool) : regex -> cursor -> cursor -> Prop :=
| M_Eps x :
    Matches ic Eps x x
| M_Chr c x a t :
    input x = a :: t -> char_matches ic c a = true ->
    Matches ic (Chr c) x (step x a t)
| M_Cls p x a t :
    input x = a :: t -> p a = true ->
    Matches ic (Cls p) x (step x a t)
| M_Seq r1 r2 x y z :
    Matches ic r1 x y -> Matches ic r2 y z ->
    Matches ic (Seq r1 r2) x z
| M_Alt_left r1 r2 x y :
    Matches ic r1 x y -> Matches ic (Alt r1 r2) x y
| M_Alt_right r1 r2 x y :
    Matches ic r2 x y -> Matches ic (Alt r1 r2) x y
| M_Opt_take r x y :
    Matches ic r x y -> Matches ic (Opt r) x y
| M_Opt_skip r x :
    Matches ic (Opt r) x x
| M_Star p x w s :
    input x = w ++ s -> forallb p w = true ->
    Matches ic (Star p) x (Cursor (prev_after (before x) w) s (groups x))
| M_Plus p x w s :
    input x = w ++ s -> w <> [] -> forallb p w = true ->
    Matches ic (Plus p) x (Cursor (prev_after (before x) w) s (groups x))
| M_Grp n r x y :
    Matches ic r x y ->
    Matches ic (Grp n r) x (capture n (input x) y)
| M_WordB x :
    xorb (is_word_at (before x)) (is_word_at (hd_error (input x))) = true ->
    Matches ic WordB x x
| M_Bol x :
    before x = None -> Matches ic Bol x x
| M_Eol x :
    input x = [] -> Matches ic Eol x x.

(** A pattern that captures nothing. *)
Fixpoint no_group (r : regex) : bool :=
  match r with
  | Seq r1 r2 | Alt r1 r2 => no_group r1 && no_group r2
  | Opt r1 => no_group r1
  | Grp _ _ => false
  | _ => true
  end.

(** A cursor over the lower-cased string. *)
Definition lower_groups (g : list (nat * jsstring)) : list (nat * jsstring) :=
  map (fun nv => (fst nv, toLowerCase (snd nv))) g.

Definition lower_cursor (x : cursor) : cursor :=
  Cursor (option_map lower_char (before x)) (toLowerCase (input x))
         (lower_groups (groups x)).

(** A pattern that cannot tell a letter from its lower case: its literal
    characters are ASCII and its classes hold a character exactly when
    they hold its lower case. *)
Fixpoint case_blind (r : regex) : Prop :=
  match r with
  | Chr c => (code c < 128)%N
  | Cls p | Star p | Plus p => forall c, p (lower_char c) = p c
  | Seq r1 r2 | Alt r1 r2 => case_blind r1 /\ case_blind r2
  | Opt r1 | Grp _ r1 => case_blind r1
  | Eps | WordB | Bol | Eol => True
  end.

(** A pattern without [\b], [^] and [$]: what it matches does not depend
    on what stands before the match or after it. *)
Fixpoint anchor_free (r : regex) : bool :=
  match r with
  | Seq r1 r2 | Alt r1 r2 => anchor_free r1 && anchor_free r2
  | Opt r1 | Grp _ r1 => anchor_free r1
  | WordB | Bol | Eol => false
  | _ => true
  end.

(** A match of [r] starts inside [pre], in the string [pre ++ rest]. *)
Definition starts_inside (r : regex) (pre rest : jsstring) : Prop :=
  exists u c v y,
    pre = u ++ c :: v /\
    Matches true r (Cursor (prev_after None u) (c :: v ++ rest) []) y.

(** The same, decided with the matcher. *)
Fixpoint found_inside (r : regex) (b : option ascii) (pre rest : jsstring)
  : bool :=
  match pre with
  | [] => false
  | c :: v =>
      match rmatch true r (fun _ => Some tt) (Cursor b (c :: v ++ rest) []) with
      | Some _ => true
      | None => found_inside r (Some c) v rest
      end
  end.

End Semantics.

(* ================================================================== *)
(** ** The parts of a score *)

Module Scoring.
Import Js App.
Local Open Scope string_scope.

(** The text of an item that [scoreProduct] searches. *)
Definition hay_of (p : Product) : jsstring :=
  toLowerCase
    (name p ++ lit " " ++ description p ++ lit " " ++ category p)%list.

(** The two biases [scoreProduct] always applies. *)
Definition bias (p : Product) : Q := rating p * 0.2 - price p * 0.01.

(** A constraint set with keywords only. *)
Definition keywords_only (c : Query) : Prop :=
  maxPrice c = None /\ minPrice c = None /\ minRating c = None /\
  priceIntent c = None.

(** The accumulator [s] of [scoreProduct] after the keyword loop (line 72),
    after the category hint (lines 75 to 78) and after the price ceiling
    (line 81). *)
Definition after_keywords (p : Product) (query : Query) : Q :=
  fold_left (fun s k => if includes (hay_of p) k then s + 2.5 else s)%Q
            (keywords query) 0%Q.

Definition after_hint (p : Product) (query : Query) : Q :=
  let s := after_keywords p query in
  if existsb (fun h => has (keywords query) h
                       && string_eqb h (toLowerCase (category p)))
             CATEGORY_HINTS
  then (s + 2.5)%Q else s.

Definition after_maxPrice (p : Product) (query : Query) : Q :=
  let s := after_hint p query in
  match maxPrice query with
  | Some m => if Qle_bool (price p) m then (s + 2)%Q else s
  | None => s
  end.

(** The rest of [scoreProduct], lines 82 to 93, from the accumulator [s]. *)
Definition score_from_maxPrice (p : Product) (query : Query) (nprice : Q)
    (s : Q) : Q :=
  let s :=
    match minPrice query with
    | Some m => if Qle_bool m (price p) then (s + 1.5)%Q else s
    | None => s
    end in
  let s :=
    match minRating query with
    | Some m => if Qle_bool m (rating p) then (s + 2)%Q else s
    | None => s
    end in
  let s :=
    match priceIntent query with
    | Some high => (s + nprice * 3)%Q
    | _ => s
    end in
  let s :=
    match priceIntent query with
    | Some low => (s + (1 - nprice) * 3)%Q
    | _ => s
    end in
  let s := (s + rating p * 0.2)%Q in
  let s := (s - price p * 0.01)%Q in
  s.

End Scoring.

(* ================================================================== *)
(** ** The order of the result *)

Module Order.
Import Js App Spec.

(** Higher rating first, then lower price: the last two tie-breaks of the
    comparator. *)
Definition by_quality (a b : Product) : Prop :=
  rating b < rating a \/ (rating b == rating a /\ price a <= price b).

(** [a] may stand before [b] in the result for the list [p0 :: rest]:
    higher score first; on equal scores the price intent decides by the
    normalized price, then the rating, then the price. *)
Definition ranked_before (p0 : Product) (rest : list Product)
    (parsed : Query) (a b : Product) : Prop :=
  let s := scoreOf p0 rest parsed in
  let n := npriceOf p0 rest in
  s b < s a \/
  (s b == s a /\
   match priceIntent parsed with
   | Some high => n b < n a \/ (n b == n a /\ by_quality a b)
   | Some low => n a < n b \/ (n a == n b /\ by_quality a b)
   | None => by_quality a b
   end).

(** The same on scored candidates. *)
Definition scored_before (parsed : Query) (a b : Scored) : Prop :=
  sc_s b < sc_s a \/
  (sc_s b == sc_s a /\
   match priceIntent parsed with
   | Some high =>
       sc_nprice b < sc_nprice a \/
       (sc_nprice b == sc_nprice a /\ by_quality (sc_p a) (sc_p b))
   | Some low =>
       sc_nprice a < sc_nprice b \/
       (sc_nprice a == sc_nprice b /\ by_quality (sc_p a) (sc_p b))
   | None => by_quality (sc_p a) (sc_p b)
   end).

(** The scored candidate of an item. *)
Definition scored (p0 : Product) (rest : list Product) (parsed : Query)
    (p : Product) : Scored :=
  mkScored p (scoreOf p0 rest parsed p) (npriceOf p0 rest p).

(** [p] ties with [z]: same score, same rating, same price. *)
Definition tied (p0 : Product) (rest : list Product) (parsed : Query)
    (z p : Product) : bool :=
  Qeq_bool (scoreOf p0 rest parsed p) (scoreOf p0 rest parsed z)
  && Qeq_bool (rating p) (rating z) && Qeq_bool (price p) (price z).

Definition scored_tied (z x : Scored) : bool :=
  Qeq_bool (sc_s x) (sc_s z) && Qeq_bool (sc_nprice x) (sc_nprice z)
  && Qeq_bool (rating (sc_p x)) (rating (sc_p z))
  && Qeq_bool (price (sc_p x)) (price (sc_p z)).

End Order.

(* ================================================================== *)
(** ** Queries made of plain words *)

Module Words.
Import Js App.

(** A plain word: letters a-z and digits, at least one. *)
Definition plain_char (c : ascii) : bool := is_lower c || is_digit c.

Definition plain_word (w : jsstring) : bool :=
  negb (string_eqb w []) && forallb plain_char w.

(** The words of [ws] with one space between them. *)
Fixpoint join_spaces (ws : list jsstring) : jsstring :=
  match ws with
  | [] => []
  | [w] => w
  | w :: ws' => w ++ " "%char :: join_spaces ws'
  end.

(** The characters of the joined words: plain, or the space. *)
Definition joined_char (c : ascii) : Prop :=
  plain_char c = true \/ c = " "%char.

(** What [parseQuery] keeps of plain words. *)
Definition is_keyword (w : jsstring) : bool :=
  negb (has STOPWORDS w) && negb (Spec.all_digits w).

End Words.

(* ================================================================== *)
(** ** The program on a store *)

(** [parseQuery], [scoreProduct] and [applyAIQuery] once more, this time
    with the objects they share with the rest of the program in a store:
    the arrays [applyAIQuery] handles, by address, and the two tables of
    the module.  The array methods are the ones of ECMAScript: [map] and
    [filter] make a new array, [sort] sorts its array in place and returns
    it, [length] and the spread of [Math.min(...prices)] read.

    What the store leaves out is never written.  Items and scored
    candidates are values, since the program assigns to no property of an
    object.  The arrays [parseQuery] makes of the words of the query are
    local to it and go through [split], [map] and [filter] only.  A
    pattern is an object of its own at each evaluation of its literal;
    [exec] and [test] are called on patterns without the [g] and [y] flags
    only, where they neither read nor write [lastIndex], and the two
    patterns with [g] are arguments of [replace]. *)
Module Store.
Import Js Regex App.

Inductive array : Type :=
| Items (l : list Product)
| Numbers (l : list Q)
| Candidates (l : list Scored).

Record store : Type := mkStore {
  arrays : list array;        (* the array at address [n] is the [n]-th *)
  stopwords : list jsstring;  (* the set [STOPWORDS] *)
  hints : list jsstring       (* the array [CATEGORY_HINTS] *)
}.

Definition ref : Type := nat.

(** A computation reads and writes the store, and may throw. *)
Definition M (A : Type) : Type := store -> option (A * store).

Definition ret {A : Type} (a : A) : M A := fun s => Some (a, s).

Definition bind {A B : Type} (m : M A) (f : A -> M B) : M B :=
  fun s =>
    match m s with
    | Some (a, s') => f a s'
    | None => None
    end.

Definition throw {A : Type} : M A := fun _ => None.

Notation "'let*' x ':=' m 'in' f" := (bind m (fun x => f))
  (at level 10, x name, m at level 100, f at level 200).

(** A new array takes the next address. *)
Definition alloc (a : array) : M ref :=
  fun s =>
    Some (length (arrays s),
          mkStore (arrays s ++ [a]) (stopwords s) (hints s)).

Definition load (r : ref) : M array :=
  fun s =>
    match nth_error (arrays s) r with
    | Some a => Some (a, s)
    | None => None
    end.

Fixpoint update {A : Type} (n : nat) (a : A) (l : list A) : list A :=
  match l, n with
  | [], _ => []
  | _ :: t, O => a :: t
  | x :: t, S n' => x :: update n' a t
  end.

Definition write (r : ref) (a : array) : M unit :=
  fun s =>
    if Nat.ltb r (length (arrays s))
    then Some (tt, mkStore (update r a (arrays s)) (stopwords s) (hints s))
    else None.

Definition the_stopwords : M (list jsstring) := fun s => Some (stopwords s, s).
Definition the_hints : M (list jsstring) := fun s => Some (hints s, s).

Definition items (r : ref) : M (list Product) :=
  let* a := load r in
  match a with Items l => ret l | _ => throw end.

Definition numbers (r : ref) : M (list Q) :=
  let* a := load r in
  match a with Numbers l => ret l | _ => throw end.

Definition candidates (r : ref) : M (list Scored) :=
  let* a := load r in
  match a with Candidates l => ret l | _ => throw end.

(** [arr.length] *)
Definition length_of (r : ref) : M nat :=
  let* a := load r in
  ret match a with
      | Items l => length l
      | Numbers l => length l
      | Candidates l => length l
      end.

(** [all.map(p => p.price)] *)
Definition map_prices (r : ref) : M ref :=
  let* l := items r in alloc (Numbers (map price l)).

(** [Math.min(...prices)] and [Math.max(...prices)]; of no number they are
    the infinities, which the model does not have. *)
Definition Math_min_of (r : ref) : M Q :=
  let* l := numbers r in
  match l with x :: xs => ret (Math_min x xs) | [] => throw end.

Definition Math_max_of (r : ref) : M Q :=
  let* l := numbers r in
  match l with x :: xs => ret (Math_max x xs) | [] => throw end.

(** The calls of a callback, one element after the other. *)
Fixpoint for_each {A B : Type} (f : A -> M B) (l : list A) : M (list B) :=
  match l with
  | [] => ret []
  | x :: t =>
      let* y := f x in
      let* ys := for_each f t in
      ret (y :: ys)
  end.

(** [all.map(p => { ... })] *)
Definition map_candidates (f : Product -> M Scored) (r : ref) : M ref :=
  let* l := items r in
  let* l' := for_each f l in
  alloc (Candidates l').

(** [arr.filter(f)] *)
Definition filter_candidates (f : Scored -> bool) (r : ref) : M ref :=
  let* l := candidates r in alloc (Candidates (filter f l)).

(** [arr.sort(cmp)]: in place. *)
Definition sort_in_place (cmp : Scored -> Scored -> Q) (r : ref) : M ref :=
  let* l := candidates r in
  let* _ := write r (Candidates (sort cmp l)) in
  ret r.

(** [arr.map(x => x.p)] *)
Definition map_items (f : Scored -> Product) (r : ref) : M ref :=
  let* l := candidates r in alloc (Items (map f l)).

Definition parseQuery (q : jsstring) : M Query :=
  let s := trim q in
  let between := exec true re_between s in
  let under := exec true re_under s in
  let over := exec true re_over s in
  let starsNum := exec true re_starsNum s in
  let impliesGood := test true re_impliesGood s in
  let minRating :=
    match starsNum with
    | Some m => Some (Number (group 1 m))
    | None => if impliesGood then Some 4%Q else None
    end in
  let '(minPrice, maxPrice) :=
    match between with
    | Some m =>
        let a := Number (group 1 m) in
        let b := Number (group 2 m) in
        (Some (Qmin a b), Some (Qmax a b))
    | None =>
        match under with
        | Some m => (None, Some (Number (group 2 m)))
        | None =>
            match over with
            | Some m => (Some (Number (group 2 m)), None)
            | None => (None, None)
            end
        end
    end in
  let wantsHigh := test true re_wantsHigh s in
  let wantsLow := test true re_wantsLow s in
  let priceIntent :=
    if wantsHigh then Some high else if wantsLow then Some low else None in
  let* table := the_stopwords in
  let keywords :=
    filter (fun w => negb (string_eqb w []) && negb (has table w)
                     && negb (test false re_pureNumber w))
      (map remove_hyphens
         (split_spaces (replace_punctuation (toLowerCase s)))) in
  ret (mkQuery maxPrice minPrice minRating keywords priceIntent).

Definition scoreProduct (p : Product) (query : Query) (nprice : Q) : M Q :=
  let s := 0%Q in
  let hay :=
    toLowerCase (name p ++ lit " " ++ description p ++ lit " " ++ category p) in
  let s :=
    fold_left (fun s k => if includes hay k then s + 2.5 else s)%Q
              (keywords query) s in
  let catLower := toLowerCase (category p) in
  let* table := the_hints in
  let s :=
    if existsb (fun h => has (keywords query) h && string_eqb h catLower) table
    then (s + 2.5)%Q else s in
  let s :=
    match maxPrice query with
    | Some m => if Qle_bool (price p) m then (s + 2)%Q else s
    | None => s
    end in
  let s :=
    match minPrice query with
    | Some m => if Qle_bool m (price p) then (s + 1.5)%Q else s
    | None => s
    end in
  let s :=
    match minRating query with
    | Some m => if Qle_bool m (rating p) then (s + 2)%Q else s
    | None => s
    end in
  let s :=
    match priceIntent query with
    | Some high => (s + nprice * 3)%Q
    | _ => s
    end in
  let s :=
    match priceIntent query with
    | Some low => (s + (1 - nprice) * 3)%Q
    | _ => s
    end in
  let s := (s + rating p * 0.2)%Q in
  let s := (s - price p * 0.01)%Q in
  ret s.

Definition applyAIQuery (all : ref) (q : jsstring) : M ref :=
  let* n := length_of all in
  if Nat.eqb n 0 then ret all else
  let* parsed := parseQuery q in
  let* prices := map_prices all in
  let* min := Math_min_of prices in
  let* max := Math_max_of prices in
  let span := Qmax 1 (max - min) in
  let* mapped :=
    map_candidates
      (fun p =>
         let nprice := ((price p - min) / span)%Q in
         let* s := scoreProduct p parsed nprice in
         ret (mkScored p s nprice)) all in
  let* kept := filter_candidates (fun x => Qgt_bool (sc_s x) 0.5) mapped in
  let* sorted := sort_in_place (compareScored parsed) kept in
  let* scored := map_items sc_p sorted in
  let* m := length_of scored in
  if Nat.eqb m 0 then ret all else ret scored.

(** The items of the array at [r], when it is an array of items. *)
Definition items_at (s : store) (r : ref) : option (list Product) :=
  match nth_error (arrays s) r with
  | Some (Items l) => Some l
  | _ => None
  end.

(** The tables hold what the module puts there. *)
Definition intact (s : store) : Prop :=
  stopwords s = STOPWORDS /\ hints s = CATEGORY_HINTS.

(** Every object of [s] is in [s'], unchanged. *)
Definition preserved (s s' : store) : Prop :=
  stopwords s' = stopwords s /\ hints s' = hints s /\
  forall r a, nth_error (arrays s) r = Some a ->
              nth_error (arrays s') r = Some a.

(** The store a computation leaves. *)
Definition after {A : Type} (m : M A) (s : store) : store :=
  match m s with
  | Some (_, s') => s'
  | None => s
  end.

End Store.

(* ================================================================== *)
(** ** More sample data *)

Module Samples.
Import Js App Spec.
Local Open Scope string_scope.

(** The item [p7] of the catalog. *)
Definition daypack : Product :=
  mkProduct (lit "p7") (lit "Daypack 20L")
    (lit "Minimal everyday backpack with padded laptop sleeve and side pockets.")
    (lit "Bags") 59.0 4.4.

(** The item [p10] of the catalog. *)
Definition belt : Product :=
  mkProduct (lit "p10") (lit "Canvas Belt")
    (lit "Durable canvas belt with low-profile buckle for daily wear.")
    (lit "Accessories") 19.0 4.0.

(** What "zzz" parses to. *)
Definition zzz_query : Query := mkQuery None None None [lit "zzz"] None.

(** Two items with the same price and rating, and a query that matches
    both. *)
Definition mug_one : Product :=
  item "m1" "Mug" "Stoneware" "Accessories" 50 2.5.
Definition mug_two : Product :=
  item "m2" "Mug" "Porcelain" "Accessories" 50 2.5.

Definition mug_query : Query := mkQuery None None None [lit "mug"] None.

(** A pricier twin of [mug_one], and a query that favors the cheap. *)
Definition mug_dear : Product :=
  item "m3" "Mug" "Stoneware" "Accessories" 80 2.5.

Definition thrifty_mug_query : Query :=
  mkQuery None None None [lit "mug"] (Some low).

(** The items [p1] and [p2] of the catalog. *)
Definition trail_runner : Product :=
  mkProduct (lit "p1") (lit "Trail Runner 2")
    (lit "Lightweight trail running shoes with breathable mesh and strong traction.")
    (lit "Shoes") 89.99 4.5.

Definition urban_jogger : Product :=
  mkProduct (lit "p2") (lit "Urban Jogger")
    (lit "Comfort-focused everyday running shoes for pavement and treadmill.")
    (lit "Shoes") 69.0 4.1.

(** A store with the catalog at address 0 and the tables as the module
    sets them up, and the store one call of [applyAIQuery] leaves. *)
Definition shop : Store.store :=
  Store.mkStore [Store.Items Data.products] STOPWORDS CATEGORY_HINTS.

Definition shop_later : Store.store :=
  Store.after (Store.applyAIQuery 0%nat (lit "running shoes")) shop.

(** [mug_one] with its texts in upper case. *)
Definition mug_loud : Product :=
  item "m1" "MUG" "STONEWARE" "ACCESSORIES" 50 2.5.

(** The words that start a price ceiling and a price floor. *)
Definition under_triggers : list jsstring :=
  map lit ["under"; "below"; "less than"; "cheaper than"].

Definition over_triggers : list jsstring :=
  map lit ["over"; "above"; "more than"; "at least"].

(** A character of a numeral. *)
Definition number_char (c : ascii) : bool :=
  is_digit c || ascii_eqb c "."%char.

End Samples.

Import Js Regex App Spec Semantics Scoring Order Words.

(* ================================================================== *)
(** ** The scenarios of the specification, evaluated *)

Example parse_empty_query : parseQuery (lit "") = no_constraints.
Proof. vm_compute. reflexivity. Qed.

Example parse_stars :
  parseQuery (lit "4.5 stars") = mkQuery None None (Some 4.5) [] None.
Proof. vm_compute. reflexivity. Qed.

Example parse_implied_rating :
  minRating (parseQuery (lit "shoes with good reviews")) = Some 4 /\
  keywords (parseQuery (lit "shoes with good reviews")) = [lit "shoes"].
Proof. vm_compute. split; reflexivity. Qed.

Example parse_price_intent :
  priceIntent (parseQuery (lit "Cheap, high-end shoes")) = Some high /\
  priceIntent (parseQuery (lit "low cost bags")) = Some low /\
  keywords (parseQuery (lit "Cheap, high-end shoes")) = [lit "shoes"].
Proof. vm_compute. repeat split; reflexivity. Qed.

Example parse_bare_number :
  parseQuery (lit "shoes 50") = shoes_query.
Proof. vm_compute. reflexivity. Qed.

(** The floor of "4.5 stars" is inclusive: the item rated 4.5 earns the
    bonus, the item rated 4.4 does not. *)
Example stars_bonus :
  scoreProduct speaker (parseQuery (lit "4.5 stars")) 0
  == scoreProduct speaker no_constraints 0 + 2 /\
  scoreProduct tote (parseQuery (lit "4.5 stars")) 0
  == scoreProduct tote no_constraints 0.
Proof. vm_compute. split; reflexivity. Qed.

Example cheap_shoes :
  applyAIQuery [headphones; runner] (lit "cheap shoes") = [runner].
Proof. vm_compute. reflexivity. Qed.

(** Equal scores (2.5 + 0.5 - 0.5 and 2.5 + 1 - 1): the higher rating goes
    first. *)
Example tie_break_on_rating :
  applyAIQuery [plain_mug; fine_mug] (lit "mug") = [fine_mug; plain_mug].
Proof. vm_compute. reflexivity. Qed.

(* ================================================================== *)
(** ** Numbers *)

Lemma Qgt_bool_iff (x y : Q) : Qgt_bool x y = true <-> y < x.
Proof.
  unfold Qgt_bool. rewrite negb_true_iff.
  split; intro H.
  - apply Qnot_le_lt. intro Hle. apply Qle_bool_iff in Hle. congruence.
  - destruct (Qle_bool x y) eqn:E; [|reflexivity].
    apply Qle_bool_iff in E. apply Qlt_not_le in H. contradiction.
Qed.

Lemma Qgt_bool_false_iff (x y : Q) : Qgt_bool x y = false <-> x <= y.
Proof.
  unfold Qgt_bool. rewrite negb_false_iff. apply Qle_bool_iff.
Qed.







Lemma spanOf_ge_1 (p0 : Product) (rest : list Product) : 1 <= spanOf p0 rest.
Proof. unfold spanOf. apply Q.le_max_l. Qed.


(* ================================================================== *)
(** ** Sorting *)

Section SortFacts.
Context {A : Type}.
Variable cmp : A -> A -> Q.

Lemma insert_perm (x : A) (l : list A) : Permutation (insert cmp x l) (x :: l).
Proof.
  induction l as [|y l IH]; simpl.
  - apply Permutation_refl.
  - destruct (Qgt_bool (cmp x y) 0).
    + eapply perm_trans; [apply perm_skip, IH | apply perm_swap].
    + apply Permutation_refl.
Qed.

Lemma sort_perm (l : list A) : Permutation (sort cmp l) l.
Proof.
  induction l as [|x l IH]; simpl.
  - apply perm_nil.
  - eapply perm_trans; [apply insert_perm | apply perm_skip, IH].
Qed.

Lemma sort_nil_iff (l : list A) : sort cmp l = [] <-> l = [].
Proof.
  split; intro H.
  - apply Permutation_nil. rewrite <- H. apply sort_perm.
  - subst l. reflexivity.
Qed.

Lemma sort_In (x : A) (l : list A) : In x (sort cmp l) <-> In x l.
Proof.
  split; apply Permutation_in;
    [apply sort_perm | apply Permutation_sym, sort_perm].
Qed.

End SortFacts.

(* ================================================================== *)
(** ** The ranking engine *)

Lemma rank_cons (p0 : Product) (rest : list Product) (parsed : Query) :
  rank (p0 :: rest) parsed =
  let scored :=
    map sc_p (sort (compareScored parsed) (survivors p0 rest parsed)) in
  match scored with
  | [] => p0 :: rest
  | _ :: _ => scored
  end.
Proof. reflexivity. Qed.

Lemma applyAIQuery_rank (all : list Product) (q : jsstring) :
  applyAIQuery all q = rank all (parseQuery q).
Proof. destruct all; reflexivity. Qed.

Lemma filter_none {A : Type} (f : A -> bool) (l : list A) :
  (forall x, In x l -> f x = false) -> filter f l = [].
Proof.
  induction l as [|a l IH]; intro H; simpl.
  - reflexivity.
  - rewrite (H a (or_introl eq_refl)). apply IH.
    intros x Hx. apply H. right. exact Hx.
Qed.

Lemma survivors_In (p0 : Product) (rest : list Product) (parsed : Query)
    (x : Scored) :
  In x (survivors p0 rest parsed) <->
  exists p, In p (p0 :: rest) /\
            x = mkScored p (scoreOf p0 rest parsed p) (npriceOf p0 rest p) /\
            0.5 < scoreOf p0 rest parsed p.
Proof.
  unfold survivors, scoreAll. rewrite filter_In, in_map_iff. split.
  - intros [[p [Hx Hp]] Hgt]. exists p. subst x. simpl in Hgt.
    apply Qgt_bool_iff in Hgt. repeat split; assumption.
  - intros [p [Hp [Hx Hgt]]]. split.
    + exists p. split; [symmetry; exact Hx | exact Hp].
    + subst x. simpl. apply Qgt_bool_iff. exact Hgt.
Qed.

Lemma survivors_nil (p0 : Product) (rest : list Product) (parsed : Query) :
  (forall p, In p (p0 :: rest) -> scoreOf p0 rest parsed p <= 0.5) ->
  survivors p0 rest parsed = [].
Proof.
  intro H. unfold survivors, scoreAll. apply filter_none.
  intros x Hx. apply in_map_iff in Hx. destruct Hx as [p [<- Hp]].
  simpl. apply Qgt_bool_false_iff. apply H, Hp.
Qed.

Lemma ranked_In (p0 : Product) (rest : list Product) (parsed : Query)
    (p : Product) :
  In p (map sc_p (sort (compareScored parsed) (survivors p0 rest parsed))) <->
  In p (p0 :: rest) /\ 0.5 < scoreOf p0 rest parsed p.
Proof.
  rewrite in_map_iff. split.
  - intros [x [Hp Hx]]. apply sort_In, survivors_In in Hx.
    destruct Hx as [p' [Hin [-> Hgt]]]. simpl in Hp. subst p'. tauto.
  - intros [Hin Hgt].
    exists (mkScored p (scoreOf p0 rest parsed p) (npriceOf p0 rest p)).
    split; [reflexivity|]. apply sort_In, survivors_In.
    exists p. tauto.
Qed.

(** Once one item passes the threshold, the result holds the items that
    pass it and no other. *)
Lemma rank_In (p0 : Product) (rest : list Product) (parsed : Query)
    (p : Product) :
  (exists x, In x (p0 :: rest) /\ 0.5 < scoreOf p0 rest parsed x) ->
  (In p (rank (p0 :: rest) parsed) <->
   In p (p0 :: rest) /\ 0.5 < scoreOf p0 rest parsed p).
Proof.
  intros [x Hx]. rewrite rank_cons. cbv zeta.
  pose proof (ranked_In p0 rest parsed) as HR.
  destruct (map sc_p (sort (compareScored parsed) (survivors p0 rest parsed)))
    as [|q qs].
  - apply HR in Hx. destruct Hx.
  - apply HR.
Qed.


Lemma map_filter_map {A B : Type} (mk : A -> B) (proj : B -> A)
    (f : B -> bool) (l : list A) :
  (forall a, proj (mk a) = a) ->
  map proj (filter f (map mk l)) = filter (fun a => f (mk a)) l.
Proof.
  intro H. induction l as [|a l IH]; simpl.
  - reflexivity.
  - destruct (f (mk a)); simpl; rewrite ?H, IH; reflexivity.
Qed.

(** Once one item passes the threshold, the result is the items that pass
    it, each as often as the input has it, in some order. *)
Lemma rank_permutation (p0 : Product) (rest : list Product) (parsed : Query) :
  (exists x, In x (p0 :: rest) /\ 0.5 < scoreOf p0 rest parsed x) ->
  Permutation (rank (p0 :: rest) parsed)
    (filter (fun p => Qgt_bool (scoreOf p0 rest parsed p) 0.5) (p0 :: rest)).
Proof.
  intros [x Hx]. rewrite rank_cons. cbv zeta.
  assert (P : Permutation
    (map sc_p (sort (compareScored parsed) (survivors p0 rest parsed)))
    (filter (fun p => Qgt_bool (scoreOf p0 rest parsed p) 0.5) (p0 :: rest))).
  { eapply perm_trans; [apply Permutation_map, sort_perm|].
    unfold survivors, scoreAll.
    rewrite (map_filter_map _ sc_p) by reflexivity.
    apply Permutation_refl. }
  pose proof (ranked_In p0 rest parsed x) as HR.
  destruct (map sc_p (sort (compareScored parsed) (survivors p0 rest parsed)))
    as [|q qs].
  - apply HR in Hx. destruct Hx.
  - exact P.
Qed.

(** A non-empty list never ranks to the empty list. *)
Lemma rank_not_empty (p0 : Product) (rest : list Product) (parsed : Query) :
  rank (p0 :: rest) parsed <> [].
Proof.
  rewrite rank_cons. cbv zeta.
  destruct (map sc_p (sort (compareScored parsed) (survivors p0 rest parsed)));
    discriminate.
Qed.

(* ================================================================== *)
(** ** Properties of the ranking engine *)

(** C1.  Fallback law: when no item of a non-empty list scores above 0.5,
    [rank] returns the whole list in its input order, and so does
    [applyAIQuery] for a query that parses to these constraints. *)
Theorem rank_fallback (p0 : Product) (rest : list Product) (parsed : Query) :
  (forall p, In p (p0 :: rest) -> scoreOf p0 rest parsed p <= 0.5) ->
  rank (p0 :: rest) parsed = p0 :: rest /\
  (forall q, parseQuery q = parsed -> applyAIQuery (p0 :: rest) q = p0 :: rest).
Proof.
  intro H.
  assert (R : rank (p0 :: rest) parsed = p0 :: rest).
  { rewrite rank_cons, (survivors_nil _ _ _ H). reflexivity. }
  split; [exact R|].
  intros q Hq. rewrite applyAIQuery_rank, Hq. exact R.
Qed.

Lemma rank_fallback_witness :
  (forall p, In p [runner; headphones; tote] ->
             scoreOf runner [headphones; tote] no_constraints p <= 0.5) /\
  rank [runner; headphones; tote] no_constraints
  = [runner; headphones; tote].
Proof.
  assert (H : forall p, In p [runner; headphones; tote] ->
              scoreOf runner [headphones; tote] no_constraints p <= 0.5).
  { intros p [<- | [<- | [<- | []]]]; vm_compute; discriminate. }
  split; [exact H|].
  exact (proj1 (rank_fallback runner [headphones; tote] no_constraints H)).
Defined.

(** C2.  On the empty item sequence [rank] and [applyAIQuery] return the
    empty sequence, whatever the constraints or the query. *)
Theorem rank_empty (c : Query) (q : jsstring) :
  rank [] c = [] /\ applyAIQuery [] q = [].
Proof. split; reflexivity. Qed.

(** C3.  When at least one item of a non-empty list scores above 0.5, an
    item of the list is in the result of [rank] exactly when its own score
    is above 0.5. *)
Theorem rank_keeps_exactly_the_relevant (p0 : Product) (rest : list Product)
    (parsed : Query) (p : Product) :
  (exists x, In x (p0 :: rest) /\ 0.5 < scoreOf p0 rest parsed x) ->
  In p (p0 :: rest) ->
  (In p (rank (p0 :: rest) parsed) <-> 0.5 < scoreOf p0 rest parsed p).
Proof.
  intros Hex Hp. rewrite (rank_In _ _ _ _ Hex). tauto.
Qed.



Lemma rank_keeps_exactly_the_relevant_witness :
  (exists x, In x [runner; headphones; tote] /\
             0.5 < scoreOf runner [headphones; tote] shoes_query x) /\
  In headphones [runner; headphones; tote] /\
  (In headphones (rank [runner; headphones; tote] shoes_query) <->
   0.5 < scoreOf runner [headphones; tote] shoes_query headphones).
Proof.
  assert (Hex : exists x, In x [runner; headphones; tote] /\
                0.5 < scoreOf runner [headphones; tote] shoes_query x).
  { exists runner. split; [left; reflexivity | vm_compute; reflexivity]. }
  assert (Hin : In headphones [runner; headphones; tote])
    by (right; left; reflexivity).
  split; [exact Hex|]. split; [exact Hin|].
  exact (rank_keeps_exactly_the_relevant
           runner [headphones; tote] shoes_query headphones Hex Hin).
Defined.






(* ================================================================== *)
(** ** Characters *)

Ltac by_cases_on_ascii c :=
  destruct c as [[] [] [] [] [] [] [] []]; vm_compute; congruence.

Lemma ascii_eqb_refl (c : ascii) : ascii_eqb c c = true.
Proof. unfold ascii_eqb. apply N.eqb_refl. Qed.

Lemma char_matches_refl (ic : bool) (c : ascii) : char_matches ic c c = true.
Proof. unfold char_matches. destruct ic; apply ascii_eqb_refl. Qed.

Lemma digit_not_space (c : ascii) : is_digit c = true -> is_space c = false.
Proof. by_cases_on_ascii c. Qed.

Lemma digit_not_dollar (c : ascii) :
  is_digit c = true -> char_matches true "$"%char c = false.
Proof. by_cases_on_ascii c. Qed.

Lemma space_not_dot (c : ascii) :
  is_space c = true -> char_matches true "."%char c = false.
Proof. by_cases_on_ascii c. Qed.

Lemma dot_insensitive (c : ascii) :
  char_matches true "."%char c = ascii_eqb "."%char c.
Proof. destruct c as [[] [] [] [] [] [] [] []]; vm_compute; reflexivity. Qed.

(* ================================================================== *)
(** ** Strings *)

Lemma prev_after_app (b : option ascii) (u w : jsstring) :
  prev_after b (u ++ w) = prev_after (prev_after b u) w.
Proof. unfold prev_after. apply fold_left_app. Qed.

Lemma firstn_consumed {A : Type} (w s : list A) :
  firstn (length (w ++ s) - length s) (w ++ s) = w.
Proof.
  rewrite length_app.
  replace (length w + length s - length s)%nat with (length w + 0)%nat by lia.
  rewrite firstn_app_2. simpl. apply app_nil_r.
Qed.

(** [trimStart] removes a prefix, and nothing once a character that is not
    white space leads. *)
Lemma trimStart_app (pre rest : jsstring) :
  stops is_space rest -> rest <> [] ->
  exists l pre', pre = l ++ pre' /\ trimStart (pre ++ rest) = pre' ++ rest.
Proof.
  intros Hs Hne. induction pre as [|c pre IH].
  - exists [], []. split; [reflexivity|].
    destruct rest as [|r rest]; [congruence|].
    simpl in *. rewrite Hs. reflexivity.
  - simpl. destruct (is_space c) eqn:E.
    + destruct IH as [l [pre' [-> H]]].
      exists (c :: l), pre'. split; [reflexivity | exact H].
    + exists [], (c :: pre). split; reflexivity.
Qed.

(** [trim] keeps a core that neither starts nor ends with white space, and
    what it leaves before the core is a suffix of what stood there. *)
Lemma trim_around (pre post mid : jsstring) (c1 c2 : ascii) :
  is_space c1 = false -> is_space c2 = false ->
  exists l pre' post',
    pre = l ++ pre' /\
    trim (pre ++ (c1 :: mid ++ [c2]) ++ post)
    = pre' ++ (c1 :: mid ++ [c2]) ++ post'.
Proof.
  intros H1 H2. unfold trim, trimEnd.
  destruct (trimStart_app pre ((c1 :: mid ++ [c2]) ++ post))
    as [l [pre' [Hpre E]]]; [exact H1 | discriminate |].
  rewrite E.
  replace (rev (pre' ++ (c1 :: mid ++ [c2]) ++ post))
    with (rev post ++ (c2 :: rev mid ++ [c1]) ++ rev pre').
  2:{ repeat (rewrite ?rev_app_distr, <- ?app_assoc; simpl). reflexivity. }
  destruct (trimStart_app (rev post) ((c2 :: rev mid ++ [c1]) ++ rev pre'))
    as [l2 [post2 [Hpost E2]]]; [exact H2 | discriminate |].
  rewrite E2. exists l, pre', (rev post2). split; [exact Hpre|].
  repeat (rewrite ?rev_app_distr, ?rev_involutive, <- ?app_assoc; simpl).
  reflexivity.
Qed.

Lemma trim_fixed (mid : jsstring) (c1 c2 : ascii) :
  is_space c1 = false -> is_space c2 = false ->
  trim (c1 :: mid ++ [c2]) = c1 :: mid ++ [c2].
Proof.
  intros H1 H2. unfold trim, trimEnd. simpl. rewrite H1.
  change (c1 :: mid ++ [c2]) with ([c1] ++ mid ++ [c2]).
  repeat (rewrite ?rev_app_distr, <- ?app_assoc; simpl). rewrite H2.
  repeat (rewrite ?rev_app_distr, ?rev_involutive, <- ?app_assoc; simpl).
  reflexivity.
Qed.

(* ================================================================== *)
(** ** The matcher *)

Section MatcherFacts.
Context {A : Type}.
Variable ic : bool.
Implicit Types (k : cursor -> option A) (r : regex) (x : cursor).

Lemma rmatch_Seq r1 r2 k x :
  rmatch ic (Seq r1 r2) k x = rmatch ic r1 (rmatch ic r2 k) x.
Proof. reflexivity. Qed.

Lemma rmatch_Grp n r k x :
  rmatch ic (Grp n r) k x = rmatch ic r (fun y => k (capture n (input x) y)) x.
Proof. reflexivity. Qed.

Lemma rmatch_Alt_left r1 r2 k x (v : A) :
  rmatch ic r1 k x = Some v -> rmatch ic (Alt r1 r2) k x = Some v.
Proof. intro H. simpl. rewrite H. reflexivity. Qed.

Lemma rmatch_Opt_take r k x (v : A) :
  rmatch ic r k x = Some v -> rmatch ic (Opt r) k x = Some v.
Proof. intro H. simpl. rewrite H. reflexivity. Qed.

Lemma rmatch_Opt_skip r k x :
  rmatch ic r k x = None -> rmatch ic (Opt r) k x = k x.
Proof. intro H. simpl. rewrite H. reflexivity. Qed.

Lemma rmatch_Chr_hit c k b s g :
  rmatch ic (Chr c) k (Cursor b (c :: s) g) = k (Cursor (Some c) s g).
Proof. simpl. rewrite char_matches_refl. reflexivity. Qed.

Lemma rmatch_Chr_miss c k b s g :
  match s with
  | [] => True
  | a :: _ => char_matches ic c a = false
  end ->
  rmatch ic (Chr c) k (Cursor b s g) = None.
Proof.
  intro H. destruct s as [|a s]; simpl; [reflexivity|].
  rewrite H. reflexivity.
Qed.

Lemma rmatch_Cls_hit p c k b s g :
  p c = true ->
  rmatch ic (Cls p) k (Cursor b (c :: s) g) = k (Cursor (Some c) s g).
Proof. intro H. simpl. rewrite H. reflexivity. Qed.

Lemma rmatch_Cls_miss p k b s g :
  stops p s -> rmatch ic (Cls p) k (Cursor b s g) = None.
Proof.
  intro H. destruct s as [|a s]; simpl; [reflexivity|].
  simpl in H. rewrite H. reflexivity.
Qed.

(** A literal run matches itself. *)
Lemma rmatch_chars (l : jsstring) k b s g :
  rmatch ic (chars l) k (Cursor b (l ++ s) g)
  = k (Cursor (prev_after b l) s g).
Proof.
  revert b. induction l as [|c t IH]; intro b.
  - reflexivity.
  - destruct t as [|c' t'].
    + apply rmatch_Chr_hit.
    + change (chars (c :: c' :: t')) with (Seq (Chr c) (chars (c' :: t'))).
      rewrite rmatch_Seq. change ((c :: c' :: t') ++ s) with (c :: (c' :: t') ++ s).
      rewrite rmatch_Chr_hit. apply IH.
Qed.

Lemma star_stops p k b s g :
  stops p s -> star p k b s g = k (Cursor b s g).
Proof.
  intro H. destruct s as [|c s]; simpl; [reflexivity|].
  simpl in H. rewrite H. reflexivity.
Qed.

(** Greedy [p*] reads a whole run of [p] when the rest then matches. *)
Lemma star_greedy p k (w : jsstring) b s g (v : A) :
  forallb p w = true -> stops p s ->
  k (Cursor (prev_after b w) s g) = Some v ->
  star p k b (w ++ s) g = Some v.
Proof.
  revert b. induction w as [|c w IH]; intros b Hw Hs Hk.
  - simpl. rewrite star_stops by exact Hs. exact Hk.
  - simpl in Hw. apply andb_true_iff in Hw. destruct Hw as [Hc Hw].
    simpl. rewrite Hc. rewrite (IH (Some c) Hw Hs Hk). reflexivity.
Qed.

Lemma rmatch_Star_greedy p k (w : jsstring) b s g (v : A) :
  forallb p w = true -> stops p s ->
  k (Cursor (prev_after b w) s g) = Some v ->
  rmatch ic (Star p) k (Cursor b (w ++ s) g) = Some v.
Proof. intros. simpl. apply star_greedy; assumption. Qed.

Lemma rmatch_Plus_greedy p k (w : jsstring) b s g (v : A) :
  w <> [] -> forallb p w = true -> stops p s ->
  k (Cursor (prev_after b w) s g) = Some v ->
  rmatch ic (Plus p) k (Cursor b (w ++ s) g) = Some v.
Proof.
  intros Hne Hall Hs Hk. destruct w as [|c w]; [congruence|].
  simpl in Hall. apply andb_true_iff in Hall. destruct Hall as [Hc Hall].
  simpl. rewrite Hc. apply star_greedy; assumption.
Qed.

End MatcherFacts.

(* ================================================================== *)
(** ** Numerals *)

Lemma all_digits_spec (w : jsstring) :
  all_digits w = true -> w <> [] /\ forallb is_digit w = true.
Proof.
  destruct w as [|c w]; intro H; [discriminate|].
  split; [discriminate | exact H].
Qed.

Lemma all_digits_head (w : jsstring) :
  all_digits w = true -> exists d w', w = d :: w' /\ is_digit d = true.
Proof.
  destruct w as [|c w]; intro H; [discriminate|].
  simpl in H. apply andb_true_iff in H. exists c, w. tauto.
Qed.

Lemma all_digits_last (w : jsstring) :
  all_digits w = true -> exists w' d, w = w' ++ [d] /\ is_digit d = true.
Proof.
  intro H. apply all_digits_spec in H. destruct H as [Hne Hall].
  destruct (exists_last Hne) as [w' [d ->]]. exists w', d.
  split; [reflexivity|].
  rewrite forallb_app in Hall. apply andb_true_iff in Hall.
  destruct Hall as [_ Hd]. simpl in Hd. rewrite andb_true_r in Hd. exact Hd.
Qed.

Lemma Decimal_head (X : jsstring) :
  Decimal X -> exists d X', X = d :: X' /\ is_digit d = true.
Proof.
  intros [i Hi | i f Hi Hf].
  - apply all_digits_head, Hi.
  - destruct (all_digits_head i Hi) as [d [i' [-> Hd]]].
    exists d, (i' ++ "."%char :: f). split; [reflexivity | exact Hd].
Qed.

Lemma Decimal_last (X : jsstring) :
  Decimal X -> exists X' d, X = X' ++ [d] /\ is_digit d = true.
Proof.
  intros [i Hi | i f Hi Hf].
  - apply all_digits_last, Hi.
  - destruct (all_digits_last f Hf) as [f' [d [-> Hd]]].
    exists (i ++ "."%char :: f'), d. split; [|exact Hd].
    rewrite <- app_assoc. reflexivity.
Qed.

Lemma Decimal_stops_space (X s : jsstring) :
  Decimal X -> stops is_space (X ++ s).
Proof.
  intro H. destruct (Decimal_head X H) as [d [X' [-> Hd]]].
  simpl. apply digit_not_space, Hd.
Qed.

Lemma number_stops_digit (s : jsstring) : number_stops s -> stops is_digit s.
Proof. destruct s; simpl; tauto. Qed.

Section NumberMatch.
Context {A : Type}.
Implicit Types (k : cursor -> option A).

(** [re_number] reads a whole numeral when what follows cannot extend it
    and the rest of the pattern then matches. *)
Lemma rmatch_number (X : jsstring) k b s g (v : A) :
  Decimal X -> number_stops s ->
  k (Cursor (prev_after b X) s g) = Some v ->
  rmatch true re_number k (Cursor b (X ++ s) g) = Some v.
Proof.
  intros HX Hs Hk. unfold re_number. rewrite rmatch_Seq.
  destruct HX as [i Hi | i f Hi Hf].
  - destruct (all_digits_spec i Hi) as [Hne Hall].
    apply rmatch_Plus_greedy; try assumption.
    + apply number_stops_digit, Hs.
    + rewrite rmatch_Opt_skip; [exact Hk|].
      rewrite rmatch_Seq. apply rmatch_Chr_miss.
      destruct s as [|c s]; [exact I|].
      rewrite dot_insensitive. apply Hs.
  - destruct (all_digits_spec i Hi) as [Hne Hall].
    destruct (all_digits_spec f Hf) as [Hnf Hallf].
    rewrite <- app_assoc. apply rmatch_Plus_greedy; try assumption.
    + reflexivity.
    + apply rmatch_Opt_take. rewrite rmatch_Seq.
      change (("."%char :: f) ++ s) with ("."%char :: f ++ s).
      rewrite rmatch_Chr_hit. apply rmatch_Plus_greedy; try assumption.
      * apply number_stops_digit, Hs.
      * rewrite prev_after_app in Hk. exact Hk.
Qed.

Lemma rmatch_group_number (n : nat) (X : jsstring) k b s g (v : A) :
  Decimal X -> number_stops s ->
  k (Cursor (prev_after b X) s ((n, X) :: g)) = Some v ->
  rmatch true (Grp n re_number) k (Cursor b (X ++ s) g) = Some v.
Proof.
  intros HX Hs Hk. rewrite rmatch_Grp. apply rmatch_number; try assumption.
  unfold capture. simpl. rewrite firstn_consumed. exact Hk.
Qed.

(** A dollar sign is optional before a numeral. *)
Lemma rmatch_no_dollar (X : jsstring) k b s g :
  Decimal X ->
  rmatch true (Opt (Chr "$")) k (Cursor b (X ++ s) g) = k (Cursor b (X ++ s) g).
Proof.
  intro HX. apply rmatch_Opt_skip.
  destruct (Decimal_head X HX) as [d [X' [-> Hd]]].
  apply rmatch_Chr_miss. simpl. apply digit_not_dollar, Hd.
Qed.

End NumberMatch.

(* ================================================================== *)
(** ** The patterns of [parseQuery] *)

Lemma exec_from_here (ic : bool) (r : regex) (b : option ascii)
    (s : jsstring) (g : list (nat * jsstring)) :
  rmatch ic r (fun y => Some (groups y)) (Cursor b s []) = Some g ->
  exec_from ic r b s = Some g.
Proof. intro H. destruct s; simpl; rewrite H; reflexivity. Qed.

Lemma space_run_number_stops (w s : jsstring) :
  forallb is_space w = true -> number_stops s -> number_stops (w ++ s).
Proof.
  intros Hw Hs. destruct w as [|c w]; [exact Hs|].
  simpl in Hw. apply andb_true_iff in Hw. destruct Hw as [Hc _].
  simpl. split.
  - destruct (is_digit c) eqn:E; [|reflexivity].
    apply digit_not_space in E. congruence.
  - rewrite <- dot_insensitive. apply space_not_dot, Hc.
Qed.

(** The phrase "between X and Y", with any white space between its parts:
    the pattern matches where the string starts and captures the two
    numerals whole. *)
Lemma exec_between_phrase (w1 w2 w3 X Y : jsstring) :
  forallb is_space w1 = true -> forallb is_space w2 = true ->
  forallb is_space w3 = true -> Decimal X -> Decimal Y ->
  exec true re_between
       (lit "between" ++ w1 ++ X ++ w2 ++ lit "and" ++ w3 ++ Y)
  = Some [(2%nat, Y); (1%nat, X)].
Proof.
  intros H1 H2 H3 HX HY.
  rewrite <- (app_nil_r Y) at 1.
  apply exec_from_here. unfold re_between, word.
  rewrite rmatch_Seq, rmatch_chars.
  rewrite rmatch_Seq. apply rmatch_Star_greedy;
    [exact H1 | apply Decimal_stops_space, HX |].
  rewrite rmatch_Seq, rmatch_no_dollar by exact HX.
  rewrite rmatch_Seq. apply rmatch_group_number; [exact HX | |].
  { apply space_run_number_stops; [exact H2|]. split; reflexivity. }
  rewrite rmatch_Seq. apply rmatch_Star_greedy; [exact H2 | reflexivity |].
  rewrite rmatch_Seq. do 2 apply rmatch_Alt_left. rewrite rmatch_chars.
  rewrite rmatch_Seq. apply rmatch_Star_greedy;
    [exact H3 | apply Decimal_stops_space, HY |].
  rewrite rmatch_Seq, rmatch_no_dollar by exact HY.
  apply rmatch_group_number; [exact HY | exact I |].
  reflexivity.
Qed.

(** What [parseQuery] answers, field by field. *)
Lemma parseQuery_minPrice (q : jsstring) :
  minPrice (parseQuery q) =
  match exec true re_between (trim q) with
  | Some m => Some (Qmin (Number (group 1 m)) (Number (group 2 m)))
  | None =>
      match exec true re_under (trim q) with
      | Some _ => None
      | None =>
          match exec true re_over (trim q) with
          | Some m => Some (Number (group 2 m))
          | None => None
          end
      end
  end.
Proof.
  unfold parseQuery.
  destruct (exec true re_between (trim q)); [reflexivity|].
  destruct (exec true re_under (trim q)); [reflexivity|].
  destruct (exec true re_over (trim q)); reflexivity.
Qed.

Lemma parseQuery_maxPrice (q : jsstring) :
  maxPrice (parseQuery q) =
  match exec true re_between (trim q) with
  | Some m => Some (Qmax (Number (group 1 m)) (Number (group 2 m)))
  | None =>
      match exec true re_under (trim q) with
      | Some m => Some (Number (group 2 m))
      | None => None
      end
  end.
Proof.
  unfold parseQuery.
  destruct (exec true re_between (trim q)); [reflexivity|].
  destruct (exec true re_under (trim q)); [reflexivity|].
  destruct (exec true re_over (trim q)); reflexivity.
Qed.

Lemma parseQuery_minRating (q : jsstring) :
  minRating (parseQuery q) =
  match exec true re_starsNum (trim q) with
  | Some m => Some (Number (group 1 m))
  | None => if test true re_impliesGood (trim q) then Some 4 else None
  end.
Proof.
  unfold parseQuery.
  destruct (exec true re_between (trim q)); [reflexivity|].
  destruct (exec true re_under (trim q)); [reflexivity|].
  destruct (exec true re_over (trim q)); reflexivity.
Qed.

Lemma trim_phrase (c1 : ascii) (mid Z : jsstring) :
  is_space c1 = false -> Decimal Z -> trim (c1 :: mid ++ Z) = c1 :: mid ++ Z.
Proof.
  intros H1 HZ. destruct (Decimal_last Z HZ) as [Z' [d [-> Hd]]].
  rewrite app_assoc. apply trim_fixed; [exact H1|].
  apply digit_not_space, Hd.
Qed.

Lemma parseQuery_between (X Y : jsstring) :
  Decimal X -> Decimal Y ->
  exec true re_between (trim (lit "between " ++ X ++ lit " and " ++ Y))
  = Some [(2%nat, Y); (1%nat, X)].
Proof.
  intros HX HY.
  replace (lit "between " ++ X ++ lit " and " ++ Y)
    with ("b"%char :: (lit "etween " ++ X ++ lit " and ") ++ Y)
    by (repeat (rewrite <- ?app_assoc; simpl); reflexivity).
  rewrite trim_phrase by (reflexivity || assumption).
  replace ("b"%char :: (lit "etween " ++ X ++ lit " and ") ++ Y)
    with (lit "between" ++ [" "%char] ++ X ++ [" "%char] ++ lit "and"
          ++ [" "%char] ++ Y)
    by (repeat (rewrite <- ?app_assoc; simpl); reflexivity).
  apply exec_between_phrase; (reflexivity || assumption).
Qed.

(* ================================================================== *)
(** ** Properties of the query interpreter *)

(** C4.  [parseQuery] reads "between X and Y", for decimal numerals X and
    Y, as the range from the smaller to the larger of the two; the same
    range, as numbers, whichever of the two is written first. *)
Theorem between_is_order_independent (X Y : jsstring) :
  Decimal X -> Decimal Y ->
  let c := parseQuery (lit "between " ++ X ++ lit " and " ++ Y) in
  let c' := parseQuery (lit "between " ++ Y ++ lit " and " ++ X) in
  minPrice c = Some (Qmin (Number X) (Number Y)) /\
  maxPrice c = Some (Qmax (Number X) (Number Y)) /\
  (exists lo hi, minPrice c' = Some lo /\ maxPrice c' = Some hi /\
                 lo == Qmin (Number X) (Number Y) /\
                 hi == Qmax (Number X) (Number Y)).
Proof.
  intros HX HY c c'. subst c c'.
  rewrite !parseQuery_minPrice, !parseQuery_maxPrice.
  rewrite (parseQuery_between X Y HX HY), (parseQuery_between Y X HY HX).
  cbn [group Nat.eqb].
  split; [reflexivity|]. split; [reflexivity|].
  exists (Qmin (Number Y) (Number X)), (Qmax (Number Y) (Number X)).
  split; [reflexivity|]. split; [reflexivity|].
  split; [apply Q.min_comm | apply Q.max_comm].
Qed.

Lemma between_is_order_independent_witness :
  Decimal (lit "20") /\ Decimal (lit "10") /\
  minPrice (parseQuery (lit "between 20 and 10")) = Some 10 /\
  maxPrice (parseQuery (lit "between 20 and 10")) = Some 20.
Proof.
  assert (H20 : Decimal (lit "20")) by (apply Decimal_int; reflexivity).
  assert (H10 : Decimal (lit "10")) by (apply Decimal_int; reflexivity).
  split; [exact H20|]. split; [exact H10|].
  destruct (between_is_order_independent (lit "20") (lit "10") H20 H10)
    as [Hmin [Hmax _]].
  split; [exact Hmin | exact Hmax].
Defined.

(** C10.  When [parseQuery] sets both price bounds, the lower bound is at
    most the upper bound. *)
Theorem parsed_range_is_ordered (q : jsstring) (lo hi : Q) :
  minPrice (parseQuery q) = Some lo ->
  maxPrice (parseQuery q) = Some hi ->
  lo <= hi.
Proof.
  rewrite parseQuery_minPrice, parseQuery_maxPrice.
  destruct (exec true re_between (trim q)) as [m|].
  - intros Hlo Hhi. injection Hlo as <-. injection Hhi as <-.
    eapply Qle_trans; [apply Q.le_min_l | apply Q.le_max_l].
  - destruct (exec true re_under (trim q)); [discriminate|].
    destruct (exec true re_over (trim q)); discriminate.
Qed.

Lemma parsed_range_is_ordered_witness :
  minPrice (parseQuery (lit "between $7.5 to 3")) = Some 3 /\
  maxPrice (parseQuery (lit "between $7.5 to 3")) = Some 7.5 /\
  3 <= 7.5.
Proof.
  assert (Hlo : minPrice (parseQuery (lit "between $7.5 to 3")) = Some 3)
    by (vm_compute; reflexivity).
  assert (Hhi : maxPrice (parseQuery (lit "between $7.5 to 3")) = Some 7.5)
    by (vm_compute; reflexivity).
  split; [exact Hlo|]. split; [exact Hhi|].
  exact (parsed_range_is_ordered (lit "between $7.5 to 3") 3 7.5 Hlo Hhi).
Defined.

Lemma scoreProduct_staged (p : Product) (query : Query) (nprice : Q) :
  scoreProduct p query nprice
  = score_from_maxPrice p query nprice (after_maxPrice p query).
Proof. reflexivity. Qed.

Lemma no_keyword_no_hint (p : Product) (l : list jsstring) :
  existsb (fun h => has [] h && string_eqb h (toLowerCase (category p))) l
  = false.
Proof. induction l as [|h l IH]; [reflexivity | exact IH]. Qed.

(** C6.  "under $50" parses to the single constraint [maxPrice = 50], and
    under it the bound is inclusive: for an item priced exactly 50 the
    test of the price ceiling succeeds and takes the accumulator of
    [scoreProduct] from 0 to 2.  With a rating that is not negative the
    item then passes the threshold of 0.5; without the ceiling, and with a
    rating of at most 5, it does not. *)
Theorem under_50_is_inclusive (p : Product) (nprice : Q) :
  price p == 50 ->
  parseQuery (lit "under $50") = mkQuery (Some 50) None None [] None /\
  after_hint p (parseQuery (lit "under $50")) == 0 /\
  after_maxPrice p (parseQuery (lit "under $50")) == 2 /\
  scoreProduct p (parseQuery (lit "under $50")) nprice
  = score_from_maxPrice p (parseQuery (lit "under $50")) nprice
      (after_maxPrice p (parseQuery (lit "under $50"))) /\
  (0 <= rating p ->
   0.5 < scoreProduct p (parseQuery (lit "under $50")) nprice) /\
  (rating p <= 5 ->
   scoreProduct p (withoutMaxPrice (parseQuery (lit "under $50"))) nprice
   <= 0.5).
Proof.
  intro Hp.
  assert (E : parseQuery (lit "under $50") = mkQuery (Some 50) None None [] None)
    by (vm_compute; reflexivity).
  assert (T : Qle_bool (price p) 50 = true)
    by (apply Qle_bool_iff; rewrite Hp; apply Qle_refl).
  assert (H0 : after_hint p (mkQuery (Some 50) None None [] None) == 0).
  { unfold after_hint, after_keywords. cbn [keywords fold_left].
    rewrite no_keyword_no_hint. reflexivity. }
  assert (H2 : after_maxPrice p (mkQuery (Some 50) None None [] None) == 2).
  { unfold after_maxPrice. cbn [maxPrice]. rewrite T, H0. reflexivity. }
  rewrite E. split; [reflexivity|]. split; [exact H0|]. split; [exact H2|].
  split; [reflexivity|]. split.
  - intro Hr. rewrite scoreProduct_staged. unfold score_from_maxPrice.
    cbn [minPrice minRating priceIntent]. cbv zeta. rewrite H2. lra.
  - intro Hr. unfold withoutMaxPrice. cbn [minPrice minRating keywords priceIntent].
    rewrite scoreProduct_staged. unfold score_from_maxPrice, after_maxPrice.
    cbn [maxPrice minPrice minRating priceIntent]. cbv zeta.
    assert (H0' : after_hint p (mkQuery None None None [] None) == 0).
    { unfold after_hint, after_keywords. cbn [keywords fold_left].
      rewrite no_keyword_no_hint. reflexivity. }
    rewrite H0'. lra.
Qed.

Lemma under_50_is_inclusive_witness :
  price tote == 50 /\
  after_maxPrice tote (parseQuery (lit "under $50")) == 2 /\
  0.5 < scoreProduct tote (parseQuery (lit "under $50")) 0 /\
  scoreProduct tote (withoutMaxPrice (parseQuery (lit "under $50"))) 0 <= 0.5.
Proof.
  assert (Hp : price tote == 50) by reflexivity.
  assert (H0 : 0 <= rating tote) by (vm_compute; discriminate).
  assert (H5 : rating tote <= 5) by (vm_compute; discriminate).
  destruct (under_50_is_inclusive tote 0 Hp) as [_ [_ [A [_ [B C]]]]].
  split; [exact Hp|]. split; [exact A|]. split; [exact (B H0) | exact (C H5)].
Defined.

(* ================================================================== *)
(** ** The rating pattern *)

Lemma exec_from_cons (ic : bool) (r : regex) (b : option ascii) (c : ascii)
    (t : jsstring) :
  exec_from ic r b (c :: t) =
  match rmatch ic r (fun y => Some (groups y)) (Cursor b (c :: t) []) with
  | Some g => Some g
  | None => exec_from ic r (Some c) t
  end.
Proof. reflexivity. Qed.

Lemma rmatch_Opt_Chr_final (ic : bool) (c : ascii) (b : option ascii)
    (s : jsstring) (g : list (nat * jsstring)) :
  rmatch ic (Opt (Chr c)) (fun y => Some (groups y)) (Cursor b s g) = Some g.
Proof.
  simpl. destruct s as [|a s]; [reflexivity|].
  destruct (char_matches ic c a); reflexivity.
Qed.

(** The rating pattern starts with a digit: it matches nowhere else. *)
Lemma starsNum_miss {A : Type} (k : cursor -> option A) (b : option ascii)
    (s : jsstring) (g : list (nat * jsstring)) :
  stops is_digit s -> rmatch true re_starsNum k (Cursor b s g) = None.
Proof.
  intro H. unfold re_starsNum.
  rewrite rmatch_Seq, rmatch_Grp, rmatch_Seq.
  apply rmatch_Cls_miss, H.
Qed.

(** The group of the rating pattern reads one digit, and a point and a
    digit after it when they are there. *)
Lemma rmatch_star_number {A : Type} (k : cursor -> option A) (N s : jsstring)
    (b : option ascii) (g : list (nat * jsstring)) (v : A) :
  StarNumber N ->
  match s with
  | [] => True
  | a :: _ => char_matches true "."%char a = false
  end ->
  k (Cursor (prev_after b N) s ((1%nat, N) :: g)) = Some v ->
  rmatch true (Grp 1 (Seq (Cls is_digit) (Opt (Seq (Chr ".") (Cls is_digit)))))
         k (Cursor b (N ++ s) g) = Some v.
Proof.
  intros HN Hs Hk. rewrite rmatch_Grp, rmatch_Seq.
  destruct HN as [d Hd | d e Hd He].
  - change ([d] ++ s) with (d :: s) at 2.
    rewrite rmatch_Cls_hit by exact Hd.
    rewrite rmatch_Opt_skip.
    + unfold capture. cbn [input before groups].
      rewrite firstn_consumed. exact Hk.
    + rewrite rmatch_Seq. apply rmatch_Chr_miss, Hs.
  - change ([d; "."%char; e] ++ s) with (d :: "."%char :: e :: s) at 2.
    rewrite rmatch_Cls_hit by exact Hd.
    apply rmatch_Opt_take.
    rewrite rmatch_Seq, rmatch_Chr_hit, rmatch_Cls_hit by exact He.
    unfold capture. cbn [input before groups].
    rewrite firstn_consumed. exact Hk.
Qed.

Lemma starsNum_hit (N ws post : jsstring) (b : option ascii) :
  StarNumber N -> forallb is_space ws = true ->
  rmatch true re_starsNum (fun y => Some (groups y))
         (Cursor b (N ++ ws ++ lit "star" ++ post) [])
  = Some [(1%nat, N)].
Proof.
  intros HN Hws. unfold re_starsNum, word. rewrite rmatch_Seq.
  apply rmatch_star_number; [exact HN | |].
  { destruct ws as [|c ws]; [reflexivity|].
    simpl in Hws. apply andb_true_iff in Hws. apply space_not_dot, Hws. }
  rewrite rmatch_Seq. apply rmatch_Star_greedy; [exact Hws | reflexivity |].
  rewrite rmatch_Seq, rmatch_chars. apply rmatch_Opt_Chr_final.
Qed.

Lemma StarNumber_head (N : jsstring) :
  StarNumber N -> exists d N', N = d :: N' /\ is_digit d = true.
Proof. intros [d Hd | d e Hd He]; eauto. Qed.

(** C5, as stated, fails on an integer of two digits: of "10 stars" the
    pattern reads the digit before the white space, and the rating floor
    is 0, not 10. *)
Lemma ten_stars_is_not_ten :
  minRating (parseQuery (lit "10 stars")) = Some 0 /\
  ~ (exists r, minRating (parseQuery (lit "10 stars")) = Some r /\ r == 10).
Proof.
  assert (E : minRating (parseQuery (lit "10 stars")) = Some 0)
    by (vm_compute; reflexivity).
  split; [exact E|].
  intros [r [Hr H10]]. rewrite E in Hr. injection Hr as <-.
  vm_compute in H10. discriminate H10.
Qed.

(* ================================================================== *)
(** ** Purity *)

Lemma bind_Some {A B : Type} (m : Store.M A) (f : A -> Store.M B)
    (s s' : Store.store) (a : A) :
  m s = Some (a, s') -> Store.bind m f s = f a s'.
Proof. intro H. unfold Store.bind. rewrite H. reflexivity. Qed.

Lemma store_parseQuery (q : jsstring) (s : Store.store) :
  Store.stopwords s = STOPWORDS ->
  Store.parseQuery q s = Some (parseQuery q, s).
Proof.
  intro H. unfold Store.parseQuery, parseQuery, keywords_of. cbv zeta.
  destruct (exec true re_between (trim q));
    [|destruct (exec true re_under (trim q));
      [|destruct (exec true re_over (trim q))]];
    unfold Store.bind, Store.the_stopwords, Store.ret; rewrite H; reflexivity.
Qed.

Lemma store_scoreProduct (p : Product) (query : Query) (n : Q)
    (s : Store.store) :
  Store.hints s = CATEGORY_HINTS ->
  Store.scoreProduct p query n s = Some (scoreProduct p query n, s).
Proof.
  intro H. unfold Store.scoreProduct, scoreProduct.
  unfold Store.bind, Store.the_hints, Store.ret. rewrite H. reflexivity.
Qed.

Lemma store_for_each_score (l : list Product) (parsed : Query) (min span : Q)
    (s : Store.store) :
  Store.hints s = CATEGORY_HINTS ->
  Store.for_each
    (fun p =>
       let nprice := (price p - min) / span in
       Store.bind (Store.scoreProduct p parsed nprice)
                  (fun s0 => Store.ret (mkScored p s0 nprice))) l s
  = Some (scoreAll l parsed min span, s).
Proof.
  intro H. induction l as [|p l IH]; [reflexivity|].
  cbn [Store.for_each scoreAll map]. cbv zeta.
  rewrite (bind_Some _ _ s s (mkScored p (scoreProduct p parsed ((price p - min) / span))
                                ((price p - min) / span))).
  - unfold scoreAll in IH. rewrite (bind_Some _ _ _ _ _ IH). reflexivity.
  - rewrite (bind_Some _ _ _ _ _ (store_scoreProduct p parsed _ s H)).
    reflexivity.
Qed.

Lemma nth_error_fresh {A : Type} (l ext : list A) (k : nat) :
  nth_error (l ++ ext) (length l + k) = nth_error ext k.
Proof.
  rewrite nth_error_app2 by lia. f_equal. lia.
Qed.

Lemma update_fresh {A : Type} (l ext : list A) (k : nat) (a : A) :
  Store.update (length l + k) a (l ++ ext) = l ++ Store.update k a ext.
Proof.
  induction l as [|x l IH]; simpl.
  - destruct ext; reflexivity.
  - rewrite IH. reflexivity.
Qed.

Lemma preserved_refl (s : Store.store) : Store.preserved s s.
Proof. unfold Store.preserved. auto. Qed.

Lemma preserved_app (a : list Store.array) (sw h : list jsstring)
    (ext : list Store.array) :
  Store.preserved (Store.mkStore a sw h) (Store.mkStore (a ++ ext) sw h).
Proof.
  unfold Store.preserved. cbn. repeat split.
  intros r x H. rewrite nth_error_app1; [exact H|].
  apply nth_error_Some. congruence.
Qed.

Lemma preserved_intact (s s' : Store.store) :
  Store.preserved s s' -> Store.intact s -> Store.intact s'.
Proof. intros [H1 [H2 _]] [I1 I2]. split; congruence. Qed.

Lemma preserved_items (s s' : Store.store) (r : Store.ref) (l : list Product) :
  Store.preserved s s' -> Store.items_at s r = Some l ->
  Store.items_at s' r = Some l.
Proof.
  intros [_ [_ H]] E. unfold Store.items_at in *.
  destruct (nth_error (Store.arrays s) r) as [a|] eqn:Ea; [|discriminate].
  rewrite (H _ _ Ea). exact E.
Qed.

(** One call of [applyAIQuery] on a store: it returns, the array it returns
    holds what the function [applyAIQuery] of the items gives, and every
    object of the store is as it was. *)
Lemma store_applyAIQuery (s : Store.store) (all : Store.ref) (q : jsstring)
    (l : list Product) :
  Store.intact s -> Store.items_at s all = Some l ->
  exists r s',
    Store.applyAIQuery all q s = Some (r, s') /\
    Store.items_at s' r = Some (applyAIQuery l q) /\
    Store.preserved s s'.
Proof.
  intros [Isw Ih] Hall.
  destruct s as [a sw h]. cbn [Store.stopwords Store.hints] in Isw, Ih.
  unfold Store.items_at in Hall. cbn [Store.arrays] in Hall.
  destruct (nth_error a all) as [[l0| |]|] eqn:Ea; try discriminate.
  injection Hall as ->.
  assert (Hlt : (all < length a)%nat) by (apply nth_error_Some; congruence).
  unfold Store.applyAIQuery.
  assert (Hlen : forall ext,
    Store.length_of all (Store.mkStore (a ++ ext) sw h)
    = Some (length l, Store.mkStore (a ++ ext) sw h)).
  { intro ext. unfold Store.length_of, Store.bind, Store.load. cbn.
    rewrite nth_error_app1, Ea by exact Hlt. reflexivity. }
  assert (Hit : forall ext,
    Store.items all (Store.mkStore (a ++ ext) sw h)
    = Some (l, Store.mkStore (a ++ ext) sw h)).
  { intro ext. unfold Store.items, Store.bind, Store.load. cbn.
    rewrite nth_error_app1, Ea by exact Hlt. reflexivity. }
  pose proof (Hlen []) as Hlen0. rewrite app_nil_r in Hlen0.
  rewrite (bind_Some _ _ _ _ _ Hlen0).
  destruct l as [|p0 rest].
  { exists all, (Store.mkStore a sw h). cbn [length Nat.eqb].
    split; [reflexivity|]. split; [|apply preserved_refl].
    unfold Store.items_at. cbn. rewrite Ea. reflexivity. }
  cbn [length Nat.eqb].
  rewrite (bind_Some _ _ _ _ _ (store_parseQuery q (Store.mkStore a sw h) Isw)).
  set (parsed := parseQuery q).
  set (min := Math_min (price p0) (map price rest)).
  set (max := Math_max (price p0) (map price rest)).
  set (span := Qmax 1 (max - min)).
  set (N := Store.Numbers (map price (p0 :: rest))).
  set (C1 := Store.Candidates (scoreAll (p0 :: rest) parsed min span)).
  set (kept := filter (fun x => Qgt_bool (sc_s x) 0.5)
                 (scoreAll (p0 :: rest) parsed min span)).
  set (sorted := sort (compareScored parsed) kept).
  (* all.map(p => p.price) *)
  assert (S1 : Store.map_prices all (Store.mkStore a sw h)
               = Some (length a, Store.mkStore (a ++ [N]) sw h)).
  { unfold Store.map_prices. pose proof (Hit []) as H0.
    rewrite app_nil_r in H0. rewrite (bind_Some _ _ _ _ _ H0). reflexivity. }
  rewrite (bind_Some _ _ _ _ _ S1).
  assert (S2 : Store.Math_min_of (length a) (Store.mkStore (a ++ [N]) sw h)
               = Some (min, Store.mkStore (a ++ [N]) sw h)).
  { unfold Store.Math_min_of, Store.numbers, Store.bind, Store.load. cbn.
    rewrite nth_error_app2, Nat.sub_diag by lia. reflexivity. }
  rewrite (bind_Some _ _ _ _ _ S2).
  assert (S3 : Store.Math_max_of (length a) (Store.mkStore (a ++ [N]) sw h)
               = Some (max, Store.mkStore (a ++ [N]) sw h)).
  { unfold Store.Math_max_of, Store.numbers, Store.bind, Store.load. cbn.
    rewrite nth_error_app2, Nat.sub_diag by lia. reflexivity. }
  rewrite (bind_Some _ _ _ _ _ S3). cbv zeta. fold span.
  (* .map(p => { ... }) *)
  assert (S4 : Store.map_candidates
                 (fun p =>
                    Store.bind (Store.scoreProduct p parsed ((price p - min) / span))
                      (fun s0 => Store.ret (mkScored p s0 ((price p - min) / span))))
                 all (Store.mkStore (a ++ [N]) sw h)
               = Some (length a + 1, Store.mkStore (a ++ [N; C1]) sw h)%nat).
  { unfold Store.map_candidates. rewrite (bind_Some _ _ _ _ _ (Hit [N])).
    rewrite (bind_Some _ _ _ _ _
               (store_for_each_score (p0 :: rest) parsed min span
                  (Store.mkStore (a ++ [N]) sw h) Ih)).
    unfold Store.alloc. cbn [Store.arrays Store.stopwords Store.hints].
    rewrite length_app, <- app_assoc. reflexivity. }
  rewrite (bind_Some _ _ _ _ _ S4).
  (* .filter(x => x.s > 0.5) *)
  assert (S5 : Store.filter_candidates (fun x => Qgt_bool (sc_s x) 0.5)
                 (length a + 1)%nat (Store.mkStore (a ++ [N; C1]) sw h)
               = Some (length a + 2,
                       Store.mkStore (a ++ [N; C1; Store.Candidates kept]) sw h)%nat).
  { unfold Store.filter_candidates, Store.candidates, Store.bind, Store.load.
    cbn [Store.arrays]. rewrite nth_error_fresh. cbn.
    unfold Store.alloc. cbn [Store.arrays Store.stopwords Store.hints].
    rewrite length_app, <- app_assoc. reflexivity. }
  rewrite (bind_Some _ _ _ _ _ S5).
  (* .sort(cmp) *)
  assert (S6 : Store.sort_in_place (compareScored parsed) (length a + 2)%nat
                 (Store.mkStore (a ++ [N; C1; Store.Candidates kept]) sw h)
               = Some (length a + 2,
                       Store.mkStore (a ++ [N; C1; Store.Candidates sorted]) sw h)%nat).
  { unfold Store.sort_in_place, Store.candidates, Store.bind, Store.load,
      Store.write.
    cbn [Store.arrays Store.stopwords Store.hints].
    rewrite nth_error_fresh. cbn [nth_error Store.ret].
    cbn [Store.arrays Store.stopwords Store.hints].
    replace (Nat.ltb (length a + 2) (length (a ++ [N; C1; Store.Candidates kept])))
      with true.
    2:{ symmetry. apply Nat.ltb_lt. rewrite length_app. simpl. lia. }
    rewrite update_fresh. reflexivity. }
  rewrite (bind_Some _ _ _ _ _ S6).
  (* .map(x => x.p) *)
  assert (S7 : Store.map_items sc_p (length a + 2)%nat
                 (Store.mkStore (a ++ [N; C1; Store.Candidates sorted]) sw h)
               = Some (length a + 3,
                       Store.mkStore
                         (a ++ [N; C1; Store.Candidates sorted;
                                Store.Items (map sc_p sorted)]) sw h)%nat).
  { unfold Store.map_items, Store.candidates, Store.bind, Store.load.
    cbn [Store.arrays]. rewrite nth_error_fresh. cbn.
    unfold Store.alloc. cbn [Store.arrays Store.stopwords Store.hints].
    rewrite length_app, <- app_assoc. reflexivity. }
  rewrite (bind_Some _ _ _ _ _ S7).
  set (ext := [N; C1; Store.Candidates sorted; Store.Items (map sc_p sorted)]).
  assert (S8 : Store.length_of (length a + 3)%nat (Store.mkStore (a ++ ext) sw h)
               = Some (length (map sc_p sorted), Store.mkStore (a ++ ext) sw h)).
  { unfold Store.length_of, Store.bind, Store.load. cbn [Store.arrays].
    rewrite nth_error_fresh. reflexivity. }
  rewrite (bind_Some _ _ _ _ _ S8).
  assert (R : applyAIQuery (p0 :: rest) q
              = match map sc_p sorted with
                | [] => p0 :: rest
                | _ :: _ => map sc_p sorted
                end) by reflexivity.
  rewrite R.
  destruct (map sc_p sorted) as [|x xs] eqn:Es; cbn [length Nat.eqb].
  - exists all, (Store.mkStore (a ++ ext) sw h).
    split; [reflexivity|]. split; [|apply preserved_app].
    unfold Store.items_at. cbn. rewrite nth_error_app1, Ea by exact Hlt.
    reflexivity.
  - exists (length a + 3)%nat, (Store.mkStore (a ++ ext) sw h).
    split; [reflexivity|]. split; [|apply preserved_app].
    unfold Store.items_at. cbn [Store.arrays]. rewrite nth_error_fresh.
    subst ext. reflexivity.
Qed.

(** C8.  [parseQuery] and [applyAIQuery] are pure.  Take any two stores
    with the tables intact and, in each, an array of the same items - the
    second store may be the one the first call leaves.  For one query,
    [parseQuery] returns one constraint set in both and changes neither
    store; [applyAIQuery] returns, in both, an array of the same items,
    those the function [applyAIQuery] gives; and every object of either
    store, the array of the items and the tables included, is after the
    call what it was before.  The items returned are [rank] of the items
    and that constraint set. *)
Theorem interpret_and_rank_are_pure
    (s1 s2 : Store.store) (all1 all2 : Store.ref) (q : jsstring)
    (l : list Product) :
  Store.intact s1 -> Store.intact s2 ->
  Store.items_at s1 all1 = Some l -> Store.items_at s2 all2 = Some l ->
  exists c r1 s1' r2 s2' out,
    Store.parseQuery q s1 = Some (c, s1) /\
    Store.parseQuery q s2 = Some (c, s2) /\
    Store.applyAIQuery all1 q s1 = Some (r1, s1') /\
    Store.applyAIQuery all2 q s2 = Some (r2, s2') /\
    Store.items_at s1' r1 = Some out /\
    Store.items_at s2' r2 = Some out /\
    Store.preserved s1 s1' /\ Store.preserved s2 s2' /\
    c = parseQuery q /\ out = applyAIQuery l q /\ out = rank l c.
Proof.
  intros I1 I2 H1 H2.
  destruct (store_applyAIQuery s1 all1 q l I1 H1) as [r1 [s1' [A1 [B1 P1]]]].
  destruct (store_applyAIQuery s2 all2 q l I2 H2) as [r2 [s2' [A2 [B2 P2]]]].
  exists (parseQuery q), r1, s1', r2, s2', (applyAIQuery l q).
  split; [apply store_parseQuery, I1|].
  split; [apply store_parseQuery, I2|].
  split; [exact A1|]. split; [exact A2|].
  split; [exact B1|]. split; [exact B2|].
  split; [exact P1|]. split; [exact P2|].
  split; [reflexivity|]. split; [reflexivity | apply applyAIQuery_rank].
Qed.

Lemma interpret_and_rank_are_pure_witness :
  Store.intact Samples.shop /\ Store.intact Samples.shop_later /\
  Store.items_at Samples.shop 0%nat = Some Data.products /\
  Store.items_at Samples.shop_later 0%nat = Some Data.products /\
  exists c r1 s1' r2 s2' out,
    Store.parseQuery (lit "running shoes") Samples.shop = Some (c, Samples.shop) /\
    Store.parseQuery (lit "running shoes") Samples.shop_later
    = Some (c, Samples.shop_later) /\
    Store.applyAIQuery 0%nat (lit "running shoes") Samples.shop = Some (r1, s1') /\
    Store.applyAIQuery 0%nat (lit "running shoes") Samples.shop_later
    = Some (r2, s2') /\
    Store.items_at s1' r1 = Some out /\
    Store.items_at s2' r2 = Some out /\
    Store.preserved Samples.shop s1' /\ Store.preserved Samples.shop_later s2' /\
    c = parseQuery (lit "running shoes") /\
    out = applyAIQuery Data.products (lit "running shoes") /\
    out = rank Data.products c.
Proof.
  assert (I1 : Store.intact Samples.shop) by (split; reflexivity).
  assert (I2 : Store.intact Samples.shop_later)
    by (split; vm_compute; reflexivity).
  assert (H1 : Store.items_at Samples.shop 0%nat = Some Data.products)
    by reflexivity.
  assert (H2 : Store.items_at Samples.shop_later 0%nat = Some Data.products)
    by (vm_compute; reflexivity).
  split; [exact I1|]. split; [exact I2|]. split; [exact H1|].
  split; [exact H2|].
  exact (interpret_and_rank_are_pure Samples.shop Samples.shop_later 0%nat 0%nat
           (lit "running shoes") Data.products I1 I2 H1 H2).
Defined.

(* ================================================================== *)
(** ** Equality of strings *)

Lemma ascii_eqb_eq (a b : ascii) : ascii_eqb a b = true <-> a = b.
Proof.
  unfold ascii_eqb, code. rewrite N.eqb_eq. split.
  - intro H. rewrite <- (ascii_N_embedding a), <- (ascii_N_embedding b), H.
    reflexivity.
  - intros ->. reflexivity.
Qed.

Lemma string_eqb_eq (a b : jsstring) : string_eqb a b = true <-> a = b.
Proof.
  revert b. induction a as [|x a IH]; intros [|y b]; simpl;
    try (split; [discriminate | discriminate]).
  - tauto.
  - rewrite andb_true_iff, ascii_eqb_eq, IH. split.
    + intros [-> ->]. reflexivity.
    + intro H. injection H as -> ->. tauto.
Qed.

Lemma has_In (l : list jsstring) (w : jsstring) : has l w = true <-> In w l.
Proof.
  unfold has. rewrite existsb_exists. split.
  - intros [x [Hx E]]. apply string_eqb_eq in E. subst x. exact Hx.
  - intro H. exists w. split; [exact H | apply string_eqb_eq; reflexivity].
Qed.

Lemma has_false (l : list jsstring) (w : jsstring) :
  has l w = false <-> ~ In w l.
Proof.
  rewrite <- has_In. destruct (has l w); split; congruence.
Qed.

(* ================================================================== *)
(** ** The component: categories, facets and the final list *)

Lemma Set_add_In (acc : list jsstring) (c x : jsstring) :
  In x (Ui.Set_add acc c) <-> In x acc \/ x = c.
Proof.
  unfold Ui.Set_add. destruct (has acc c) eqn:E.
  - apply has_In in E. split; [tauto|]. intros [H | ->]; assumption.
  - rewrite in_app_iff. simpl. split; intros [H | H]; try tauto.
    + destruct H as [<- | []]. tauto.
    + subst x. tauto.
Qed.

Lemma Set_add_NoDup (acc : list jsstring) (c : jsstring) :
  NoDup acc -> NoDup (Ui.Set_add acc c).
Proof.
  intro H. unfold Ui.Set_add. destruct (has acc c) eqn:E; [exact H|].
  apply has_false in E.
  apply NoDup_rev in H. rewrite <- (rev_involutive (acc ++ [c])).
  apply NoDup_rev. rewrite rev_app_distr. simpl. constructor; [|exact H].
  rewrite <- in_rev. exact E.
Qed.

Lemma fold_Set_add (l acc : list jsstring) :
  NoDup acc ->
  NoDup (fold_left Ui.Set_add l acc) /\
  (forall x, In x (fold_left Ui.Set_add l acc) <-> In x acc \/ In x l).
Proof.
  revert acc. induction l as [|c l IH]; intros acc H; simpl.
  - split; [exact H | intro x; tauto].
  - destruct (IH _ (Set_add_NoDup acc c H)) as [N I]. split; [exact N|].
    intro x. rewrite I, Set_add_In. intuition congruence.
Qed.

Lemma fold_Set_add_fresh (l acc : list jsstring) :
  NoDup (acc ++ l) -> fold_left Ui.Set_add l acc = acc ++ l.
Proof.
  revert acc. induction l as [|c l IH]; intros acc H; simpl.
  - symmetry. apply app_nil_r.
  - assert (E : has acc c = false).
    { apply has_false. intro Hin. apply NoDup_remove_2 in H.
      apply H. apply in_or_app. left. exact Hin. }
    unfold Ui.Set_add at 2. rewrite E.
    rewrite IH; rewrite <- app_assoc; [reflexivity | exact H].
Qed.

(** X1.  [categories] lists every category of the catalog once: it has no
    repeats, it holds exactly the categories of the products, and when
    the categories of the products are already distinct it lists them in
    catalog order. *)
Theorem categories_distinct_and_complete (products : list Product) :
  NoDup (Ui.categories products) /\
  (forall c, In c (Ui.categories products) <->
             exists p, In p products /\ category p = c) /\
  (NoDup (map category products) ->
   Ui.categories products = map category products).
Proof.
  unfold Ui.categories, Ui.Array_from_Set.
  destruct (fold_Set_add (map category products) [] (NoDup_nil _)) as [N I].
  split; [exact N|]. split.
  - intro c. rewrite I, in_map_iff. simpl. split.
    + intros [[] | [p [E H]]]. exists p. tauto.
    + intros [p [H E]]. right. exists p. tauto.
  - intro H. apply (fold_Set_add_fresh _ []). exact H.
Qed.

Lemma ranked_perm (p0 : Product) (rest : list Product) (parsed : Query) :
  Permutation
    (map sc_p (sort (compareScored parsed) (survivors p0 rest parsed)))
    (filter (fun p => Qgt_bool (scoreOf p0 rest parsed p) 0.5) (p0 :: rest)).
Proof.
  eapply perm_trans; [apply Permutation_map, sort_perm|].
  unfold survivors, scoreAll.
  rewrite (map_filter_map _ sc_p) by reflexivity.
  apply Permutation_refl.
Qed.

Lemma filter_NoDup {A : Type} (f : A -> bool) (l : list A) :
  NoDup l -> NoDup (filter f l).
Proof.
  induction 1 as [|a l Hin Hnd IH]; simpl.
  - constructor.
  - destruct (f a); [|exact IH]. constructor; [|exact IH].
    intro H. apply filter_In in H. tauto.
Qed.

Lemma filter_length_le {A : Type} (f : A -> bool) (l : list A) :
  (length (filter f l) <= length l)%nat.
Proof.
  induction l as [|a l IH]; simpl; [lia|].
  destruct (f a); simpl; lia.
Qed.

(** What [rank] returns is the input list or a reordering of some of its
    items. *)
Lemma rank_selects (all : list Product) (parsed : Query) :
  rank all parsed = all \/
  exists f, Permutation (rank all parsed) (filter f all).
Proof.
  destruct all as [|p0 rest]; [left; reflexivity|].
  rewrite rank_cons. cbv zeta.
  pose proof (ranked_perm p0 rest parsed) as P.
  destruct (map sc_p (sort (compareScored parsed) (survivors p0 rest parsed)))
    as [|a l].
  - left. reflexivity.
  - right. eexists. exact P.
Qed.

Lemma applyAIQuery_incl (all : list Product) (q : jsstring) (p : Product) :
  In p (applyAIQuery all q) -> In p all.
Proof.
  rewrite applyAIQuery_rank.
  destruct (rank_selects all (parseQuery q)) as [-> | [f P]]; [auto|].
  intro Hp. eapply Permutation_in in Hp; [|exact P].
  apply filter_In in Hp. tauto.
Qed.

(** X2.  [applyAIQuery] only selects and reorders: every item of the
    result is an item of the input, the result is no longer than the
    input, and it repeats no item that the input does not repeat. *)
Theorem applyAIQuery_selects (all : list Product) (q : jsstring) :
  (forall p, In p (applyAIQuery all q) -> In p all) /\
  (length (applyAIQuery all q) <= length all)%nat /\
  (NoDup all -> NoDup (applyAIQuery all q)).
Proof.
  rewrite applyAIQuery_rank.
  destruct (rank_selects all (parseQuery q)) as [-> | [f P]].
  - repeat split; auto.
  - repeat split.
    + intros p Hp. eapply Permutation_in in Hp; [|exact P].
      apply filter_In in Hp. tauto.
    + rewrite (Permutation_length P). apply filter_length_le.
    + intro H. eapply Permutation_NoDup; [apply Permutation_sym, P|].
      apply filter_NoDup, H.
Qed.

(** X3.  A text query never empties the list: [applyAIQuery] returns the
    empty list only for the empty list, so [finalList] is empty exactly
    when the facet filters leave nothing. *)
Theorem finalList_empty_iff (products : list Product) (category : jsstring)
    (maxPrice minRating : option Q) (nlpQuery : jsstring) :
  (forall all, applyAIQuery all nlpQuery = [] <-> all = []) /\
  (Ui.finalList products category maxPrice minRating nlpQuery = [] <->
   Ui.baseFiltered products category maxPrice minRating = []).
Proof.
  assert (H : forall all, applyAIQuery all nlpQuery = [] <-> all = []).
  { intro all. destruct all as [|p0 rest]; [tauto|].
    rewrite applyAIQuery_rank. split; [|discriminate].
    intro E. exfalso. exact (rank_not_empty _ _ _ E). }
  split; [exact H|].
  unfold Ui.finalList. destruct (Nat.eqb _ 0); [tauto | apply H].
Qed.

Lemma category_test (category c : jsstring) :
  negb (string_eqb category []) && negb (string_eqb c category) = false <->
  (category <> [] -> c = category).
Proof.
  destruct (string_eqb category []) eqn:E0; simpl.
  - apply string_eqb_eq in E0. split; [congruence | reflexivity].
  - assert (Hne : category <> [])
      by (intro H; apply string_eqb_eq in H; congruence).
    rewrite negb_false_iff, string_eqb_eq. tauto.
Qed.

Lemma ceiling_test (maxPrice : option Q) (x : Q) :
  match maxPrice with
  | Some m => Qgt_bool x m
  | None => false
  end = false <->
  (forall m, maxPrice = Some m -> x <= m).
Proof.
  destruct maxPrice as [a|].
  - rewrite Qgt_bool_false_iff. split.
    + intros H m Hm. injection Hm as <-. exact H.
    + intro H. apply H. reflexivity.
  - split; [discriminate | reflexivity].
Qed.

Lemma floor_test (minRating : option Q) (x : Q) :
  match minRating with
  | Some m => Qgt_bool m x
  | None => false
  end = false <->
  (forall m, minRating = Some m -> m <= x).
Proof.
  destruct minRating as [a|].
  - rewrite Qgt_bool_false_iff. split.
    + intros H m Hm. injection Hm as <-. exact H.
    + intro H. apply H. reflexivity.
  - split; [discriminate | reflexivity].
Qed.

Lemma keeps_spec (category : jsstring) (maxPrice minRating : option Q)
    (p : Product) :
  Ui.keeps category maxPrice minRating p = true <->
  (category <> [] -> App.category p = category) /\
  (forall m, maxPrice = Some m -> price p <= m) /\
  (forall m, minRating = Some m -> m <= rating p).
Proof.
  rewrite <- category_test, <- ceiling_test, <- floor_test.
  unfold Ui.keeps.
  destruct (negb (string_eqb category [])
            && negb (string_eqb (App.category p) category));
    [intuition discriminate|].
  destruct (match maxPrice with Some m => Qgt_bool (price p) m | None => false end);
    [intuition discriminate|].
  destruct (match minRating with Some m => Qgt_bool m (rating p) | None => false end);
    intuition discriminate.
Qed.

(** X4.  Every item [finalList] shows is an item of the catalog that
    passes the three facet filters, whatever the text query: the chosen
    category, a price at most the ceiling and a rating at least the
    floor. *)
Theorem finalList_respects_facets (products : list Product)
    (category : jsstring) (maxPrice minRating : option Q)
    (nlpQuery : jsstring) (p : Product) :
  In p (Ui.finalList products category maxPrice minRating nlpQuery) ->
  In p products /\
  (category <> [] -> App.category p = category) /\
  (forall m, maxPrice = Some m -> price p <= m) /\
  (forall m, minRating = Some m -> m <= rating p).
Proof.
  intro H.
  assert (Hb : In p (Ui.baseFiltered products category maxPrice minRating)).
  { unfold Ui.finalList in H. destruct (Nat.eqb _ 0); [exact H|].
    apply (applyAIQuery_incl _ nlpQuery), H. }
  unfold Ui.baseFiltered in Hb. apply filter_In in Hb.
  destruct Hb as [Hin Hk]. split; [exact Hin|]. apply keeps_spec, Hk.
Qed.

Lemma finalList_respects_facets_witness :
  In Samples.daypack
     (Ui.finalList Data.products (lit "Bags") (Some 60) None (lit "pack")) /\
  In Samples.daypack Data.products /\
  price Samples.daypack <= 60.
Proof.
  assert (H : In Samples.daypack
                (Ui.finalList Data.products (lit "Bags") (Some 60) None
                              (lit "pack")))
    by (vm_compute; left; reflexivity).
  split; [exact H|].
  destruct (finalList_respects_facets _ _ _ _ _ _ H) as [Hin [_ [Hmax _]]].
  split; [exact Hin | exact (Hmax 60 eq_refl)].
Defined.

(* ================================================================== *)
(** ** The stars of a rating *)

Lemma slice_stars (n : Z) :
  (0 <= n <= 5)%Z ->
  Ui.slice (repeat Ui.STAR 5) 0 n = repeat Ui.STAR (Z.to_nat n).
Proof.
  intro H.
  assert (E : (n = 0 \/ n = 1 \/ n = 2 \/ n = 3 \/ n = 4 \/ n = 5)%Z) by lia.
  destruct E as [-> | [-> | [-> | [-> | [-> | ->]]]]]; reflexivity.
Qed.

Lemma shown_stars (n : nat) (t : Ui.ustring) :
  Ui.shown (repeat Ui.STAR n ++ t) == inject_Z (Z.of_nat n) + Ui.shown t.
Proof.
  induction n as [|n IH].
  - simpl. unfold inject_Z. lra.
  - change (repeat Ui.STAR (S n) ++ t) with (Ui.STAR :: repeat Ui.STAR n ++ t).
    unfold Ui.shown at 1. cbn [fold_right].
    change (fold_right _ 0 (repeat Ui.STAR n ++ t))
      with (Ui.shown (repeat Ui.STAR n ++ t)).
    rewrite IH. rewrite Nat2Z.inj_succ. unfold Z.succ.
    rewrite inject_Z_plus. simpl (Ui.STAR =? Ui.STAR)%N. cbv iota.
    change (inject_Z 1) with 1. lra.
Qed.

(** X5.  For a rating from 0 up to, but not, 6, [renderStars] shows one
    star for each whole point and a half sign exactly when the rest is at
    least one half: what it shows is the rating rounded down to a
    multiple of one half. *)
Theorem renderStars_rounds_down (rating : Q) :
  0 <= rating -> rating < 6 ->
  Ui.renderStars rating
  = repeat Ui.STAR (Z.to_nat (Qfloor rating))
    ++ (if Qle_bool 0.5 (rating - inject_Z (Qfloor rating))
        then [Ui.HALF] else []) /\
  Ui.shown (Ui.renderStars rating) <= rating /\
  rating < Ui.shown (Ui.renderStars rating) + 0.5.
Proof.
  intros H0 H6.
  pose proof (Qfloor_le rating) as Hlo.
  pose proof (Qlt_floor rating) as Hhi.
  assert (Hf : (0 <= Qfloor rating <= 5)%Z).
  { split.
    - change 0%Z with (Qfloor 0). apply Qfloor_resp_le, H0.
    - assert (Qfloor rating < 6)%Z; [|lia].
      rewrite Zlt_Qlt. eapply Qle_lt_trans; [exact Hlo | exact H6]. }
  assert (E : Ui.renderStars rating
              = repeat Ui.STAR (Z.to_nat (Qfloor rating))
                ++ (if Qle_bool 0.5 (rating - inject_Z (Qfloor rating))
                    then [Ui.HALF] else [])).
  { unfold Ui.renderStars. cbv zeta. rewrite slice_stars by exact Hf.
    reflexivity. }
  split; [exact E|]. rewrite E, shown_stars.
  rewrite Z2Nat.id by lia. rewrite inject_Z_plus in Hhi.
  change (inject_Z 1) with 1 in Hhi.
  destruct (Qle_bool 0.5 (rating - inject_Z (Qfloor rating))) eqn:Eh.
  - apply Qle_bool_iff in Eh.
    change (Ui.shown [Ui.HALF]) with (0.5 + 0). split; lra.
  - assert (Hlt : rating - inject_Z (Qfloor rating) < 0.5).
    { apply Qnot_le_lt. intro Hle. apply Qle_bool_iff in Hle. congruence. }
    change (Ui.shown []) with 0. split; lra.
Qed.

Lemma renderStars_rounds_down_witness :
  0 <= 4.7 /\ 4.7 < 6 /\
  Ui.renderStars 4.7 = [Ui.STAR; Ui.STAR; Ui.STAR; Ui.STAR; Ui.HALF] /\
  Ui.shown (Ui.renderStars 4.7) <= 4.7 /\
  4.7 < Ui.shown (Ui.renderStars 4.7) + 0.5.
Proof.
  assert (H0 : 0 <= 4.7) by (vm_compute; discriminate).
  assert (H6 : 4.7 < 6) by (vm_compute; reflexivity).
  split; [exact H0|]. split; [exact H6|].
  exact (renderStars_rounds_down 4.7 H0 H6).
Defined.

Lemma In_firstn {A : Type} (n : nat) (l : list A) (x : A) :
  In x (firstn n l) -> In x l.
Proof.
  intro H. rewrite <- (firstn_skipn n l). apply in_or_app. left. exact H.
Qed.

Lemma In_skipn {A : Type} (n : nat) (l : list A) (x : A) :
  In x (skipn n l) -> In x l.
Proof.
  intro H. rewrite <- (firstn_skipn n l). apply in_or_app. right. exact H.
Qed.

Lemma all_equal_repeat {A : Type} (a : A) (l : list A) :
  (forall x, In x l -> x = a) -> l = repeat a (length l).
Proof.
  intro H. induction l as [|x l IH]; [reflexivity|].
  simpl. rewrite (H x (or_introl eq_refl)). f_equal.
  apply IH. intros y Hy. apply H. right. exact Hy.
Qed.

(** X6.  Whatever the rating, negative or beyond five, [renderStars]
    shows at most five stars and then at most one half sign, and nothing
    else. *)
Theorem renderStars_at_most_six (rating : Q) :
  (exists n, (n <= 5)%nat /\
     Ui.renderStars rating
     = repeat Ui.STAR n
       ++ (if Qle_bool 0.5 (rating - inject_Z (Qfloor rating))
           then [Ui.HALF] else [])) /\
  (count_occ N.eq_dec (Ui.renderStars rating) Ui.STAR <= 5)%nat /\
  (count_occ N.eq_dec (Ui.renderStars rating) Ui.HALF <= 1)%nat /\
  (length (Ui.renderStars rating) <= 6)%nat.
Proof.
  unfold Ui.renderStars, Ui.slice. cbv zeta.
  set (n := Z.to_nat _). set (k := Z.to_nat _).
  assert (L : (length (firstn n (skipn k (repeat Ui.STAR 5))) <= 5)%nat).
  { rewrite length_firstn, length_skipn, repeat_length. lia. }
  assert (S : forall x, In x (firstn n (skipn k (repeat Ui.STAR 5))) ->
                        x = Ui.STAR).
  { intros x Hin. apply In_firstn, In_skipn, repeat_spec in Hin. exact Hin. }
  assert (C : count_occ N.eq_dec (firstn n (skipn k (repeat Ui.STAR 5))) Ui.HALF
              = 0%nat).
  { apply count_occ_not_In. intro Hin. apply S in Hin. discriminate Hin. }
  pose proof (count_occ_bound N.eq_dec Ui.STAR
                (firstn n (skipn k (repeat Ui.STAR 5)))) as B.
  apply all_equal_repeat in S.
  rewrite length_app, !count_occ_app, C.
  set (body := firstn n (skipn k (repeat Ui.STAR 5))) in *. clearbody body.
  split; [exists (length body); split; [exact L | rewrite <- S; reflexivity]|].
  destruct (Qle_bool 0.5 _); simpl; repeat split; lia.
Qed.

(* ================================================================== *)
(** ** The keywords of a query *)

Lemma split_go_chars (s cur : jsstring) (in_sep : bool) (w : jsstring)
    (c : ascii) :
  In w (split_go in_sep cur s) -> In c w ->
  In c cur \/ (In c s /\ is_space c = false).
Proof.
  revert cur in_sep. induction s as [|a s IH]; intros cur in_sep Hw Hc; simpl in Hw.
  - destruct Hw as [<- | []]. left. apply in_rev. exact Hc.
  - destruct (is_space a) eqn:Ea.
    + destruct in_sep.
      * destruct (IH _ _ Hw Hc) as [[] | [H1 H2]]. right. simpl. tauto.
      * destruct Hw as [<- | Hw].
        -- left. apply in_rev. exact Hc.
        -- destruct (IH _ _ Hw Hc) as [[] | [H1 H2]]. right. simpl. tauto.
    + destruct (IH _ _ Hw Hc) as [[<- | H] | [H1 H2]].
      * right. simpl. tauto.
      * left. exact H.
      * right. simpl. tauto.
Qed.

Lemma split_spaces_chars (s w : jsstring) (c : ascii) :
  In w (split_spaces s) -> In c w -> In c s /\ is_space c = false.
Proof.
  intros Hw Hc. destruct (split_go_chars s [] false w c Hw Hc) as [[] | H].
  exact H.
Qed.

Lemma rmatch_Bol {A : Type} (ic : bool) (k : cursor -> option A)
    (s : jsstring) (g : list (nat * jsstring)) :
  rmatch ic Bol k (Cursor None s g) = k (Cursor None s g).
Proof. reflexivity. Qed.

Lemma rmatch_Eol {A : Type} (ic : bool) (k : cursor -> option A)
    (b : option ascii) (g : list (nat * jsstring)) :
  rmatch ic Eol k (Cursor b [] g) = k (Cursor b [] g).
Proof. reflexivity. Qed.

(** A string of digits is a number to [re_pureNumber]. *)
Lemma pureNumber_digits (w : jsstring) :
  all_digits w = true -> test false re_pureNumber w = true.
Proof.
  intro H. destruct (all_digits_spec w H) as [Hne Hall].
  unfold test, exec.
  rewrite (exec_from_here false re_pureNumber None w []); [reflexivity|].
  unfold re_pureNumber. rewrite rmatch_Seq, rmatch_Bol.
  rewrite rmatch_Seq. rewrite <- (app_nil_r w).
  apply rmatch_Plus_greedy; [exact Hne | exact Hall | exact I |].
  rewrite rmatch_Seq, rmatch_Opt_skip; reflexivity.
Qed.

Lemma parseQuery_keywords (q : jsstring) :
  keywords (parseQuery q) = keywords_of (trim q).
Proof.
  unfold parseQuery.
  destruct (exec true re_between (trim q)); [reflexivity|].
  destruct (exec true re_under (trim q)); [reflexivity|].
  destruct (exec true re_over (trim q)); reflexivity.
Qed.

Lemma token_chars (s f : jsstring) (c : ascii) :
  In f (split_spaces (replace_punctuation (toLowerCase s))) ->
  In c (remove_hyphens f) ->
  is_lower c || is_digit c = true.
Proof.
  intros Hf Hc. unfold remove_hyphens in Hc. apply filter_In in Hc.
  destruct Hc as [Hc Hh]. apply negb_true_iff in Hh.
  destruct (split_spaces_chars _ _ _ Hf Hc) as [Hsrc Hsp].
  unfold replace_punctuation in Hsrc. apply in_map_iff in Hsrc.
  destruct Hsrc as [a [Ea _]].
  destruct (keep_char a) eqn:Ek.
  - subst a. unfold keep_char in Ek. rewrite Hsp, Hh in Ek.
    rewrite !orb_false_r in Ek. exact Ek.
  - subst c. discriminate Hsp.
Qed.


(** X7.  Every keyword [parseQuery] returns is a non-empty string of the
    letters a-z and the digits, is not a stop word and is not a string
    of digits only. *)
Theorem keywords_are_clean (q w : jsstring) :
  In w (keywords (parseQuery q)) ->
  w <> [] /\
  forallb (fun c => is_lower c || is_digit c) w = true /\
  has STOPWORDS w = false /\
  all_digits w = false.
Proof.
  rewrite parseQuery_keywords. unfold keywords_of. intro H.
  apply filter_In in H. destruct H as [Hin Hf].
  apply andb_true_iff in Hf. destruct Hf as [Hf Hnum].
  apply andb_true_iff in Hf. destruct Hf as [Hne Hstop].
  apply negb_true_iff in Hne, Hstop, Hnum.
  split; [intro E; subst w; discriminate Hne|].
  split; [|split; [exact Hstop|]].
  - apply in_map_iff in Hin. destruct Hin as [f [<- Hf]].
    apply forallb_forall. intros c Hc. exact (token_chars _ _ _ Hf Hc).
  - destruct (all_digits w) eqn:E; [|reflexivity].
    rewrite (pureNumber_digits w E) in Hnum. discriminate Hnum.
Qed.

Lemma keywords_are_clean_witness :
  In (lit "jacket") (keywords (parseQuery (lit "Warm JACKET, under $120!"))) /\
  lit "jacket" <> [] /\
  has STOPWORDS (lit "jacket") = false /\
  all_digits (lit "jacket") = false.
Proof.
  assert (H : In (lit "jacket")
                (keywords (parseQuery (lit "Warm JACKET, under $120!"))))
    by (vm_compute; right; left; reflexivity).
  split; [exact H|].
  destruct (keywords_are_clean _ _ H) as [H1 [_ [H3 H4]]].
  split; [exact H1|]. split; [exact H3 | exact H4].
Defined.

(* ================================================================== *)
(** ** White space around a query *)

Lemma trimStart_spaces (w s : jsstring) :
  forallb is_space w = true -> trimStart (w ++ s) = trimStart s.
Proof.
  induction w as [|c w IH]; intro H; [reflexivity|].
  simpl in H. apply andb_true_iff in H. destruct H as [Hc Hw].
  simpl. rewrite Hc. apply IH, Hw.
Qed.

Lemma trimStart_all_spaces (w : jsstring) :
  forallb is_space w = true -> trimStart w = [].
Proof.
  intro H. rewrite <- (app_nil_r w). rewrite trimStart_spaces by exact H.
  reflexivity.
Qed.

Lemma trimStart_app_spaces (s w : jsstring) :
  forallb is_space w = true ->
  trimStart (s ++ w) = [] /\ trimStart s = [] \/
  trimStart (s ++ w) = trimStart s ++ w.
Proof.
  intro H. induction s as [|c s IH].
  - left. simpl. split; [apply trimStart_all_spaces, H | reflexivity].
  - simpl. destruct (is_space c); [exact IH|]. right. reflexivity.
Qed.

Lemma trimEnd_spaces (s w : jsstring) :
  forallb is_space w = true -> trimEnd (s ++ w) = trimEnd s.
Proof.
  intro H. unfold trimEnd. rewrite rev_app_distr, trimStart_spaces.
  - reflexivity.
  - rewrite forallb_forall in *. intros c Hc. apply H, in_rev, Hc.
Qed.

Lemma trim_padding (w1 q w2 : jsstring) :
  forallb is_space w1 = true -> forallb is_space w2 = true ->
  trim (w1 ++ q ++ w2) = trim q.
Proof.
  intros H1 H2. unfold trim. rewrite trimStart_spaces by exact H1.
  destruct (trimStart_app_spaces q w2 H2) as [[-> ->] | ->].
  - reflexivity.
  - apply trimEnd_spaces, H2.
Qed.

(** X8.  White space before and after the query changes nothing:
    [parseQuery] and [applyAIQuery] answer for the padded query what they
    answer for the query. *)
Theorem padding_is_ignored (w1 q w2 : jsstring) (all : list Product) :
  forallb is_space w1 = true -> forallb is_space w2 = true ->
  parseQuery (w1 ++ q ++ w2) = parseQuery q /\
  applyAIQuery all (w1 ++ q ++ w2) = applyAIQuery all q.
Proof.
  intros H1 H2.
  assert (E : parseQuery (w1 ++ q ++ w2) = parseQuery q).
  { unfold parseQuery. rewrite (trim_padding w1 q w2 H1 H2). reflexivity. }
  split; [exact E|]. rewrite !applyAIQuery_rank, E. reflexivity.
Qed.

Lemma padding_is_ignored_witness :
  forallb is_space (lit "  ") = true /\
  forallb is_space (lit " ") = true /\
  parseQuery (lit "  bags under 80 ") = parseQuery (lit "bags under 80").
Proof.
  assert (H1 : forallb is_space (lit "  ") = true) by reflexivity.
  assert (H2 : forallb is_space (lit " ") = true) by reflexivity.
  split; [exact H1|]. split; [exact H2|].
  exact (proj1 (padding_is_ignored (lit "  ") (lit "bags under 80") (lit " ")
                                   [] H1 H2)).
Defined.

(* ================================================================== *)
(** ** The matcher finds matches only *)

Lemma star_sound {A : Type} (p : ascii -> bool) (k : cursor -> option A)
    (s : jsstring) (b : option ascii) (g : list (nat * jsstring)) (v : A) :
  star p k b s g = Some v ->
  exists w s', s = w ++ s' /\ forallb p w = true /\
               k (Cursor (prev_after b w) s' g) = Some v.
Proof.
  revert b. induction s as [|c s IH]; intros b H; simpl in H.
  - exists [], []. auto.
  - destruct (p c) eqn:Ec.
    + destruct (star p k (Some c) s g) as [v'|] eqn:E.
      * injection H as ->. destruct (IH _ E) as [w [s' [-> [Hw Hk]]]].
        exists (c :: w), s'. simpl. rewrite Ec, Hw. auto.
      * exists [], (c :: s). auto.
    + exists [], (c :: s). auto.
Qed.

Lemma cursor_eta (x : cursor) : Cursor (before x) (input x) (groups x) = x.
Proof. destruct x. reflexivity. Qed.

(** Whatever [rmatch] answers, it answers by a match: the continuation
    was called at the end of one. *)
Lemma rmatch_sound {A : Type} (ic : bool) (r : regex)
    (k : cursor -> option A) (x : cursor) (v : A) :
  rmatch ic r k x = Some v ->
  exists y, Matches ic r x y /\ k y = Some v.
Proof.
  revert k x. induction r as [| c | p | r1 IH1 r2 IH2 | r1 IH1 r2 IH2
                              | r1 IH1 | p | p | n r1 IH1 | | |];
    intros k x H; simpl in H.
  - exists x. split; [constructor | exact H].
  - destruct (input x) as [|a t] eqn:E; [discriminate|].
    destruct (char_matches ic c a) eqn:Ec; [|discriminate].
    exists (step x a t). split; [econstructor; eassumption | exact H].
  - destruct (input x) as [|a t] eqn:E; [discriminate|].
    destruct (p a) eqn:Ec; [|discriminate].
    exists (step x a t). split; [econstructor; eassumption | exact H].
  - destruct (IH1 _ _ H) as [y [M1 H2]].
    destruct (IH2 _ _ H2) as [z [M2 Hk]].
    exists z. split; [econstructor; eassumption | exact Hk].
  - destruct (rmatch ic r1 k x) as [v'|] eqn:E.
    + injection H as ->. destruct (IH1 _ _ E) as [y [M Hk]].
      exists y. split; [apply M_Alt_left, M | exact Hk].
    + destruct (IH2 _ _ H) as [y [M Hk]].
      exists y. split; [apply M_Alt_right, M | exact Hk].
  - destruct (rmatch ic r1 k x) as [v'|] eqn:E.
    + injection H as ->. destruct (IH1 _ _ E) as [y [M Hk]].
      exists y. split; [apply M_Opt_take, M | exact Hk].
    + exists x. split; [apply M_Opt_skip | exact H].
  - destruct (star_sound _ _ _ _ _ _ H) as [w [s' [E [Hw Hk]]]].
    eexists. split; [eapply M_Star; eassumption | exact Hk].
  - destruct (input x) as [|a t] eqn:E; [discriminate|].
    destruct (p a) eqn:Ea; [|discriminate].
    destruct (star_sound _ _ _ _ _ _ H) as [w [s' [Et [Hw Hk]]]].
    exists (Cursor (prev_after (before x) (a :: w)) s' (groups x)).
    split; [|exact Hk].
    apply M_Plus.
    + rewrite E, Et. reflexivity.
    + discriminate.
    + simpl. rewrite Ea, Hw. reflexivity.
  - destruct (IH1 _ _ H) as [y [M Hk]].
    eexists. split; [apply M_Grp, M | exact Hk].
  - destruct (xorb _ _) eqn:E; [|discriminate].
    exists x. split; [apply M_WordB, E | exact H].
  - destruct (before x) eqn:E; [discriminate|].
    exists x. split; [apply M_Bol, E | exact H].
  - destruct (input x) eqn:E; [|discriminate].
    exists x. split; [apply M_Eol, E | exact H].
Qed.

(** [exec] answers with the groups of a match that starts somewhere in
    the string, with no group set before it. *)
Lemma exec_from_sound (ic : bool) (r : regex) (s : jsstring)
    (b : option ascii) (g : list (nat * jsstring)) :
  exec_from ic r b s = Some g ->
  exists b' s' y, Matches ic r (Cursor b' s' []) y /\ groups y = g.
Proof.
  revert b. induction s as [|c s IH]; intros b H; simpl in H.
  - destruct (rmatch ic r _ _) as [g'|] eqn:E; [|discriminate].
    injection H as ->. destruct (rmatch_sound _ _ _ _ _ E) as [y [M Hk]].
    injection Hk as Hk. eauto.
  - destruct (rmatch ic r _ _) as [g'|] eqn:E.
    + injection H as ->. destruct (rmatch_sound _ _ _ _ _ E) as [y [M Hk]].
      injection Hk as Hk. eauto.
    + eapply IH, H.
Qed.

(* ================================================================== *)
(** ** The matcher finds every match *)

Lemma star_complete {A : Type} (p : ascii -> bool) (k : cursor -> option A)
    (w s : jsstring) (b : option ascii) (g : list (nat * jsstring)) :
  forallb p w = true ->
  k (Cursor (prev_after b w) s g) <> None ->
  star p k b (w ++ s) g <> None.
Proof.
  revert b. induction w as [|c w IH]; intros b Hw Hk.
  - simpl. destruct s as [|c t]; [exact Hk|]. simpl.
    destruct (p c); [|exact Hk].
    destruct (star p k (Some c) t g); [discriminate | exact Hk].
  - simpl in Hw. apply andb_true_iff in Hw. destruct Hw as [Hc Hw].
    simpl. rewrite Hc.
    specialize (IH (Some c) Hw Hk).
    destruct (star p k (Some c) (w ++ s) g); [discriminate | congruence].
Qed.

(** The matcher finds a match when there is one: backtracking gives up no
    match the continuation accepts. *)
Lemma rmatch_complete (ic : bool) (r : regex) (x y : cursor) :
  Matches ic r x y ->
  forall (A : Type) (k : cursor -> option A),
    k y <> None -> rmatch ic r k x <> None.
Proof.
  induction 1 as [x | c x a t E Hc | p x a t E Hc
                  | r1 r2 x y z M1 IH1 M2 IH2
                  | r1 r2 x y M IH | r1 r2 x y M IH
                  | r x y M IH | r x
                  | p x w s E Hw | p x w s E Hne Hw
                  | n r x y M IH | x H | x H | x H];
    intros A k Hk; simpl.
  - exact Hk.
  - rewrite E, Hc. exact Hk.
  - rewrite E, Hc. exact Hk.
  - apply IH1, IH2, Hk.
  - specialize (IH A k Hk). destruct (rmatch ic r1 k x); [discriminate | congruence].
  - destruct (rmatch ic r1 k x); [discriminate | apply IH, Hk].
  - specialize (IH A k Hk). destruct (rmatch ic r k x); [discriminate | congruence].
  - destruct (rmatch ic r k x); [discriminate | exact Hk].
  - rewrite E. apply star_complete; assumption.
  - rewrite E. destruct w as [|c w]; [congruence|].
    simpl in Hw. apply andb_true_iff in Hw. destruct Hw as [Hc Hw].
    simpl. rewrite Hc. apply star_complete; assumption.
  - apply IH. exact Hk.
  - rewrite H. exact Hk.
  - rewrite H. exact Hk.
  - rewrite H. exact Hk.
Qed.

(** A match consumes a prefix of the input. *)
Lemma Matches_consumes (ic : bool) (r : regex) (x y : cursor) :
  Matches ic r x y -> exists w, input x = w ++ input y.
Proof.
  induction 1 as [x | c x a t E Hc | p x a t E Hc
                  | r1 r2 x y z M1 IH1 M2 IH2
                  | r1 r2 x y M IH | r1 r2 x y M IH
                  | r x y M IH | r x
                  | p x w s E Hw | p x w s E Hne Hw
                  | n r x y M IH | x H | x H | x H];
    try (exists []; reflexivity); try exact IH.
  - exists [a]. exact E.
  - exists [a]. exact E.
  - destruct IH1 as [w1 E1], IH2 as [w2 E2]. exists (w1 ++ w2).
    rewrite E1, E2. apply app_assoc.
  - exists w. exact E.
  - exists w. exact E.
Qed.

(** A pattern without anchors matches the same characters whatever stands
    before the match and whatever is appended to the input. *)
Lemma Matches_transfer (ic : bool) (r : regex) (x y : cursor) :
  Matches ic r x y -> anchor_free r = true ->
  forall (b' : option ascii) (t : jsstring),
  exists y', Matches ic r (Cursor b' (input x ++ t) (groups x)) y' /\
             input y' = input y ++ t /\ groups y' = groups y.
Proof.
  induction 1 as [x | c x a t0 E Hc | p x a t0 E Hc
                  | r1 r2 x y z M1 IH1 M2 IH2
                  | r1 r2 x y M IH | r1 r2 x y M IH
                  | r x y M IH | r x
                  | p x w s E Hw | p x w s E Hne Hw
                  | n r x y M IH | x H | x H | x H];
    intros AF b' t; simpl in AF; try discriminate.
  - eexists. split; [apply M_Eps|]. split; reflexivity.
  - eexists. split; [eapply M_Chr; [cbn [input]; rewrite E; reflexivity | exact Hc]|].
    split; reflexivity.
  - eexists. split; [eapply M_Cls; [cbn [input]; rewrite E; reflexivity | exact Hc]|].
    split; reflexivity.
  - apply andb_true_iff in AF. destruct AF as [AF1 AF2].
    destruct (IH1 AF1 b' t) as [y1 [N1 [I1 G1]]].
    destruct (IH2 AF2 (before y1) t) as [z1 [N2 [I2 G2]]].
    exists z1. split; [|split; assumption].
    eapply M_Seq; [exact N1|].
    rewrite <- I1, <- G1, cursor_eta in N2. exact N2.
  - apply andb_true_iff in AF. destruct AF as [AF1 AF2].
    destruct (IH AF1 b' t) as [y1 [N1 [I1 G1]]].
    exists y1. split; [apply M_Alt_left, N1 | split; assumption].
  - apply andb_true_iff in AF. destruct AF as [AF1 AF2].
    destruct (IH AF2 b' t) as [y1 [N1 [I1 G1]]].
    exists y1. split; [apply M_Alt_right, N1 | split; assumption].
  - destruct (IH AF b' t) as [y1 [N1 [I1 G1]]].
    exists y1. split; [apply M_Opt_take, N1 | split; assumption].
  - eexists. split; [apply M_Opt_skip|]. split; reflexivity.
  - eexists. split.
    + eapply M_Star; [cbn [input]; rewrite E, <- app_assoc; reflexivity | exact Hw].
    + split; reflexivity.
  - eexists. split.
    + eapply M_Plus; [cbn [input]; rewrite E, <- app_assoc; reflexivity
                     | exact Hne | exact Hw].
    + split; reflexivity.
  - destruct (IH AF b' t) as [y1 [N1 [I1 G1]]].
    exists (capture n (input x ++ t) y1). split; [apply (M_Grp _ _ _ _ _ N1)|].
    split; [exact I1|].
    unfold capture. cbn [groups input]. rewrite I1, G1.
    destruct (Matches_consumes _ _ _ _ M) as [w Ew]. rewrite Ew.
    rewrite <- app_assoc, !firstn_consumed. reflexivity.
Qed.

(** Where no match starts, [exec] moves on. *)
Lemma exec_from_skip (r : regex) (pre rest : jsstring) (b : option ascii) :
  (forall u c v, pre = u ++ c :: v ->
     rmatch true r (fun y => Some (groups y))
            (Cursor (prev_after b u) (c :: v ++ rest) []) = None) ->
  exec_from true r b (pre ++ rest) = exec_from true r (prev_after b pre) rest.
Proof.
  revert b. induction pre as [|c pre IH]; intros b H.
  - reflexivity.
  - change ((c :: pre) ++ rest) with (c :: pre ++ rest).
    pose proof (H [] c pre eq_refl) as H0.
    change (prev_after b []) with b in H0.
    rewrite exec_from_cons, H0.
    apply IH. intros u c' v E. apply (H (c :: u) c' v). rewrite E. reflexivity.
Qed.

Lemma starts_inside_found (r : regex) (pre rest : jsstring) (b : option ascii) :
  (exists u c v y,
     pre = u ++ c :: v /\
     Matches true r (Cursor (prev_after b u) (c :: v ++ rest) []) y) ->
  found_inside r b pre rest = true.
Proof.
  revert b. induction pre as [|c pre IH]; intros b [u [c' [v [y [E M]]]]].
  - destruct u; discriminate E.
  - simpl. destruct u as [|a u].
    + injection E as <- <-. simpl in M.
      pose proof (rmatch_complete _ _ _ _ M unit (fun _ => Some tt)) as C.
      destruct (rmatch true r _ _); [reflexivity|].
      exfalso. apply C; [discriminate | reflexivity].
    + injection E as <- ->.
      destruct (rmatch true r _ _); [reflexivity|].
      apply IH. exists u, c', v, y. split; [reflexivity | exact M].
Qed.

(** [trim] keeps a core that neither starts nor ends with white space;
    what it removes is a prefix of what stands before the core and a suffix
    of what stands after it. *)
Lemma trim_around_parts (pre post mid : jsstring) (c1 c2 : ascii) :
  is_space c1 = false -> is_space c2 = false ->
  exists l pre' post' l',
    pre = l ++ pre' /\ post = post' ++ l' /\
    trim (pre ++ (c1 :: mid ++ [c2]) ++ post)
    = pre' ++ (c1 :: mid ++ [c2]) ++ post'.
Proof.
  intros H1 H2. unfold trim, trimEnd.
  destruct (trimStart_app pre ((c1 :: mid ++ [c2]) ++ post))
    as [l [pre' [Hpre E]]]; [exact H1 | discriminate |].
  rewrite E.
  replace (rev (pre' ++ (c1 :: mid ++ [c2]) ++ post))
    with (rev post ++ (c2 :: rev mid ++ [c1]) ++ rev pre').
  2:{ repeat (rewrite ?rev_app_distr, <- ?app_assoc; simpl). reflexivity. }
  destruct (trimStart_app (rev post) ((c2 :: rev mid ++ [c1]) ++ rev pre'))
    as [l2 [post2 [Hpost E2]]]; [exact H2 | discriminate |].
  rewrite E2. exists l, pre', (rev post2), (rev l2).
  split; [exact Hpre|]. split.
  - rewrite <- rev_app_distr, <- Hpost, rev_involutive. reflexivity.
  - repeat (rewrite ?rev_app_distr, ?rev_involutive, <- ?app_assoc; simpl).
    reflexivity.
Qed.

Lemma exec_starsNum_leftmost (pre N ws post : jsstring) :
  ~ starts_inside re_starsNum pre (N ++ ws ++ lit "star" ++ post) ->
  StarNumber N -> forallb is_space ws = true ->
  exec true re_starsNum (trim (pre ++ N ++ ws ++ lit "star" ++ post))
  = Some [(1%nat, N)].
Proof.
  intros Hpre HN Hws.
  destruct (StarNumber_head N HN) as [d [N' [EN Hd]]].
  destruct (trim_around_parts pre post (N' ++ ws ++ lit "sta") d "r"%char)
    as [l [pre' [post' [l' [Epre [Epost T]]]]]];
    [apply digit_not_space, Hd | reflexivity |].
  assert (Shape : forall u,
    (d :: (N' ++ ws ++ lit "sta") ++ ["r"%char]) ++ u
    = N ++ ws ++ lit "star" ++ u).
  { intro u. rewrite EN.
    repeat (rewrite <- ?app_assoc; simpl). reflexivity. }
  rewrite !Shape in T. rewrite T.
  unfold exec. rewrite exec_from_skip.
  - apply exec_from_here, starsNum_hit; assumption.
  - intros u c v E.
    destruct (rmatch true re_starsNum _ _) as [g|] eqn:R; [|reflexivity].
    exfalso. apply Hpre.
    destruct (rmatch_sound _ _ _ _ _ R) as [y [M _]].
    destruct (Matches_transfer _ _ _ _ M eq_refl
                (prev_after None (l ++ u)) l') as [y' [M' _]].
    exists (l ++ u), c, v, y'. split.
    + rewrite Epre, E. apply app_assoc.
    + cbn [input groups] in M'.
      replace (c :: v ++ N ++ ws ++ lit "star" ++ post)
        with ((c :: v ++ N ++ ws ++ lit "star" ++ post') ++ l'); [exact M'|].
      rewrite Epost. repeat (rewrite <- ?app_assoc; simpl). reflexivity.
Qed.

(** A prefix without a digit holds no start of a rating. *)
Lemma digit_free_prefix (pre rest : jsstring) :
  forallb (fun c => negb (is_digit c)) pre = true ->
  ~ starts_inside re_starsNum pre rest.
Proof.
  intros H [u [c [v [y [E M]]]]]. subst pre.
  rewrite forallb_app in H. apply andb_true_iff in H. destruct H as [_ H].
  simpl in H. apply andb_true_iff in H. destruct H as [Hc _].
  apply negb_true_iff in Hc.
  apply (rmatch_complete _ _ _ _ M unit (fun _ => Some tt)); [discriminate|].
  apply starsNum_miss. exact Hc.
Qed.

(** C5, amended.  When the leftmost match of the rating pattern - one
    digit, or one digit, a point and one digit, then optional white space
    and "star" - reads the rating N, that is when N, optional white space
    and "star" stand in the query and no match of the pattern starts
    before N, [parseQuery] sets [minRating] to N, whatever else the query
    says, digits before N and "good reviews" included. *)
Theorem leftmost_star_number_sets_minRating (pre N ws post : jsstring) :
  ~ starts_inside re_starsNum pre (N ++ ws ++ lit "star" ++ post) ->
  StarNumber N -> forallb is_space ws = true ->
  minRating (parseQuery (pre ++ N ++ ws ++ lit "star" ++ post))
  = Some (Number N).
Proof.
  intros Hpre HN Hws.
  rewrite parseQuery_minRating, exec_starsNum_leftmost by assumption.
  reflexivity.
Qed.

Lemma leftmost_star_number_sets_minRating_witness :
  ~ starts_inside re_starsNum (lit "great reviews under $50, ")
                  (lit "4.5 stars") /\
  StarNumber (lit "4.5") /\
  forallb is_space (lit " ") = true /\
  minRating (parseQuery (lit "great reviews under $50, 4.5 stars")) = Some 4.5.
Proof.
  assert (H1 : ~ starts_inside re_starsNum (lit "great reviews under $50, ")
                               (lit "4.5 stars")).
  { intro H. apply (starts_inside_found _ _ _ None) in H.
    vm_compute in H. discriminate H. }
  assert (H2 : StarNumber (lit "4.5"))
    by (apply StarNumber_frac; reflexivity).
  assert (H3 : forallb is_space (lit " ") = true) by reflexivity.
  split; [exact H1|]. split; [exact H2|]. split; [exact H3|].
  exact (leftmost_star_number_sets_minRating
           (lit "great reviews under $50, ") (lit "4.5") (lit " ") (lit "s")
           H1 H2 H3).
Defined.

(* ================================================================== *)
(** ** What the patterns capture *)

Lemma Matches_Seq_inv (ic : bool) (r1 r2 : regex) (x z : cursor) :
  Matches ic (Seq r1 r2) x z ->
  exists y, Matches ic r1 x y /\ Matches ic r2 y z.
Proof. intro H. inversion H; subst. eauto. Qed.

Lemma Matches_Grp_inv (ic : bool) (n : nat) (r : regex) (x z : cursor) :
  Matches ic (Grp n r) x z ->
  exists y, Matches ic r x y /\ z = capture n (input x) y.
Proof. intro H. inversion H; subst. eauto. Qed.

Lemma Matches_no_group (ic : bool) (r : regex) (x y : cursor) :
  Matches ic r x y -> no_group r = true -> groups y = groups x.
Proof.
  induction 1; simpl; intro N; try reflexivity;
    try (apply andb_true_iff in N; destruct N as [N1 N2]); auto.
  - rewrite IHMatches2, IHMatches1; auto.
  - discriminate.
Qed.

Lemma all_digits_intro (w : jsstring) :
  w <> [] -> forallb is_digit w = true -> all_digits w = true.
Proof. destruct w; [congruence | intros _ H; exact H]. Qed.

Lemma Matches_Plus_inv (ic : bool) (p : ascii -> bool) (x y : cursor) :
  Matches ic (Plus p) x y ->
  exists w, w <> [] /\ forallb p w = true /\
            input x = w ++ input y /\ groups y = groups x.
Proof. intro H. inversion H; subst. simpl. eauto. Qed.

Lemma Matches_dot_inv (x y : cursor) :
  Matches true (Chr ".") x y ->
  input x = "."%char :: input y /\ groups y = groups x.
Proof.
  intro H. inversion H as [| c x' a t E Hc | | | | | | | | | | | |]; subst.
  rewrite dot_insensitive in Hc. apply ascii_eqb_eq in Hc. subst a.
  simpl. auto.
Qed.

Lemma Matches_digit_inv (ic : bool) (x y : cursor) :
  Matches ic (Cls is_digit) x y ->
  exists d, is_digit d = true /\ input x = d :: input y /\
            groups y = groups x.
Proof. intro H. inversion H; subst. simpl. eauto. Qed.

(** [re_number] reads a decimal numeral and nothing else. *)
Lemma Matches_number (x y : cursor) :
  Matches true re_number x y ->
  exists w, Decimal w /\ input x = w ++ input y /\ groups y = groups x.
Proof.
  unfold re_number. intro H.
  apply Matches_Seq_inv in H. destruct H as [y1 [H1 H2]].
  apply Matches_Plus_inv in H1. destruct H1 as [i [Hne [Hi [Ei Gi]]]].
  inversion H2 as [| | | | | | r x' y' Ht | r x' | | | | | |]; subst.
  - apply Matches_Seq_inv in Ht. destruct Ht as [y2 [Hd Hf]].
    apply Matches_dot_inv in Hd. destruct Hd as [Ed Gd].
    apply Matches_Plus_inv in Hf. destruct Hf as [f [Hnf [Hf [Ef Gf]]]].
    exists (i ++ "."%char :: f). split; [|split].
    + apply Decimal_frac; apply all_digits_intro; assumption.
    + rewrite Ei, Ed, Ef, <- app_assoc. reflexivity.
    + congruence.
  - exists i. split; [|split]; try assumption.
    apply Decimal_int, all_digits_intro; assumption.
Qed.

Lemma Matches_group_number (n : nat) (x z : cursor) :
  Matches true (Grp n re_number) x z ->
  exists w, Decimal w /\ groups z = (n, w) :: groups x.
Proof.
  intro H. apply Matches_Grp_inv in H. destruct H as [y [H ->]].
  apply Matches_number in H. destruct H as [w [Hw [E G]]].
  exists w. split; [exact Hw|].
  unfold capture. simpl. rewrite E, firstn_consumed, G. reflexivity.
Qed.

Lemma Matches_group_plain (n : nat) (r : regex) (x z : cursor) :
  no_group r = true -> Matches true (Grp n r) x z ->
  exists w, groups z = (n, w) :: groups x.
Proof.
  intros N H. apply Matches_Grp_inv in H. destruct H as [y [H ->]].
  eexists. unfold capture. simpl.
  rewrite (Matches_no_group _ _ _ _ H N). reflexivity.
Qed.

Ltac split_seq H y H1 :=
  apply Matches_Seq_inv in H; destruct H as [y [H1 H]].

Ltac plain H1 :=
  apply Matches_no_group in H1; [|reflexivity].

Lemma Matches_between (x z : cursor) :
  Matches true re_between x z ->
  exists X Y, Decimal X /\ Decimal Y /\
              groups z = (2%nat, Y) :: (1%nat, X) :: groups x.
Proof.
  unfold re_between. intro H.
  split_seq H y1 H1. plain H1.
  split_seq H y2 H2. plain H2.
  split_seq H y3 H3. plain H3.
  split_seq H y4 H4. apply Matches_group_number in H4.
  destruct H4 as [X [HX G4]].
  split_seq H y5 H5. plain H5.
  split_seq H y6 H6. plain H6.
  split_seq H y7 H7. plain H7.
  split_seq H y8 H8. plain H8.
  apply Matches_group_number in H. destruct H as [Y [HY G9]].
  exists X, Y. split; [exact HX|]. split; [exact HY|].
  rewrite G9, H8, H7, H6, H5, G4, H3, H2, H1. reflexivity.
Qed.

Lemma Matches_one_bound (r : regex) (x z : cursor) :
  no_group r = true ->
  Matches true
    (Seq (Grp 1 r) (Seq (Star is_space) (Seq (Opt (Chr "$")) (Grp 2 re_number))))
    x z ->
  exists w Y, Decimal Y /\ groups z = (2%nat, Y) :: (1%nat, w) :: groups x.
Proof.
  intros N H.
  split_seq H y1 H1. apply (Matches_group_plain _ _ _ _ N) in H1.
  destruct H1 as [w G1].
  split_seq H y2 H2. plain H2.
  split_seq H y3 H3. plain H3.
  apply Matches_group_number in H. destruct H as [Y [HY G4]].
  exists w, Y. split; [exact HY|]. rewrite G4, H3, H2, G1. reflexivity.
Qed.

Lemma Matches_starsNum (x z : cursor) :
  Matches true re_starsNum x z ->
  exists N, StarNumber N /\ groups z = (1%nat, N) :: groups x.
Proof.
  unfold re_starsNum. intro H.
  split_seq H y1 H1. apply Matches_Grp_inv in H1.
  destruct H1 as [y0 [H1 ->]].
  split_seq H y2 H2. plain H2.
  split_seq H y3 H3. plain H3.
  plain H. rewrite H, H3, H2. unfold capture. simpl. clear H H2 H3.
  split_seq H1 ya Ha. apply Matches_digit_inv in Ha.
  destruct Ha as [d [Hd [Ed Gd]]].
  inversion H1 as [| | | | | | r x' y' Ht | r x' | | | | | |]; subst.
  - split_seq Ht yb Hb. apply Matches_dot_inv in Hb. destruct Hb as [Eb Gb].
    apply Matches_digit_inv in Ht. destruct Ht as [e [He [Ee Ge]]].
    exists [d; "."%char; e]. split; [constructor; assumption|].
    rewrite Ed, Eb, Ee.
    change (d :: "."%char :: e :: input y0) with ([d; "."%char; e] ++ input y0).
    rewrite firstn_consumed, Ge, Gb, Gd. reflexivity.
  - exists [d]. split; [constructor; assumption|].
    rewrite Ed. change (d :: input y0) with ([d] ++ input y0).
    rewrite firstn_consumed, Gd. reflexivity.
Qed.

Lemma exec_between_groups (s : jsstring) (m : list (nat * jsstring)) :
  exec true re_between s = Some m ->
  Decimal (group 1 m) /\ Decimal (group 2 m).
Proof.
  intro H. apply exec_from_sound in H. destruct H as [b [s' [y [M <-]]]].
  apply Matches_between in M. destruct M as [X [Y [HX [HY ->]]]].
  simpl. tauto.
Qed.

Lemma exec_under_groups (s : jsstring) (m : list (nat * jsstring)) :
  exec true re_under s = Some m -> Decimal (group 2 m).
Proof.
  intro H. apply exec_from_sound in H. destruct H as [b [s' [y [M <-]]]].
  apply Matches_one_bound in M; [|reflexivity].
  destruct M as [w [Y [HY ->]]]. exact HY.
Qed.

Lemma exec_over_groups (s : jsstring) (m : list (nat * jsstring)) :
  exec true re_over s = Some m -> Decimal (group 2 m).
Proof.
  intro H. apply exec_from_sound in H. destruct H as [b [s' [y [M <-]]]].
  apply Matches_one_bound in M; [|reflexivity].
  destruct M as [w [Y [HY ->]]]. exact HY.
Qed.

Lemma exec_starsNum_groups (s : jsstring) (m : list (nat * jsstring)) :
  exec true re_starsNum s = Some m -> StarNumber (group 1 m).
Proof.
  intro H. apply exec_from_sound in H. destruct H as [b [s' [y [M <-]]]].
  apply Matches_starsNum in M. destruct M as [N [HN ->]]. exact HN.
Qed.

(* ================================================================== *)
(** ** The numbers [parseQuery] reads *)

Lemma digit_not_dot (c : ascii) :
  is_digit c = true -> ascii_eqb c "."%char = false.
Proof. by_cases_on_ascii c. Qed.

Lemma digit_val_range (c : ascii) :
  is_digit c = true -> (0 <= digit_val c <= 9)%Z.
Proof.
  destruct c as [[] [] [] [] [] [] [] []]; vm_compute;
    intro H; try discriminate H; split; discriminate.
Qed.

Lemma int_part_digits (i rest : jsstring) :
  forallb is_digit i = true ->
  int_part (i ++ "."%char :: rest) = i /\
  frac_part (i ++ "."%char :: rest) = rest /\
  int_part i = i /\ frac_part i = [].
Proof.
  induction i as [|c i IH]; intro H.
  - repeat split; reflexivity.
  - simpl in H. apply andb_true_iff in H. destruct H as [Hc Hi].
    destruct (IH Hi) as [E1 [E2 [E3 E4]]].
    simpl. rewrite (digit_not_dot c Hc), E1, E2, E3, E4. auto.
Qed.

Lemma digits_val_nonneg (s : jsstring) (acc : Z) :
  forallb is_digit s = true -> (0 <= acc)%Z ->
  (0 <= fold_left (fun a c => 10 * a + digit_val c) s acc)%Z.
Proof.
  revert acc. induction s as [|c s IH]; intros acc H Ha; cbn [fold_left].
  - exact Ha.
  - simpl in H. apply andb_true_iff in H. destruct H as [Hc Hs].
    apply IH; [exact Hs|]. pose proof (digit_val_range c Hc). lia.
Qed.

(** A numeral converts to a number that is not negative. *)
Lemma Number_nonneg (X : jsstring) : Decimal X -> 0 <= Number X.
Proof.
  intro H. unfold Number, Qle. simpl. rewrite Z.mul_1_r.
  unfold digits_val. apply digits_val_nonneg; [|lia].
  destruct H as [i Hi | i f Hi Hf].
  - destruct (all_digits_spec i Hi) as [_ Hd].
    destruct (int_part_digits i [] Hd) as [_ [_ [-> ->]]].
    rewrite app_nil_r. exact Hd.
  - destruct (all_digits_spec i Hi) as [_ Hd].
    destruct (all_digits_spec f Hf) as [_ Hdf].
    destruct (int_part_digits i f Hd) as [-> [-> _]].
    rewrite forallb_app, Hd, Hdf. reflexivity.
Qed.

Lemma StarNumber_range (N : jsstring) :
  StarNumber N -> 0 <= Number N /\ Number N <= 9.9.
Proof.
  intros [d Hd | d e Hd He].
  - pose proof (digit_val_range d Hd) as R.
    unfold Number. simpl. rewrite (digit_not_dot d Hd). simpl.
    unfold digits_val, Qle. cbn -[Z.mul Z.add digit_val]. lia.
  - pose proof (digit_val_range d Hd) as R.
    pose proof (digit_val_range e He) as R'.
    unfold Number. simpl. rewrite (digit_not_dot d Hd). simpl.
    unfold digits_val, Qle. cbn -[Z.mul Z.add digit_val]. lia.
Qed.

(** X9.  A price bound that [parseQuery] sets is never negative. *)
Theorem parsed_bounds_nonnegative (q : jsstring) (v : Q) :
  minPrice (parseQuery q) = Some v \/ maxPrice (parseQuery q) = Some v ->
  0 <= v.
Proof.
  rewrite parseQuery_minPrice, parseQuery_maxPrice.
  destruct (exec true re_between (trim q)) as [m|] eqn:Eb.
  - destruct (exec_between_groups _ _ Eb) as [H1 H2].
    apply Number_nonneg in H1, H2.
    intros [H | H]; injection H as <-.
    + apply Q.min_glb; assumption.
    + eapply Qle_trans; [exact H1 | apply Q.le_max_l].
  - destruct (exec true re_under (trim q)) as [m|] eqn:Eu.
    + intros [H | H]; [discriminate|]. injection H as <-.
      apply Number_nonneg, (exec_under_groups _ _ Eu).
    + destruct (exec true re_over (trim q)) as [m|] eqn:Eo.
      * intros [H | H]; [|discriminate]. injection H as <-.
        apply Number_nonneg, (exec_over_groups _ _ Eo).
      * intros [H | H]; discriminate.
Qed.

Lemma parsed_bounds_nonnegative_witness :
  maxPrice (parseQuery (lit "cheaper than $12.50")) = Some 12.50 /\
  0 <= 12.50.
Proof.
  assert (H : maxPrice (parseQuery (lit "cheaper than $12.50")) = Some 12.50)
    by (vm_compute; reflexivity).
  split; [exact H|].
  exact (parsed_bounds_nonnegative _ _ (or_intror H)).
Defined.

(** X10.  A rating floor that [parseQuery] sets lies between 0 and 9.9:
    the explicit one is read from one digit, or one digit, a point and
    one digit, and the implied one is 4. *)
Theorem parsed_rating_range (q : jsstring) (r : Q) :
  minRating (parseQuery q) = Some r -> 0 <= r /\ r <= 9.9.
Proof.
  rewrite parseQuery_minRating.
  destruct (exec true re_starsNum (trim q)) as [m|] eqn:E.
  - intro H. injection H as <-.
    apply StarNumber_range, (exec_starsNum_groups _ _ E).
  - destruct (test true re_impliesGood (trim q)); [|discriminate].
    intro H. injection H as <-. split; vm_compute; discriminate.
Qed.

Lemma parsed_rating_range_witness :
  minRating (parseQuery (lit "4.5 stars")) = Some 4.5 /\
  0 <= 4.5 /\ 4.5 <= 9.9.
Proof.
  assert (H : minRating (parseQuery (lit "4.5 stars")) = Some 4.5)
    by (vm_compute; reflexivity).
  split; [exact H|].
  exact (parsed_rating_range _ _ H).
Defined.

(* ================================================================== *)
(** ** Upper and lower case *)

Lemma canonicalize_lower (a : ascii) :
  canonicalize (lower_char a) = canonicalize a \/
  ((128 <=? code (canonicalize (lower_char a)))%N = true /\
   (128 <=? code (canonicalize a))%N = true).
Proof.
  destruct a as [[] [] [] [] [] [] [] []]; vm_compute;
    first [left; reflexivity | right; split; reflexivity].
Qed.

Lemma canonicalize_ascii (c : ascii) :
  (code c <? 128)%N = true -> (code (canonicalize c) <? 128)%N = true.
Proof. by_cases_on_ascii c. Qed.

Lemma char_matches_lower (c a : ascii) :
  (code c < 128)%N ->
  char_matches true c (lower_char a) = char_matches true c a.
Proof.
  intro Hc. apply N.ltb_lt, canonicalize_ascii, N.ltb_lt in Hc.
  unfold char_matches, ascii_eqb.
  destruct (canonicalize_lower a) as [-> | [H1 H2]]; [reflexivity|].
  apply N.leb_le in H1, H2.
  transitivity false; [|symmetry]; apply N.eqb_neq; lia.
Qed.

Lemma is_digit_lower (c : ascii) : is_digit (lower_char c) = is_digit c.
Proof. destruct c as [[] [] [] [] [] [] [] []]; reflexivity. Qed.

Lemma is_space_lower (c : ascii) : is_space (lower_char c) = is_space c.
Proof. destruct c as [[] [] [] [] [] [] [] []]; reflexivity. Qed.

Lemma hyphen_or_space_lower (c : ascii) :
  hyphen_or_space (lower_char c) = hyphen_or_space c.
Proof. destruct c as [[] [] [] [] [] [] [] []]; reflexivity. Qed.

Lemma is_word_lower (c : ascii) : is_word (lower_char c) = is_word c.
Proof. destruct c as [[] [] [] [] [] [] [] []]; reflexivity. Qed.

Lemma lower_char_idem (c : ascii) : lower_char (lower_char c) = lower_char c.
Proof. destruct c as [[] [] [] [] [] [] [] []]; reflexivity. Qed.

Lemma lower_char_digit (c : ascii) : is_digit c = true -> lower_char c = c.
Proof. by_cases_on_ascii c. Qed.

Lemma toLowerCase_idem (s : jsstring) :
  toLowerCase (toLowerCase s) = toLowerCase s.
Proof.
  unfold toLowerCase. rewrite map_map. apply map_ext, lower_char_idem.
Qed.

Lemma toLowerCase_digits (w : jsstring) :
  forallb is_digit w = true -> toLowerCase w = w.
Proof.
  induction w as [|c w IH]; intro H; [reflexivity|].
  simpl in H. apply andb_true_iff in H. destruct H as [Hc Hw].
  simpl. rewrite (lower_char_digit c Hc), (IH Hw). reflexivity.
Qed.

Lemma toLowerCase_Decimal (X : jsstring) : Decimal X -> toLowerCase X = X.
Proof.
  intros [i Hi | i f Hi Hf].
  - apply toLowerCase_digits, all_digits_spec, Hi.
  - unfold toLowerCase. rewrite map_app. simpl.
    fold (toLowerCase i). fold (toLowerCase f).
    rewrite !toLowerCase_digits by (apply all_digits_spec; assumption).
    reflexivity.
Qed.

Lemma toLowerCase_StarNumber (N : jsstring) :
  StarNumber N -> toLowerCase N = N.
Proof.
  intros [d Hd | d e Hd He]; simpl;
    rewrite ?(lower_char_digit d Hd), ?(lower_char_digit e He); reflexivity.
Qed.

Lemma trimStart_lower (s : jsstring) :
  trimStart (toLowerCase s) = toLowerCase (trimStart s).
Proof.
  induction s as [|c s IH]; [reflexivity|].
  simpl. rewrite is_space_lower. destruct (is_space c); [exact IH | reflexivity].
Qed.

Lemma trim_lower (s : jsstring) : trim (toLowerCase s) = toLowerCase (trim s).
Proof.
  unfold trim, trimEnd. rewrite trimStart_lower.
  unfold toLowerCase at 1. rewrite <- map_rev. fold (toLowerCase (rev (trimStart s))).
  rewrite trimStart_lower. unfold toLowerCase. rewrite map_rev. reflexivity.
Qed.

Section LowerCase.
Context {A B : Type}.
Variable f : A -> B.
Implicit Types (k : cursor -> option A).

Lemma star_lower (p : ascii -> bool) k (k' : cursor -> option B) (s : jsstring) (b : option ascii)
    (g : list (nat * jsstring)) :
  (forall c, p (lower_char c) = p c) ->
  (forall y, k' (lower_cursor y) = option_map f (k y)) ->
  star p k' (option_map lower_char b) (toLowerCase s) (lower_groups g)
  = option_map f (star p k b s g).
Proof.
  intros Hp Hk. revert b. induction s as [|c s IH]; intro b.
  - exact (Hk (Cursor b [] g)).
  - simpl. rewrite Hp. destruct (p c).
    + change (Some (lower_char c)) with (option_map lower_char (Some c)).
      fold (toLowerCase s). rewrite IH.
      destruct (star p k (Some c) s g); [reflexivity|].
      exact (Hk (Cursor b (c :: s) g)).
    + exact (Hk (Cursor b (c :: s) g)).
Qed.

Lemma capture_lower (n : nat) (from : jsstring) (y : cursor) :
  capture n (toLowerCase from) (lower_cursor y)
  = lower_cursor (capture n from y).
Proof.
  unfold capture, lower_cursor, lower_groups, toLowerCase. simpl.
  rewrite !length_map, firstn_map. reflexivity.
Qed.

End LowerCase.

(** On the lower-cased string a case-blind pattern matches as on the
    string, with the groups lower-cased. *)
Lemma rmatch_lower (r : regex) :
  case_blind r ->
  forall (A B : Type) (f : A -> B) (k : cursor -> option A)
         (k' : cursor -> option B) (x : cursor),
    (forall y, k' (lower_cursor y) = option_map f (k y)) ->
    rmatch true r k' (lower_cursor x) = option_map f (rmatch true r k x).
Proof.
  induction r as [| c | p | r1 IH1 r2 IH2 | r1 IH1 r2 IH2
                  | r1 IH1 | p | p | n r1 IH1 | | |];
    intros Hr A B f k k' [b s g] Hk; cbn [case_blind] in Hr;
    cbn [rmatch lower_cursor input before groups].
  - apply Hk.
  - destruct s as [|a t]; [reflexivity|].
    cbn [toLowerCase map]. rewrite (char_matches_lower c a Hr).
    destruct (char_matches true c a); [|reflexivity].
    exact (Hk (step (Cursor b (a :: t) g) a t)).
  - destruct s as [|a t]; [reflexivity|].
    cbn [toLowerCase map]. rewrite Hr. destruct (p a); [|reflexivity].
    exact (Hk (step (Cursor b (a :: t) g) a t)).
  - destruct Hr as [H1 H2].
    apply (IH1 H1 _ _ f (rmatch true r2 k) (rmatch true r2 k') (Cursor b s g)).
    intro y. apply (IH2 H2), Hk.
  - destruct Hr as [H1 H2].
    rewrite (IH1 H1 _ _ f k k' (Cursor b s g) Hk),
            (IH2 H2 _ _ f k k' (Cursor b s g) Hk).
    destruct (rmatch true r1 k (Cursor b s g)); reflexivity.
  - rewrite (IH1 Hr _ _ f k k' (Cursor b s g) Hk).
    destruct (rmatch true r1 k (Cursor b s g)); [reflexivity|].
    exact (Hk (Cursor b s g)).
  - apply star_lower; assumption.
  - destruct s as [|a t]; [reflexivity|].
    cbn [toLowerCase map]. rewrite Hr. destruct (p a); [|reflexivity].
    apply (star_lower f p k k' t (Some a) g); assumption.
  - apply (IH1 Hr _ _ f (fun y => k (capture n s y))
               (fun y => k' (capture n (toLowerCase s) y)) (Cursor b s g)).
    intro y. rewrite capture_lower. apply Hk.
  - replace (is_word_at (option_map lower_char b)) with (is_word_at b)
      by (destruct b; simpl; rewrite ?is_word_lower; reflexivity).
    replace (is_word_at (hd_error (toLowerCase s)))
      with (is_word_at (hd_error s))
      by (destruct s; simpl; rewrite ?is_word_lower; reflexivity).
    destruct (xorb _ _); [|reflexivity].
    exact (Hk (Cursor b s g)).
  - destruct b; [reflexivity|]. exact (Hk (Cursor None s g)).
  - destruct s; [|reflexivity]. exact (Hk (Cursor b [] g)).
Qed.

Lemma exec_from_nil (ic : bool) (r : regex) (b : option ascii) :
  exec_from ic r b [] =
  match rmatch ic r (fun y => Some (groups y)) (Cursor b [] []) with
  | Some g => Some g
  | None => None
  end.
Proof. reflexivity. Qed.

Lemma rmatch_groups_lower (r : regex) (b : option ascii) (s : jsstring) :
  case_blind r ->
  rmatch true r (fun y => Some (groups y))
         (Cursor (option_map lower_char b) (toLowerCase s) [])
  = option_map lower_groups
      (rmatch true r (fun y => Some (groups y)) (Cursor b s [])).
Proof.
  intro Hr.
  exact (rmatch_lower r Hr _ _ lower_groups
           (fun y => Some (groups y)) (fun y => Some (groups y))
           (Cursor b s []) (fun y => eq_refl)).
Qed.

Lemma exec_from_lower (r : regex) (s : jsstring) (b : option ascii) :
  case_blind r ->
  exec_from true r (option_map lower_char b) (toLowerCase s)
  = option_map lower_groups (exec_from true r b s).
Proof.
  intro Hr. revert b. induction s as [|c s IH]; intro b.
  - change (toLowerCase []) with (@nil ascii).
    rewrite !exec_from_nil.
    pose proof (rmatch_groups_lower r b [] Hr) as E.
    change (toLowerCase []) with (@nil ascii) in E. rewrite E.
    destruct (rmatch true r (fun y => Some (groups y)) (Cursor b [] []));
      reflexivity.
  - change (toLowerCase (c :: s)) with (lower_char c :: toLowerCase s).
    rewrite !exec_from_cons.
    pose proof (rmatch_groups_lower r b (c :: s) Hr) as E.
    change (toLowerCase (c :: s)) with (lower_char c :: toLowerCase s) in E.
    rewrite E.
    destruct (rmatch true r (fun y => Some (groups y)) (Cursor b (c :: s) []));
      [reflexivity|].
    apply (IH (Some c)).
Qed.

Lemma exec_lower (r : regex) (s : jsstring) :
  case_blind r ->
  exec true r (toLowerCase s) = option_map lower_groups (exec true r s).
Proof. intro Hr. apply (exec_from_lower r s None Hr). Qed.

Lemma test_lower (r : regex) (s : jsstring) :
  case_blind r -> test true r (toLowerCase s) = test true r s.
Proof.
  intro Hr. unfold test. rewrite (exec_lower r s Hr).
  destruct (exec true r s); reflexivity.
Qed.

Lemma group_lower (n : nat) (m : list (nat * jsstring)) :
  group n (lower_groups m) = toLowerCase (group n m).
Proof.
  induction m as [|[i v] m IH]; [reflexivity|].
  simpl. destruct (Nat.eqb i n); [reflexivity | exact IH].
Qed.

Ltac case_blind_tac :=
  cbn; repeat split;
  first [ exact is_digit_lower | exact is_space_lower
        | exact hyphen_or_space_lower | reflexivity ].

Lemma case_blind_between : case_blind re_between.
Proof. case_blind_tac. Qed.

Lemma case_blind_under : case_blind re_under.
Proof. case_blind_tac. Qed.

Lemma case_blind_over : case_blind re_over.
Proof. case_blind_tac. Qed.

Lemma case_blind_starsNum : case_blind re_starsNum.
Proof. case_blind_tac. Qed.

Lemma case_blind_impliesGood : case_blind re_impliesGood.
Proof. case_blind_tac. Qed.

Lemma case_blind_wantsHigh : case_blind re_wantsHigh.
Proof. case_blind_tac. Qed.

Lemma case_blind_wantsLow : case_blind re_wantsLow.
Proof. case_blind_tac. Qed.

Lemma parseQuery_priceIntent (q : jsstring) :
  priceIntent (parseQuery q) =
  if test true re_wantsHigh (trim q) then Some high
  else if test true re_wantsLow (trim q) then Some low else None.
Proof.
  unfold parseQuery.
  destruct (exec true re_between (trim q)); [reflexivity|].
  destruct (exec true re_under (trim q)); [reflexivity|].
  destruct (exec true re_over (trim q)); reflexivity.
Qed.

Lemma Query_ext (a b : Query) :
  maxPrice a = maxPrice b -> minPrice a = minPrice b ->
  minRating a = minRating b -> keywords a = keywords b ->
  priceIntent a = priceIntent b -> a = b.
Proof.
  destruct a, b. simpl. intros -> -> -> -> ->. reflexivity.
Qed.

Lemma keywords_of_lower (s : jsstring) :
  keywords_of (toLowerCase s) = keywords_of s.
Proof. unfold keywords_of. rewrite toLowerCase_idem. reflexivity. Qed.

Lemma parseQuery_lower (q : jsstring) :
  parseQuery (toLowerCase q) = parseQuery q.
Proof.
  apply Query_ext.
  - rewrite !parseQuery_maxPrice, trim_lower.
    rewrite (exec_lower _ _ case_blind_between),
            (exec_lower _ _ case_blind_under).
    destruct (exec true re_between (trim q)) as [m|] eqn:Eb; cbn [option_map].
    + destruct (exec_between_groups _ _ Eb) as [D1 D2].
      rewrite !group_lower, !toLowerCase_Decimal by assumption. reflexivity.
    + destruct (exec true re_under (trim q)) as [m|] eqn:Eu; cbn [option_map];
        [|reflexivity].
      rewrite group_lower, toLowerCase_Decimal; [reflexivity|].
      exact (exec_under_groups _ _ Eu).
  - rewrite !parseQuery_minPrice, trim_lower.
    rewrite (exec_lower _ _ case_blind_between),
            (exec_lower _ _ case_blind_under),
            (exec_lower _ _ case_blind_over).
    destruct (exec true re_between (trim q)) as [m|] eqn:Eb; cbn [option_map].
    + destruct (exec_between_groups _ _ Eb) as [D1 D2].
      rewrite !group_lower, !toLowerCase_Decimal by assumption. reflexivity.
    + destruct (exec true re_under (trim q)) as [m|] eqn:Eu; cbn [option_map];
        [reflexivity|].
      destruct (exec true re_over (trim q)) as [m|] eqn:Eo; cbn [option_map];
        [|reflexivity].
      rewrite group_lower, toLowerCase_Decimal; [reflexivity|].
      exact (exec_over_groups _ _ Eo).
  - rewrite !parseQuery_minRating, trim_lower.
    rewrite (exec_lower _ _ case_blind_starsNum),
            (test_lower _ _ case_blind_impliesGood).
    destruct (exec true re_starsNum (trim q)) as [m|] eqn:Es; cbn [option_map];
      [|reflexivity].
    rewrite group_lower, toLowerCase_StarNumber; [reflexivity|].
    exact (exec_starsNum_groups _ _ Es).
  - rewrite !parseQuery_keywords, trim_lower. apply keywords_of_lower.
  - rewrite !parseQuery_priceIntent, trim_lower.
    rewrite (test_lower _ _ case_blind_wantsHigh),
            (test_lower _ _ case_blind_wantsLow).
    reflexivity.
Qed.

(** X11.  Within Latin-1, the case of the letters of a query does not
    matter: two queries of code units below 256 - the strings of this
    model - that are equal once lower-cased parse to the same constraint
    set and rank every list the same way.  Beyond Latin-1 the program can
    tell them apart: U+212A, the Kelvin sign, lower-cases to "k" and yet is
    no word character for [\b]. *)
Theorem query_case_is_ignored (q1 q2 : jsstring) (all : list Product) :
  toLowerCase q1 = toLowerCase q2 ->
  parseQuery q1 = parseQuery q2 /\
  applyAIQuery all q1 = applyAIQuery all q2.
Proof.
  intro H.
  assert (E : parseQuery q1 = parseQuery q2).
  { rewrite <- (parseQuery_lower q1), <- (parseQuery_lower q2), H.
    reflexivity. }
  split; [exact E|]. rewrite !applyAIQuery_rank, E. reflexivity.
Qed.

Lemma query_case_is_ignored_witness :
  toLowerCase (lit "CHEAP Shoes Under $80") = toLowerCase (lit "cheap shoes under $80") /\
  parseQuery (lit "CHEAP Shoes Under $80") = parseQuery (lit "cheap shoes under $80").
Proof.
  assert (H : toLowerCase (lit "CHEAP Shoes Under $80")
              = toLowerCase (lit "cheap shoes under $80")) by reflexivity.
  split; [exact H|].
  exact (proj1 (query_case_is_ignored _ _ [] H)).
Defined.

(* ================================================================== *)
(** ** Where a keyword matches *)

Lemma starts_with_spec (k s : jsstring) :
  starts_with k s = true <-> exists post, s = k ++ post.
Proof.
  revert s. induction k as [|x k IH]; intro s; simpl.
  - split; [eauto | reflexivity].
  - destruct s as [|y s].
    + split; [discriminate | intros [post H]; discriminate H].
    + rewrite andb_true_iff, ascii_eqb_eq, IH. split.
      * intros [-> [post ->]]. eauto.
      * intros [post H]. injection H as -> ->. eauto.
Qed.

Lemma includes_spec (hay k : jsstring) :
  includes hay k = true <-> exists pre post, hay = pre ++ k ++ post.
Proof.
  induction hay as [|c hay IH]; simpl.
  - rewrite orb_false_r, starts_with_spec. split.
    + intros [post H]. exists [], post. exact H.
    + intros [pre [post H]]. symmetry in H.
      apply app_eq_nil in H. destruct H as [-> H]. eauto.
  - rewrite orb_true_iff, starts_with_spec, IH. split.
    + intros [[post H] | [pre [post H]]].
      * exists [], post. exact H.
      * exists (c :: pre), post. rewrite H. reflexivity.
    + intros [[|a pre] [post H]].
      * left. eauto.
      * right. injection H as -> ->. eauto.
Qed.

Lemma includes_suffix (pre k : jsstring) : includes (pre ++ k) k = true.
Proof. apply includes_spec. exists pre, []. rewrite app_nil_r. reflexivity. Qed.





(* ================================================================== *)
(** ** The parts of a score *)

Section KeywordScore.
Variable hay : jsstring.

Let add (s : Q) (k : jsstring) : Q := if includes hay k then s + 2.5 else s.

Lemma keyword_score_bounds (kws : list jsstring) (s0 : Q) :
  s0 <= fold_left add kws s0 /\
  fold_left add kws s0 <= s0 + 2.5 * inject_Z (Z.of_nat (length kws)).
Proof.
  revert s0. induction kws as [|k kws IH]; intro s0.
  - simpl. unfold inject_Z. split; lra.
  - cbn [fold_left length]. destruct (IH (add s0 k)) as [H1 H2].
    rewrite Nat2Z.inj_succ in *. unfold Z.succ. rewrite inject_Z_plus.
    change (inject_Z 1) with 1.
    assert (Ha : s0 <= add s0 k /\ add s0 k <= s0 + 2.5)
      by (unfold add; destruct (includes hay k); split; lra).
    split; lra.
Qed.


Lemma keyword_score_miss (kws : list jsstring) (s0 : Q) :
  (forall k, In k kws -> includes hay k = false) ->
  fold_left add kws s0 = s0.
Proof.
  revert s0. induction kws as [|k kws IH]; intros s0 H; [reflexivity|].
  cbn [fold_left]. unfold add at 2. rewrite (H k (or_introl eq_refl)).
  apply IH. intros k' Hk'. apply H. right. exact Hk'.
Qed.

End KeywordScore.

Lemma hay_of_ends_with_category (p : Product) :
  exists pre, hay_of p = pre ++ toLowerCase (category p).
Proof.
  unfold hay_of, toLowerCase. rewrite !map_app.
  eexists. rewrite !app_assoc. reflexivity.
Qed.

(** When the category-hint bonus applies, the category is a keyword, and
    the text of the item holds it. *)
Lemma hint_needs_keyword (p : Product) (kws : list jsstring) :
  existsb (fun h => has kws h && string_eqb h (toLowerCase (category p)))
          CATEGORY_HINTS = true ->
  In (toLowerCase (category p)) kws /\
  includes (hay_of p) (toLowerCase (category p)) = true.
Proof.
  intro H. apply existsb_exists in H. destruct H as [h [_ H]].
  apply andb_true_iff in H. destruct H as [Hk He].
  apply string_eqb_eq in He. subst h. apply has_In in Hk.
  split; [exact Hk|].
  destruct (hay_of_ends_with_category p) as [pre ->]. apply includes_suffix.
Qed.


Ltac open_score :=
  unfold scoreProduct, bias;
  change (toLowerCase (name ?p ++ lit " " ++ description ?p ++ lit " "
                       ++ category ?p)) with (hay_of p).

(** X13.  A query never lowers a score: with a normalized price between
    0 and 1, the score of an item under any constraint set is at least its
    score under the empty one, which is the bias
    [rating * 0.2 - price * 0.01]. *)
Theorem query_never_lowers_score (p : Product) (c : Query) (n m : Q) :
  0 <= n -> n <= 1 ->
  scoreProduct p no_constraints m == bias p /\
  scoreProduct p no_constraints m <= scoreProduct p c n.
Proof.
  intros H0 H1.
  assert (E : scoreProduct p no_constraints m == bias p).
  { rewrite scoreProduct_staged.
    unfold score_from_maxPrice, after_maxPrice, after_hint, after_keywords,
      no_constraints, bias.
    cbn [maxPrice minPrice minRating keywords priceIntent fold_left]. cbv zeta.
    rewrite no_keyword_no_hint. lra. }
  split; [exact E|]. rewrite E. open_score.
  destruct (keyword_score_bounds (hay_of p) (keywords c) 0) as [K1 _].
  cbv zeta. set (s1 := fold_left _ (keywords c) 0) in *.
  destruct (existsb _ CATEGORY_HINTS);
    (destruct (maxPrice c) as [a|]; [destruct (Qle_bool (price p) a)|]);
    (destruct (minPrice c) as [b|]; [destruct (Qle_bool b (price p))|]);
    (destruct (minRating c) as [r|]; [destruct (Qle_bool r (rating p))|]);
    destruct (priceIntent c) as [[|]|]; lra.
Qed.

Lemma query_never_lowers_score_witness :
  0 <= 0.5 /\ 0.5 <= 1 /\
  scoreProduct runner no_constraints 0 <= scoreProduct runner shoes_query 0.5.
Proof.
  assert (H0 : 0 <= 0.5) by (vm_compute; discriminate).
  assert (H1 : 0.5 <= 1) by (vm_compute; discriminate).
  split; [exact H0|]. split; [exact H1|].
  exact (proj2 (query_never_lowers_score runner shoes_query 0.5 0 H0 H1)).
Defined.



(* ================================================================== *)
(** ** Who is in the result *)

Lemma above_or_none (l : list Product) (f : Product -> Q) (t : Q) :
  (exists x, In x l /\ t < f x) \/ (forall x, In x l -> f x <= t).
Proof.
  induction l as [|a l IH].
  - right. intros x [].
  - destruct (Qlt_le_dec t (f a)) as [H | H].
    + left. exists a. split; [left; reflexivity | exact H].
    + destruct IH as [[x [Hx Hf]] | IH].
      * left. exists x. split; [right; exact Hx | exact Hf].
      * right. intros x [<- | Hx]; [exact H | apply IH, Hx].
Qed.

(** An item is in the result when it passes the threshold, or when no
    item does. *)
Lemma rank_membership (p0 : Product) (rest : list Product) (parsed : Query)
    (p : Product) :
  In p (rank (p0 :: rest) parsed) <->
  In p (p0 :: rest) /\
  (0.5 < scoreOf p0 rest parsed p \/
   forall x, In x (p0 :: rest) -> scoreOf p0 rest parsed x <= 0.5).
Proof.
  destruct (above_or_none (p0 :: rest) (scoreOf p0 rest parsed) 0.5)
    as [Hex | Hnone].
  - rewrite (rank_In _ _ _ _ Hex). split; [tauto|].
    intros [Hin [H | H]]; [tauto|].
    destruct Hex as [x [Hx Hgt]]. specialize (H x Hx). lra.
  - rewrite rank_cons, (survivors_nil _ _ _ Hnone). cbv zeta. simpl map.
    cbv iota. split; [|tauto]. intro Hin. split; [exact Hin|]. right.
    exact Hnone.
Qed.

Lemma unmatched_score (p : Product) (c : Query) (n : Q) :
  keywords_only c ->
  (forall k, In k (keywords c) -> includes (hay_of p) k = false) ->
  scoreProduct p c n == bias p.
Proof.
  intros [Hmax [Hmin [Hrat Hint]]] Hmiss. open_score. cbv zeta.
  rewrite (keyword_score_miss (hay_of p) (keywords c) 0 Hmiss).
  rewrite Hmax, Hmin, Hrat, Hint.
  destruct (existsb _ CATEGORY_HINTS) eqn:E; [|lra].
  apply hint_needs_keyword in E. destruct E as [Hk Hi].
  rewrite (Hmiss _ Hk) in Hi. discriminate Hi.
Qed.

(** X15.  A query that sets no constraint and whose keywords occur in no
    item does not always fall back to the whole list: each item then
    scores its bias [rating * 0.2 - price * 0.01], and the result keeps
    the items whose bias is above 0.5, or every item when there is none. *)
Theorem unmatched_query_keeps_by_bias (p0 : Product) (rest : list Product)
    (parsed : Query) (p : Product) :
  keywords_only parsed ->
  (forall x k, In x (p0 :: rest) -> In k (keywords parsed) ->
               includes (hay_of x) k = false) ->
  (In p (rank (p0 :: rest) parsed) <->
   In p (p0 :: rest) /\
   (0.5 < bias p \/ forall x, In x (p0 :: rest) -> bias x <= 0.5)).
Proof.
  intros Hc Hmiss.
  assert (E : forall x, In x (p0 :: rest) ->
                        scoreOf p0 rest parsed x == bias x).
  { intros x Hx. apply unmatched_score; [exact Hc|].
    intros k Hk. apply (Hmiss x k Hx Hk). }
  rewrite rank_membership. split; intros [Hin H]; (split; [exact Hin|]).
  - destruct H as [H | H].
    + left. rewrite <- (E p Hin). exact H.
    + right. intros x Hx. rewrite <- (E x Hx). apply H, Hx.
  - destruct H as [H | H].
    + left. rewrite (E p Hin). exact H.
    + right. intros x Hx. rewrite (E x Hx). apply H, Hx.
Qed.

Example zzz_over_the_catalog :
  parseQuery (lit "zzz") = Samples.zzz_query /\
  applyAIQuery Data.products (lit "zzz") = [Samples.belt].
Proof. vm_compute. split; reflexivity. Qed.

Lemma unmatched_query_keeps_by_bias_witness :
  keywords_only Samples.zzz_query /\
  (forall x k, In x [Samples.belt; Samples.daypack] ->
               In k (keywords Samples.zzz_query) ->
               includes (hay_of x) k = false) /\
  (In Samples.belt (rank [Samples.belt; Samples.daypack] Samples.zzz_query) <->
   In Samples.belt [Samples.belt; Samples.daypack] /\
   (0.5 < bias Samples.belt \/
    forall x, In x [Samples.belt; Samples.daypack] -> bias x <= 0.5)).
Proof.
  assert (Hc : keywords_only Samples.zzz_query)
    by (repeat split; reflexivity).
  assert (Hm : forall x k, In x [Samples.belt; Samples.daypack] ->
                 In k (keywords Samples.zzz_query) ->
                 includes (hay_of x) k = false).
  { intros x k [<- | [<- | []]] [<- | []]; vm_compute; reflexivity. }
  split; [exact Hc|]. split; [exact Hm|].
  exact (unmatched_query_keeps_by_bias
           Samples.belt [Samples.daypack] Samples.zzz_query Samples.belt Hc Hm).
Defined.

(* ================================================================== *)
(** ** The order of the result *)

Ltac qeq_cases :=
  repeat match goal with
  | |- context [Qeq_bool ?x ?y] =>
      let E := fresh "E" in
      destruct (Qeq_bool x y) eqn:E;
      [apply Qeq_bool_iff in E | apply Qeq_bool_neq in E]
  | H : context [Qeq_bool ?x ?y] |- _ =>
      let E := fresh "E" in
      destruct (Qeq_bool x y) eqn:E;
      [apply Qeq_bool_iff in E | apply Qeq_bool_neq in E]
  end.

Lemma Qneq_cases (x y : Q) : ~ x == y -> x < y \/ y < x.
Proof.
  intro H. destruct (Q_dec x y) as [[Hlt | Hgt] | Heq]; tauto.
Qed.

(** The comparator does not put [b] first exactly when [a] may stand
    before [b]. *)
Lemma compareScored_before (parsed : Query) (a b : Scored) :
  compareScored parsed a b <= 0 <-> scored_before parsed a b.
Proof.
  unfold compareScored, scored_before, by_quality, intent_is.
  destruct (priceIntent parsed) as [[|]|]; cbn [andb negb];
    qeq_cases; cbn [negb andb];
    repeat match goal with
    | H : ~ _ == _ |- _ => apply Qneq_cases in H
    end;
    split; intro H; intuition lra.
Qed.

Lemma scored_before_total (parsed : Query) (a b : Scored) :
  scored_before parsed a b \/ scored_before parsed b a.
Proof.
  unfold scored_before, by_quality.
  destruct (Q_dec (sc_s a) (sc_s b)) as [[H | H] | H];
    [right; left; exact H | left; left; exact H |].
  destruct (Q_dec (sc_nprice a) (sc_nprice b)) as [[Hn | Hn] | Hn];
    destruct (Q_dec (rating (sc_p a)) (rating (sc_p b))) as [[Hr | Hr] | Hr];
    destruct (Qlt_le_dec (price (sc_p b)) (price (sc_p a))) as [Hp | Hp];
    destruct (priceIntent parsed) as [[|]|];
    first [ left; right; split; [lra|]; intuition lra
          | right; right; split; [lra|]; intuition lra ].
Qed.

Lemma scored_before_trans (parsed : Query) (a b c : Scored) :
  scored_before parsed a b -> scored_before parsed b c ->
  scored_before parsed a c.
Proof.
  unfold scored_before, by_quality.
  destruct (priceIntent parsed) as [[|]|]; intros H1 H2; intuition lra.
Qed.

Section SortOrder.
Context {A : Type}.
Variable cmp : A -> A -> Q.
Variable before_ : A -> A -> Prop.
Hypothesis cmp_before : forall x y, cmp x y <= 0 <-> before_ x y.
Hypothesis before_total : forall x y, before_ x y \/ before_ y x.
Hypothesis before_trans :
  forall x y z, before_ x y -> before_ y z -> before_ x z.

Lemma insert_sorted (x : A) (l : list A) :
  StronglySorted before_ l -> StronglySorted before_ (insert cmp x l).
Proof.
  induction 1 as [|y l Hs IH Hy]; simpl.
  - constructor; constructor.
  - destruct (Qgt_bool (cmp x y) 0) eqn:E.
    + apply Qgt_bool_iff in E.
      assert (Hyx : before_ y x).
      { destruct (before_total x y) as [H | H]; [|exact H].
        apply cmp_before in H. lra. }
      constructor; [exact IH|].
      rewrite Forall_forall in *. intros z Hz.
      apply (Permutation_in _ (insert_perm cmp x l)) in Hz.
      destruct Hz as [<- | Hz]; [exact Hyx | apply Hy, Hz].
    + apply Qgt_bool_false_iff, cmp_before in E.
      constructor; [constructor; assumption|].
      constructor; [exact E|].
      rewrite Forall_forall in *. intros z Hz.
      eapply before_trans; [exact E | apply Hy, Hz].
Qed.

Lemma sort_sorted (l : list A) : StronglySorted before_ (sort cmp l).
Proof.
  induction l as [|x l IH]; simpl.
  - constructor.
  - apply insert_sorted, IH.
Qed.

End SortOrder.

Section SortStable.
Context {A : Type}.
Variable cmp : A -> A -> Q.
Variable same : A -> bool.
Hypothesis same_not_after :
  forall x y, same x = true -> same y = true -> cmp x y <= 0.

Lemma insert_stable (x : A) (l : list A) :
  filter same (insert cmp x l) = filter same (x :: l).
Proof.
  induction l as [|y l IH]; [reflexivity|].
  cbn [insert]. destruct (Qgt_bool (cmp x y) 0) eqn:E; [|reflexivity].
  apply Qgt_bool_iff in E.
  cbn [filter] in *. rewrite IH.
  destruct (same x) eqn:Ex, (same y) eqn:Ey; try reflexivity.
  pose proof (same_not_after x y Ex Ey). lra.
Qed.

Lemma sort_stable (l : list A) : filter same (sort cmp l) = filter same l.
Proof.
  induction l as [|x l IH]; [reflexivity|].
  cbn [sort fold_right]. fold (sort cmp l).
  rewrite insert_stable. cbn [filter]. rewrite IH. reflexivity.
Qed.

End SortStable.

Lemma StronglySorted_map {A B : Type} (f : A -> B) (R : B -> B -> Prop)
    (l : list A) :
  StronglySorted (fun x y => R (f x) (f y)) l -> StronglySorted R (map f l).
Proof.
  induction 1 as [|x l Hs IH Hx]; simpl; constructor; [exact IH|].
  rewrite Forall_forall in *. intros y Hy.
  apply in_map_iff in Hy. destruct Hy as [z [<- Hz]]. apply Hx, Hz.
Qed.

Lemma StronglySorted_weaken {A : Type} (R S : A -> A -> Prop) (l : list A) :
  (forall x y, In x l -> In y l -> R x y -> S x y) ->
  StronglySorted R l -> StronglySorted S l.
Proof.
  intros H Hs. induction Hs as [|x l Hs IH Hx]; constructor.
  - apply IH. intros a b Ha Hb. apply H; right; assumption.
  - rewrite Forall_forall in *. intros y Hy.
    apply H; [left; reflexivity | right; exact Hy | apply Hx, Hy].
Qed.

Lemma survivors_scored (p0 : Product) (rest : list Product) (parsed : Query)
    (x : Scored) :
  In x (survivors p0 rest parsed) -> x = scored p0 rest parsed (sc_p x).
Proof.
  intro H. apply survivors_In in H. destruct H as [p [_ [-> _]]]. reflexivity.
Qed.

(** X16.  When some item passes the threshold, the result is in the
    order of the comparator - every item may stand before every later
    one: higher score first, then the normalized price as the price
    intent asks, then higher rating, then lower price - and so the
    scores never increase along the result. *)
Theorem rank_is_sorted (p0 : Product) (rest : list Product) (parsed : Query) :
  (exists x, In x (p0 :: rest) /\ 0.5 < scoreOf p0 rest parsed x) ->
  StronglySorted (ranked_before p0 rest parsed) (rank (p0 :: rest) parsed) /\
  StronglySorted (fun a b => scoreOf p0 rest parsed b <= scoreOf p0 rest parsed a)
                 (rank (p0 :: rest) parsed).
Proof.
  intros [x Hx].
  assert (S : StronglySorted (ranked_before p0 rest parsed)
                (map sc_p (sort (compareScored parsed)
                                (survivors p0 rest parsed)))).
  { apply StronglySorted_map.
    eapply StronglySorted_weaken;
      [|apply (sort_sorted (compareScored parsed) (scored_before parsed));
        [apply compareScored_before | apply scored_before_total
        | apply scored_before_trans]].
    intros a b Ha Hb H.
    apply sort_In, survivors_scored in Ha, Hb.
    rewrite Ha, Hb in H. exact H. }
  assert (E : rank (p0 :: rest) parsed
              = map sc_p (sort (compareScored parsed)
                               (survivors p0 rest parsed))).
  { rewrite rank_cons. cbv zeta.
    pose proof (ranked_In p0 rest parsed x) as HR.
    destruct (map sc_p (sort (compareScored parsed) (survivors p0 rest parsed))).
    - apply HR in Hx. destruct Hx.
    - reflexivity. }
  rewrite E. split; [exact S|].
  eapply StronglySorted_weaken; [|exact S].
  intros a b _ _ H. unfold ranked_before in H. cbv zeta in H.
  destruct H as [H | [H _]]; lra.
Qed.

Lemma rank_is_sorted_witness :
  (exists x, In x [Samples.trail_runner; Samples.urban_jogger] /\
             0.5 < scoreOf Samples.trail_runner [Samples.urban_jogger]
                           shoes_query x) /\
  rank [Samples.trail_runner; Samples.urban_jogger] shoes_query
  = [Samples.urban_jogger; Samples.trail_runner] /\
  scoreOf Samples.trail_runner [Samples.urban_jogger] shoes_query
          Samples.trail_runner
  < scoreOf Samples.trail_runner [Samples.urban_jogger] shoes_query
            Samples.urban_jogger /\
  StronglySorted
    (ranked_before Samples.trail_runner [Samples.urban_jogger] shoes_query)
    (rank [Samples.trail_runner; Samples.urban_jogger] shoes_query) /\
  StronglySorted
    (fun a b =>
       scoreOf Samples.trail_runner [Samples.urban_jogger] shoes_query b
       <= scoreOf Samples.trail_runner [Samples.urban_jogger] shoes_query a)
    (rank [Samples.trail_runner; Samples.urban_jogger] shoes_query).
Proof.
  assert (Hex : exists x,
            In x [Samples.trail_runner; Samples.urban_jogger] /\
            0.5 < scoreOf Samples.trail_runner [Samples.urban_jogger]
                          shoes_query x).
  { exists Samples.trail_runner.
    split; [left; reflexivity | vm_compute; reflexivity]. }
  split; [exact Hex|].
  split; [vm_compute; reflexivity|].
  split; [vm_compute; reflexivity|].
  exact (rank_is_sorted Samples.trail_runner [Samples.urban_jogger]
           shoes_query Hex).
Defined.

Lemma rank_when_some_pass (p0 : Product) (rest : list Product)
    (parsed : Query) :
  (exists x, In x (p0 :: rest) /\ 0.5 < scoreOf p0 rest parsed x) ->
  rank (p0 :: rest) parsed
  = map sc_p (sort (compareScored parsed) (survivors p0 rest parsed)).
Proof.
  intros [x Hx]. rewrite rank_cons. cbv zeta.
  pose proof (ranked_In p0 rest parsed x) as HR.
  destruct (map sc_p (sort (compareScored parsed) (survivors p0 rest parsed))).
  - apply HR in Hx. destruct Hx.
  - reflexivity.
Qed.

Lemma scored_tied_not_after (parsed : Query) (z x y : Scored) :
  scored_tied z x = true -> scored_tied z y = true ->
  compareScored parsed x y <= 0.
Proof.
  unfold scored_tied. intros Hx Hy.
  repeat (apply andb_true_iff in Hx; destruct Hx as [Hx ?]).
  repeat (apply andb_true_iff in Hy; destruct Hy as [Hy ?]).
  repeat match goal with
  | H : Qeq_bool _ _ = true |- _ => apply Qeq_bool_iff in H
  end.
  unfold compareScored, intent_is.
  destruct (priceIntent parsed) as [[|]|]; cbn [andb negb];
    qeq_cases; cbn [negb andb]; lra.
Qed.

Lemma nprice_of_equal_prices (p0 : Product) (rest : list Product)
    (p z : Product) :
  price p == price z -> npriceOf p0 rest p == npriceOf p0 rest z.
Proof. intro H. unfold npriceOf. rewrite H. reflexivity. Qed.

Lemma scored_tied_scored (p0 : Product) (rest : list Product)
    (parsed : Query) (z p : Product) :
  scored_tied (scored p0 rest parsed z) (scored p0 rest parsed p)
  = tied p0 rest parsed z p.
Proof.
  unfold scored_tied, tied, scored. cbn [sc_s sc_nprice sc_p].
  destruct (Qeq_bool (scoreOf p0 rest parsed p) (scoreOf p0 rest parsed z));
    [|reflexivity].
  destruct (Qeq_bool (rating p) (rating z));
    [|cbn [andb]; rewrite andb_false_r; reflexivity].
  destruct (Qeq_bool (price p) (price z)) eqn:E;
    [|cbn [andb]; rewrite andb_false_r; reflexivity].
  apply Qeq_bool_iff in E.
  apply (nprice_of_equal_prices p0 rest), Qeq_bool_iff in E.
  rewrite E. reflexivity.
Qed.

Lemma filter_map_commute {A B : Type} (f : A -> B) (g : B -> bool)
    (l : list A) :
  filter g (map f l) = map f (filter (fun x => g (f x)) l).
Proof.
  induction l as [|a l IH]; [reflexivity|].
  simpl. destruct (g (f a)); simpl; rewrite IH; reflexivity.
Qed.

(** X17.  The sort is stable: when some item passes the threshold, the
    items that tie with a given item - same score, same rating, same
    price - stand in the result in the order they have in the input. *)
Theorem rank_is_stable (p0 : Product) (rest : list Product) (parsed : Query)
    (z : Product) :
  (exists x, In x (p0 :: rest) /\ 0.5 < scoreOf p0 rest parsed x) ->
  filter (tied p0 rest parsed z) (rank (p0 :: rest) parsed)
  = filter (tied p0 rest parsed z)
      (filter (fun p => Qgt_bool (scoreOf p0 rest parsed p) 0.5) (p0 :: rest)).
Proof.
  intro Hex. rewrite (rank_when_some_pass _ _ _ Hex).
  assert (T : forall l,
    (forall x, In x l -> In x (survivors p0 rest parsed)) ->
    filter (fun x => tied p0 rest parsed z (sc_p x)) l
    = filter (scored_tied (scored p0 rest parsed z)) l).
  { intros l Hl. apply filter_ext_in. intros x Hx.
    rewrite (survivors_scored _ _ _ _ (Hl x Hx)) at 2.
    symmetry. apply scored_tied_scored. }
  rewrite filter_map_commute, T by (intros x Hx; apply sort_In in Hx; exact Hx).
  rewrite (sort_stable (compareScored parsed) _
             (scored_tied_not_after parsed (scored p0 rest parsed z))).
  rewrite <- T by auto. rewrite <- filter_map_commute.
  unfold survivors, scoreAll.
  rewrite (map_filter_map _ sc_p) by reflexivity. reflexivity.
Qed.

Lemma rank_is_stable_witness :
  (exists x, In x [Samples.mug_two; Samples.mug_one] /\
             0.5 < scoreOf Samples.mug_two [Samples.mug_one]
                           Samples.mug_query x) /\
  filter (tied Samples.mug_two [Samples.mug_one] Samples.mug_query
               Samples.mug_one)
         (rank [Samples.mug_two; Samples.mug_one] Samples.mug_query)
  = [Samples.mug_two; Samples.mug_one].
Proof.
  assert (Hex : exists x, In x [Samples.mug_two; Samples.mug_one] /\
                  0.5 < scoreOf Samples.mug_two [Samples.mug_one]
                                Samples.mug_query x).
  { exists Samples.mug_one.
    split; [right; left; reflexivity | vm_compute; reflexivity]. }
  split; [exact Hex|].
  rewrite (rank_is_stable Samples.mug_two [Samples.mug_one]
             Samples.mug_query Samples.mug_one Hex).
  vm_compute. reflexivity.
Defined.

(* ================================================================== *)
(** ** The one-sided price rules *)

Lemma exec_from_step_none (ic : bool) (r : regex) (b : option ascii)
    (c : ascii) (t : jsstring) :
  rmatch ic r (fun y => Some (groups y)) (Cursor b (c :: t) []) = None ->
  exec_from ic r b (c :: t) = exec_from ic r (Some c) t.
Proof. intro H. rewrite exec_from_cons, H. reflexivity. Qed.

Ltac by_number_char c :=
  let H := fresh "H" in
  intro H; destruct c as [[] [] [] [] [] [] [] []]; vm_compute in H;
  first [discriminate H | reflexivity].

Lemma between_miss_numeral {A : Type} (k : cursor -> option A) (c : ascii)
    (b : option ascii) (s : jsstring) (g : list (nat * jsstring)) :
  Samples.number_char c = true ->
  rmatch true re_between k (Cursor b (c :: s) g) = None.
Proof. by_number_char c. Qed.

Lemma under_miss_numeral {A : Type} (k : cursor -> option A) (c : ascii)
    (b : option ascii) (s : jsstring) (g : list (nat * jsstring)) :
  Samples.number_char c = true ->
  rmatch true re_under k (Cursor b (c :: s) g) = None.
Proof. by_number_char c. Qed.

Lemma exec_from_numeral_none (r : regex) (X : jsstring) (b : option ascii) :
  (forall c b s, Samples.number_char c = true ->
     rmatch true r (fun y => Some (groups y)) (Cursor b (c :: s) []) = None) ->
  (forall b, rmatch true r (fun y => Some (groups y)) (Cursor b [] []) = None) ->
  forallb Samples.number_char X = true ->
  exec_from true r b X = None.
Proof.
  intros Hc Hnil. revert b. induction X as [|c X IH]; intros b H.
  - rewrite exec_from_nil, Hnil. reflexivity.
  - simpl in H. apply andb_true_iff in H. destruct H as [H1 H2].
    rewrite exec_from_step_none by (apply Hc, H1). apply IH, H2.
Qed.

Lemma Decimal_number_chars (X : jsstring) :
  Decimal X -> forallb Samples.number_char X = true.
Proof.
  assert (D : forall w, forallb is_digit w = true ->
                        forallb Samples.number_char w = true).
  { intros w H. rewrite forallb_forall in *. intros c Hc.
    unfold Samples.number_char. rewrite (H c Hc). reflexivity. }
  intros [i Hi | i f Hi Hf].
  - apply D, all_digits_spec, Hi.
  - rewrite forallb_app. simpl.
    rewrite !D by (apply all_digits_spec; assumption). reflexivity.
Qed.

Lemma between_none_after (X : jsstring) (b : option ascii) :
  Decimal X -> exec_from true re_between b X = None.
Proof.
  intro H. apply exec_from_numeral_none.
  - intros. apply between_miss_numeral. assumption.
  - reflexivity.
  - apply Decimal_number_chars, H.
Qed.

Lemma under_none_after (X : jsstring) (b : option ascii) :
  Decimal X -> exec_from true re_under b X = None.
Proof.
  intro H. apply exec_from_numeral_none.
  - intros. apply under_miss_numeral. assumption.
  - reflexivity.
  - apply Decimal_number_chars, H.
Qed.

Ltac skip_prefix :=
  unfold exec; cbn [Samples.under_triggers Samples.over_triggers lit
                    list_ascii_of_string app];
  repeat (rewrite exec_from_step_none by reflexivity).

Lemma between_none_one_sided (T X : jsstring) :
  In T Samples.under_triggers \/ In T Samples.over_triggers ->
  Decimal X ->
  exec true re_between (T ++ " "%char :: X) = None.
Proof.
  intros [H | H] HX; simpl in H;
    repeat (destruct H as [<- | H]; [skip_prefix; apply between_none_after, HX|]);
    destruct H.
Qed.

Lemma under_none_over (T X : jsstring) :
  In T Samples.over_triggers -> Decimal X ->
  exec true re_under (T ++ " "%char :: X) = None.
Proof.
  intros H HX; simpl in H;
    repeat (destruct H as [<- | H]; [skip_prefix; apply under_none_after, HX|]);
    destruct H.
Qed.

(** After a word, white space and a numeral: the word is group 1 and the
    numeral group 2. *)
Lemma one_bound_exec (r : regex) (T X : jsstring) :
  (forall (k : cursor -> option (list (nat * jsstring))) b s g,
     rmatch true r k (Cursor b (T ++ s) g)
     = k (Cursor (prev_after b T) s g)) ->
  Decimal X ->
  exec true
    (Seq (Grp 1 r)
       (Seq (Star is_space) (Seq (Opt (Chr "$")) (Grp 2 re_number))))
    (T ++ " "%char :: X)
  = Some [(2%nat, X); (1%nat, T)].
Proof.
  intros Hr HX. apply exec_from_here.
  replace (T ++ " "%char :: X) with (T ++ [" "%char] ++ X ++ [])
    by (rewrite app_nil_r; reflexivity).
  rewrite rmatch_Seq, rmatch_Grp, Hr.
  unfold capture. cbn [input before groups]. rewrite firstn_consumed.
  rewrite rmatch_Seq.
  apply rmatch_Star_greedy;
    [reflexivity | apply (Decimal_stops_space X []), HX |].
  rewrite rmatch_Seq, rmatch_no_dollar by exact HX.
  apply rmatch_group_number; [exact HX | exact I | reflexivity].
Qed.

Ltac reads_word :=
  intros k b s g;
  cbn [Samples.under_triggers Samples.over_triggers lit list_ascii_of_string
       app map];
  unfold prev_after; cbn; unfold step; cbn [groups before input];
  repeat match goal with
  | |- context [k ?y] => destruct (k y); try reflexivity
  end.

Lemma under_reads (T : jsstring) :
  In T Samples.under_triggers ->
  forall (k : cursor -> option (list (nat * jsstring))) b s g,
    rmatch true
      (Alt (Alt (Alt (word "under") (word "below"))
                (Seq (word "less") (Seq (Plus is_space) (word "than"))))
           (Seq (word "cheaper") (Seq (Plus is_space) (word "than"))))
      k (Cursor b (T ++ s) g)
    = k (Cursor (prev_after b T) s g).
Proof.
  intro H. simpl in H.
  destruct H as [<- | [<- | [<- | [<- | []]]]]; reads_word.
Qed.

Lemma over_reads (T : jsstring) :
  In T Samples.over_triggers ->
  forall (k : cursor -> option (list (nat * jsstring))) b s g,
    rmatch true
      (Alt (Alt (Alt (word "over") (word "above"))
                (Seq (word "more") (Seq (Plus is_space) (word "than"))))
           (Seq (word "at") (Seq (Plus is_space) (word "least"))))
      k (Cursor b (T ++ s) g)
    = k (Cursor (prev_after b T) s g).
Proof.
  intro H. simpl in H.
  destruct H as [<- | [<- | [<- | [<- | []]]]]; reads_word.
Qed.

Lemma trim_word_numeral (c1 : ascii) (T X : jsstring) :
  is_space c1 = false -> Decimal X ->
  trim ((c1 :: T) ++ " "%char :: X) = (c1 :: T) ++ " "%char :: X.
Proof.
  intros H HX.
  replace ((c1 :: T) ++ " "%char :: X) with (c1 :: (T ++ [" "%char]) ++ X)
    by (simpl; rewrite <- app_assoc; reflexivity).
  apply trim_phrase; assumption.
Qed.

Lemma trim_one_sided (T X : jsstring) :
  In T Samples.under_triggers \/ In T Samples.over_triggers ->
  Decimal X ->
  trim (T ++ " "%char :: X) = T ++ " "%char :: X.
Proof.
  intros [H | H] HX; simpl in H;
    destruct H as [<- | [<- | [<- | [<- | []]]]];
    apply trim_word_numeral; (reflexivity || assumption).
Qed.

Lemma exec_under_rule (T X : jsstring) :
  In T Samples.under_triggers -> Decimal X ->
  exec true re_under (T ++ " "%char :: X) = Some [(2%nat, X); (1%nat, T)].
Proof.
  intros H HX. unfold re_under.
  apply one_bound_exec; [apply under_reads, H | exact HX].
Qed.

Lemma exec_over_rule (T X : jsstring) :
  In T Samples.over_triggers -> Decimal X ->
  exec true re_over (T ++ " "%char :: X) = Some [(2%nat, X); (1%nat, T)].
Proof.
  intros H HX. unfold re_over.
  apply one_bound_exec; [apply over_reads, H | exact HX].
Qed.

(** X18.  "under", "below", "less than" or "cheaper than", a space and a
    decimal numeral set the price ceiling to that number and no floor. *)
Theorem ceiling_rule (T X : jsstring) :
  In T Samples.under_triggers -> Decimal X ->
  maxPrice (parseQuery (T ++ " "%char :: X)) = Some (Number X) /\
  minPrice (parseQuery (T ++ " "%char :: X)) = None.
Proof.
  intros H HX.
  rewrite parseQuery_maxPrice, parseQuery_minPrice.
  rewrite (trim_one_sided T X (or_introl H) HX).
  rewrite (between_none_one_sided T X (or_introl H) HX).
  rewrite (exec_under_rule T X H HX). split; reflexivity.
Qed.

Lemma ceiling_rule_witness :
  In (lit "less than") Samples.under_triggers /\ Decimal (lit "19.99") /\
  maxPrice (parseQuery (lit "less than 19.99")) = Some 19.99 /\
  minPrice (parseQuery (lit "less than 19.99")) = None.
Proof.
  assert (H : In (lit "less than") Samples.under_triggers)
    by (right; right; left; reflexivity).
  assert (HX : Decimal (lit "19.99"))
    by (apply (Decimal_frac (lit "19") (lit "99")); reflexivity).
  split; [exact H|]. split; [exact HX|].
  exact (ceiling_rule (lit "less than") (lit "19.99") H HX).
Defined.

(** X19.  "over", "above", "more than" or "at least", a space and a
    decimal numeral set the price floor to that number and no ceiling. *)
Theorem floor_rule (T X : jsstring) :
  In T Samples.over_triggers -> Decimal X ->
  minPrice (parseQuery (T ++ " "%char :: X)) = Some (Number X) /\
  maxPrice (parseQuery (T ++ " "%char :: X)) = None.
Proof.
  intros H HX.
  rewrite parseQuery_maxPrice, parseQuery_minPrice.
  rewrite (trim_one_sided T X (or_intror H) HX).
  rewrite (between_none_one_sided T X (or_intror H) HX).
  rewrite (under_none_over T X H HX).
  rewrite (exec_over_rule T X H HX). split; reflexivity.
Qed.

Lemma floor_rule_witness :
  In (lit "at least") Samples.over_triggers /\ Decimal (lit "25") /\
  minPrice (parseQuery (lit "at least 25")) = Some 25 /\
  maxPrice (parseQuery (lit "at least 25")) = None.
Proof.
  assert (H : In (lit "at least") Samples.over_triggers)
    by (right; right; right; left; reflexivity).
  assert (HX : Decimal (lit "25")) by (apply Decimal_int; reflexivity).
  split; [exact H|]. split; [exact HX|].
  exact (floor_rule (lit "at least") (lit "25") H HX).
Defined.

(* ================================================================== *)
(** ** The price intent *)

Lemma nprice_gap (p0 : Product) (rest : list Product) (a b : Product) :
  npriceOf p0 rest b - npriceOf p0 rest a
  == (price b - price a) * / spanOf p0 rest.
Proof. unfold npriceOf, Qdiv. ring. Qed.

Lemma inv_span_nonneg (p0 : Product) (rest : list Product) :
  0 <= / spanOf p0 rest.
Proof.
  pose proof (spanOf_ge_1 p0 rest) as H1.
  apply Qinv_le_0_compat. lra.
Qed.

(** X20.  All else equal, the cheaper item never scores lower, unless
    the query favors the expensive or sets a price floor: for two items
    that differ in price only, under a constraint set without [minPrice]
    whose price intent is favor-cheap or absent, the score of the cheaper
    one is at least the score of the pricier one. *)
Theorem cheaper_twin_never_scores_lower (p0 : Product) (rest : list Product)
    (parsed : Query) (a b : Product) :
  minPrice parsed = None -> priceIntent parsed <> Some high ->
  name a = name b -> description a = description b ->
  category a = category b -> rating a = rating b ->
  price a <= price b ->
  scoreOf p0 rest parsed b <= scoreOf p0 rest parsed a.
Proof.
  intros Hmin Hi Hn Hd Hc Hr Hp.
  pose proof (nprice_gap p0 rest a b) as G.
  pose proof (inv_span_nonneg p0 rest) as I0.
  unfold scoreOf, scoreProduct. rewrite Hmin, Hn, Hd, Hc, Hr. cbv zeta.
  set (s1 := fold_left _ (keywords parsed) 0).
  set (s2 := if existsb _ CATEGORY_HINTS then _ else _).
  set (t := / spanOf p0 rest) in *.
  set (na := npriceOf p0 rest a) in *. set (nb := npriceOf p0 rest b) in *.
  clearbody t na nb.
  assert (Hm : forall m, Qle_bool (price b) m = true -> Qle_bool (price a) m = true).
  { intros m H. apply Qle_bool_iff in H. apply Qle_bool_iff. lra. }
  destruct (maxPrice parsed) as [m|].
  - specialize (Hm m).
    destruct (Qle_bool (price b) m);
      [rewrite (Hm eq_refl) | destruct (Qle_bool (price a) m)];
      (destruct (minRating parsed) as [r|]; [destruct (Qle_bool r (rating b))|]);
      (destruct (priceIntent parsed) as [[|]|]; [congruence | nra | lra]).
  - (destruct (minRating parsed) as [r|]; [destruct (Qle_bool r (rating b))|]);
      (destruct (priceIntent parsed) as [[|]|]; [congruence | nra | lra]).
Qed.

Lemma cheaper_twin_never_scores_lower_witness :
  priceIntent Samples.thrifty_mug_query <> Some high /\
  price Samples.mug_one <= price Samples.mug_dear /\
  scoreOf Samples.mug_one [Samples.mug_dear] Samples.thrifty_mug_query
          Samples.mug_dear
  <= scoreOf Samples.mug_one [Samples.mug_dear] Samples.thrifty_mug_query
             Samples.mug_one.
Proof.
  assert (Hi : priceIntent Samples.thrifty_mug_query <> Some high)
    by discriminate.
  assert (Hp : price Samples.mug_one <= price Samples.mug_dear)
    by (vm_compute; discriminate).
  split; [exact Hi|]. split; [exact Hp|].
  exact (cheaper_twin_never_scores_lower
           Samples.mug_one [Samples.mug_dear] Samples.thrifty_mug_query
           Samples.mug_one Samples.mug_dear
           eq_refl Hi eq_refl eq_refl eq_refl eq_refl Hp).
Defined.

(* ================================================================== *)
(** ** The case of an item's texts *)

Lemma toLowerCase_app (a b : jsstring) :
  toLowerCase (a ++ b) = toLowerCase a ++ toLowerCase b.
Proof. apply map_app. Qed.

(** X21.  The case of the letters of an item's name, description and
    category does not matter to its score: two items whose three texts
    are equal once lower-cased, with the same price and rating, score
    the same under every query. *)
Theorem item_case_is_ignored (a b : Product) (c : Query) (n : Q) :
  toLowerCase (name a) = toLowerCase (name b) ->
  toLowerCase (description a) = toLowerCase (description b) ->
  toLowerCase (category a) = toLowerCase (category b) ->
  price a = price b -> rating a = rating b ->
  scoreProduct a c n = scoreProduct b c n.
Proof.
  intros Hn Hd Hc Hp Hr. unfold scoreProduct.
  rewrite !toLowerCase_app, Hn, Hd, Hc, Hp, Hr. reflexivity.
Qed.

Lemma item_case_is_ignored_witness :
  toLowerCase (name Samples.mug_loud) = toLowerCase (name Samples.mug_one) /\
  scoreProduct Samples.mug_loud Samples.mug_query 0
  = scoreProduct Samples.mug_one Samples.mug_query 0.
Proof.
  split; [reflexivity|].
  exact (item_case_is_ignored Samples.mug_loud Samples.mug_one
           Samples.mug_query 0 eq_refl eq_refl eq_refl eq_refl eq_refl).
Defined.

(* ================================================================== *)
(** ** The ends of the price scale *)





(* ================================================================== *)
(** ** The facet filters *)

(** X23.  The facet filters are hard and monotone: an item that passes
    under a price ceiling and a rating floor passes under every higher
    ceiling and lower floor, and under no ceiling, no floor or no
    category at all. *)
Theorem facets_are_monotone (products : list Product) (category : jsstring)
    (m1 m2 r1 r2 : Q) (p : Product) :
  m1 <= m2 -> r2 <= r1 ->
  In p (Ui.baseFiltered products category (Some m1) (Some r1)) ->
  In p (Ui.baseFiltered products category (Some m2) (Some r2)) /\
  In p (Ui.baseFiltered products category None (Some r1)) /\
  In p (Ui.baseFiltered products category (Some m1) None) /\
  In p (Ui.baseFiltered products [] (Some m1) (Some r1)).
Proof.
  intros Hm Hr H. unfold Ui.baseFiltered in *.
  apply filter_In in H. destruct H as [Hin Hk].
  apply keeps_spec in Hk. destruct Hk as [Hc [Hmax Hrat]].
  specialize (Hmax _ eq_refl). specialize (Hrat _ eq_refl).
  repeat split; apply filter_In; (split; [exact Hin|]); apply keeps_spec;
    repeat split; try exact Hc; try congruence;
    intros m E; try discriminate E; injection E as <-;
    first [assumption | lra].
Qed.

Lemma facets_are_monotone_witness :
  59 <= 60 /\ 4 <= 4.4 /\
  In Samples.daypack (Ui.baseFiltered Data.products (lit "Bags") (Some 59) (Some 4.4)) /\
  In Samples.daypack (Ui.baseFiltered Data.products (lit "Bags") (Some 60) (Some 4)).
Proof.
  assert (Hm : 59 <= 60) by (vm_compute; discriminate).
  assert (Hr : 4 <= 4.4) by (vm_compute; discriminate).
  assert (H : In Samples.daypack
                (Ui.baseFiltered Data.products (lit "Bags") (Some 59) (Some 4.4)))
    by (vm_compute; left; reflexivity).
  split; [exact Hm|]. split; [exact Hr|]. split; [exact H|].
  exact (proj1 (facets_are_monotone Data.products (lit "Bags") 59 60 4.4 4
                  Samples.daypack Hm Hr H)).
Defined.

(* ================================================================== *)
(** ** The keywords of plain words *)

Lemma plain_char_facts (c : ascii) :
  plain_char c = true ->
  is_space c = false /\ keep_char c = true /\ lower_char c = c /\
  ascii_eqb c "-"%char = false /\ ascii_eqb "."%char c = false.
Proof.
  destruct c as [[] [] [] [] [] [] [] []]; intro H; vm_compute in H;
    try discriminate H; repeat split; reflexivity.
Qed.

Lemma plain_word_spec (w : jsstring) :
  plain_word w = true -> w <> [] /\ forallb plain_char w = true.
Proof.
  unfold plain_word. intro H. apply andb_true_iff in H.
  destruct H as [H1 H2]. split; [|exact H2].
  intro E. subst w. discriminate H1.
Qed.

Lemma join_spaces_chars (ws : list jsstring) :
  Forall (fun w => plain_word w = true) ws ->
  Forall joined_char (join_spaces ws).
Proof.
  induction 1 as [|w ws Hw Hws IH]; [constructor|].
  assert (P : Forall joined_char w).
  { apply Forall_forall. intros c Hc. left.
    destruct (plain_word_spec w Hw) as [_ H].
    rewrite forallb_forall in H. apply H, Hc. }
  destruct ws as [|w' ws']; [exact P|].
  change (join_spaces (w :: w' :: ws'))
    with (w ++ " "%char :: join_spaces (w' :: ws')).
  apply Forall_app. split; [exact P|].
  constructor; [right; reflexivity | exact IH].
Qed.

Lemma map_id_on {A : Type} (f : A -> A) (P : A -> Prop) (l : list A) :
  (forall a, P a -> f a = a) -> Forall P l -> map f l = l.
Proof.
  intros H. induction 1 as [|a l Ha Hl IH]; [reflexivity|].
  simpl. rewrite (H a Ha), IH. reflexivity.
Qed.

Lemma toLowerCase_joined (s : jsstring) :
  Forall joined_char s -> toLowerCase s = s.
Proof.
  apply map_id_on. intros c [H | ->]; [|reflexivity].
  apply plain_char_facts, H.
Qed.

Lemma replace_punctuation_joined (s : jsstring) :
  Forall joined_char s -> replace_punctuation s = s.
Proof.
  unfold replace_punctuation. apply map_id_on.
  intros c [H | ->]; [|reflexivity].
  destruct (plain_char_facts c H) as [_ [-> _]]. reflexivity.
Qed.

Lemma remove_hyphens_plain (w : jsstring) :
  forallb plain_char w = true -> remove_hyphens w = w.
Proof.
  unfold remove_hyphens. induction w as [|c w IH]; intro H; [reflexivity|].
  simpl in H. apply andb_true_iff in H. destruct H as [Hc Hw].
  simpl. destruct (plain_char_facts c Hc) as [_ [_ [_ [-> _]]]].
  simpl. rewrite (IH Hw). reflexivity.
Qed.

Lemma split_go_word (w cur s : jsstring) :
  forallb plain_char w = true ->
  split_go false cur (w ++ s) = split_go false (rev w ++ cur) s.
Proof.
  revert cur. induction w as [|c w IH]; intros cur H; [reflexivity|].
  simpl in H. apply andb_true_iff in H. destruct H as [Hc Hw].
  simpl. destruct (plain_char_facts c Hc) as [-> _].
  rewrite (IH _ Hw), <- app_assoc. reflexivity.
Qed.

Lemma split_go_start (w s : jsstring) (in_sep : bool) :
  plain_word w = true ->
  split_go in_sep [] (w ++ s) = split_go false (rev w) s.
Proof.
  intro H. destruct (plain_word_spec w H) as [Hne Hall].
  destruct w as [|c w]; [congruence|].
  simpl in Hall. apply andb_true_iff in Hall. destruct Hall as [Hc Hw].
  simpl. destruct (plain_char_facts c Hc) as [-> _].
  rewrite (split_go_word w [c] s Hw). reflexivity.
Qed.

Lemma split_go_joined (ws : list jsstring) (in_sep : bool) :
  ws <> [] -> Forall (fun w => plain_word w = true) ws ->
  split_go in_sep [] (join_spaces ws) = ws.
Proof.
  intros Hne H. revert in_sep.
  induction H as [|w ws Hw Hws IH]; intro in_sep; [congruence|].
  destruct ws as [|w' ws'].
  - simpl. rewrite <- (app_nil_r w) at 1.
    rewrite (split_go_start w [] in_sep Hw). simpl.
    rewrite rev_involutive. reflexivity.
  - change (join_spaces (w :: w' :: ws'))
      with (w ++ " "%char :: join_spaces (w' :: ws')).
    rewrite (split_go_start w _ in_sep Hw).
    cbn [split_go]. change (is_space " ") with true. cbv iota.
    rewrite rev_involutive, IH by discriminate. reflexivity.
Qed.

Lemma trimStart_stops (s : jsstring) :
  stops is_space s -> trimStart s = s.
Proof. destruct s as [|c s]; simpl; [reflexivity|]. intros ->. reflexivity. Qed.

Lemma plain_word_stops (w s : jsstring) :
  plain_word w = true -> stops is_space (w ++ s) /\ stops is_space (rev w ++ s).
Proof.
  intro H. destruct (plain_word_spec w H) as [Hne Hall].
  assert (F : forall u, u <> [] -> forallb plain_char u = true ->
                        stops is_space (u ++ s)).
  { intros [|c u] Hu Hf; [congruence|]. simpl in Hf.
    apply andb_true_iff in Hf. simpl. apply plain_char_facts, Hf. }
  split; [apply F; assumption|]. apply F.
  - intro E. apply Hne. rewrite <- (rev_involutive w), E. reflexivity.
  - rewrite forallb_forall in *. intros c Hc. apply Hall, in_rev, Hc.
Qed.

Lemma join_spaces_stops (ws : list jsstring) :
  ws <> [] -> Forall (fun w => plain_word w = true) ws ->
  stops is_space (join_spaces ws) /\ stops is_space (rev (join_spaces ws)).
Proof.
  intros Hne H. induction H as [|w ws Hw Hws IH]; [congruence|].
  destruct ws as [|w' ws'].
  - simpl. rewrite <- (app_nil_r w) at 1. rewrite <- (app_nil_r (rev w)).
    apply plain_word_stops, Hw.
  - change (join_spaces (w :: w' :: ws'))
      with (w ++ " "%char :: join_spaces (w' :: ws')).
    split; [apply plain_word_stops, Hw|].
    rewrite rev_app_distr. cbn [rev]. rewrite <- app_assoc.
    destruct IH as [_ IH]; [discriminate|].
    destruct (rev (join_spaces (w' :: ws'))) as [|c t] eqn:E.
    + exfalso. assert (L : length (rev (join_spaces (w' :: ws'))) = 0%nat)
        by (rewrite E; reflexivity).
      rewrite length_rev in L.
      inversion Hws as [|? ? Hw' _]; subst.
      destruct (plain_word_spec w' Hw') as [Hn _].
      destruct w' as [|c' t']; [congruence|].
      destruct ws'; simpl in L; [discriminate L|].
      rewrite length_app in L. simpl in L. lia.
    + exact IH.
Qed.

Lemma trim_joined (ws : list jsstring) :
  ws <> [] -> Forall (fun w => plain_word w = true) ws ->
  trim (join_spaces ws) = join_spaces ws.
Proof.
  intros Hne H. destruct (join_spaces_stops ws Hne H) as [H1 H2].
  unfold trim, trimEnd. rewrite (trimStart_stops _ H1), (trimStart_stops _ H2).
  apply rev_involutive.
Qed.

Lemma prev_after_cons (b : option ascii) (c : ascii) (t : jsstring) :
  exists d, prev_after b (c :: t) = Some d.
Proof.
  unfold prev_after. simpl. generalize c. induction t as [|a t IH]; intro c0.
  - exists c0. reflexivity.
  - simpl. apply IH.
Qed.

(** [exec] answers with the groups of a match that starts after some
    prefix of the string. *)
Lemma exec_from_sound_at (ic : bool) (r : regex) (s : jsstring)
    (b : option ascii) (g : list (nat * jsstring)) :
  exec_from ic r b s = Some g ->
  exists pre s' y, s = pre ++ s' /\
    Matches ic r (Cursor (prev_after b pre) s' []) y /\ groups y = g.
Proof.
  revert b. induction s as [|c s IH]; intros b H.
  - rewrite exec_from_nil in H.
    destruct (rmatch ic r _ _) as [g'|] eqn:E; [|discriminate].
    injection H as ->. destruct (rmatch_sound _ _ _ _ _ E) as [y [M Hk]].
    injection Hk as Hk. exists [], [], y. auto.
  - rewrite exec_from_cons in H.
    destruct (rmatch ic r _ _) as [g'|] eqn:E.
    + injection H as ->. destruct (rmatch_sound _ _ _ _ _ E) as [y [M Hk]].
      injection Hk as Hk. exists [], (c :: s), y. auto.
    + destruct (IH _ H) as [pre [s' [y [-> [M G]]]]].
      exists (c :: pre), s', y. auto.
Qed.

(** On a plain word [re_pureNumber] says whether it is all digits. *)
Lemma pureNumber_plain (w : jsstring) :
  plain_word w = true -> test false re_pureNumber w = all_digits w.
Proof.
  intro Hw. destruct (all_digits w) eqn:Ed; [apply pureNumber_digits, Ed|].
  destruct (test false re_pureNumber w) eqn:Et; [|reflexivity].
  exfalso. unfold test, exec in Et.
  destruct (exec_from false re_pureNumber None w) as [g|] eqn:E;
    [|discriminate]. clear Et.
  apply exec_from_sound_at in E.
  destruct E as [pre [s' [y [Es [M _]]]]].
  unfold re_pureNumber in M.
  split_seq M y1 M1.
  inversion M1 as [| | | | | | | | | | | | x Hb |]; subst. simpl in Hb.
  destruct pre as [|c pre];
    [|destruct (prev_after_cons None c pre) as [d Hd]; congruence].
  simpl in *. clear Hb M1.
  split_seq M y2 M2. apply Matches_Plus_inv in M2.
  destruct M2 as [i [Hne [Hi [Ei _]]]]. simpl in Ei.
  split_seq M y3 M3.
  destruct (plain_word_spec _ Hw) as [_ Hall].
  inversion M3 as [| | | | | | r x' y' Ht | r x' | | | | | |]; subst.
  - apply Matches_Grp_inv in Ht. destruct Ht as [y4 [Ht _]].
    split_seq Ht y5 M5.
    inversion M5 as [| c x' a t E Hc | | | | | | | | | | | |]; subst.
    unfold char_matches in Hc.
    assert (Hin : In a (i ++ input y2)) by
      (rewrite E; apply in_or_app; right; left; reflexivity).
    rewrite forallb_forall in Hall. specialize (Hall a Hin).
    destruct (plain_char_facts a Hall) as [_ [_ [_ [_ Hd]]]]. congruence.
  - inversion M as [| | | | | | | | | | | | | x He]; subst.
    rewrite He, app_nil_r in Ed.
    rewrite (all_digits_intro i Hne Hi) in Ed. discriminate Ed.
Qed.

(** X24.  A query of plain words - letters a-z and digits, one space
    between them - gives back as keywords exactly its words that are
    neither stop words nor strings of digits, in order and with their
    repeats. *)
Theorem plain_words_become_keywords (ws : list jsstring) :
  ws <> [] -> Forall (fun w => plain_word w = true) ws ->
  keywords (parseQuery (join_spaces ws)) = filter is_keyword ws.
Proof.
  intros Hne H.
  pose proof (join_spaces_chars ws H) as Hc.
  rewrite parseQuery_keywords, (trim_joined ws Hne H).
  unfold keywords_of, split_spaces.
  rewrite (toLowerCase_joined _ Hc), (replace_punctuation_joined _ Hc).
  rewrite (split_go_joined ws false Hne H).
  rewrite (map_id_on remove_hyphens (fun w => plain_word w = true) ws);
    [|intros w Hw; apply remove_hyphens_plain, plain_word_spec, Hw | exact H].
  apply filter_ext_in. intros w Hw.
  rewrite Forall_forall in H. specialize (H w Hw).
  rewrite (pureNumber_plain w H). unfold is_keyword.
  destruct (plain_word_spec w H) as [Hn _].
  destruct (string_eqb w []) eqn:E; [|reflexivity].
  apply string_eqb_eq in E. congruence.
Qed.

Lemma plain_words_become_keywords_witness :
  [lit "show"; lit "me"; lit "wool"; lit "tee"; lit "42"; lit "wool"] <> [] /\
  keywords (parseQuery (lit "show me wool tee 42 wool"))
  = [lit "wool"; lit "tee"; lit "wool"].
Proof.
  assert (Hne : [lit "show"; lit "me"; lit "wool"; lit "tee"; lit "42";
                 lit "wool"] <> []) by discriminate.
  assert (H : Forall (fun w => plain_word w = true)
                [lit "show"; lit "me"; lit "wool"; lit "tee"; lit "42";
                 lit "wool"])
    by (repeat constructor).
  split; [exact Hne|].
  exact (plain_words_become_keywords _ Hne H).
Defined.
